(** * HackerCraft portfolio site: toast queue, progression, save data and
    parkour physics

  Two scripts implement the site.  [js/hackercraft-engine.js] is the
  class-based engine ([HackercraftEngine], [UIManager], [SaveManager]);
  the second script is a closure that keeps one [state] object and exposes
  [createToast], [awardAchievement] and [setupParkour].  Each is embedded
  below in a module of its own: [Engine] and [Closure].

  Conventions of the embedding.
  - JavaScript integers that the scripts only add, compare and floor
    (xp, level, hotbar index, millisecond clocks of the engine) are [Z].
  - JavaScript numbers with fractions (volumes, positions, velocities, the
    frame timestamps) are exact rationals [Q]; rounding of IEEE doubles is
    not modelled.
  - Objects used as maps are [gmap], [Set]s are [gset] (the insertion
    order a JavaScript [Set] iterates in is not kept); where a script looks
    up a key that the page supplies, the properties an object literal
    inherits are part of the lookup.
  - DOM writes, sounds and timers are explicit: a function returns the new
    world, and a log records the calls made to fire-and-forget sinks.  Time
    is a virtual millisecond clock: a [setTimeout] callback runs no earlier
    than its delay, the [onComplete] of a GSAP tween whenever GSAP's ticker
    runs it. *)

From Stdlib Require Import ZArith QArith Qminmax Qround Lia Lqa List String Ascii Bool.
From stdpp Require Import gmap strings pretty sorting.
Import ListNotations.
Close Scope Q_scope.
Local Open Scope string_scope.
Local Open Scope list_scope.
Local Open Scope Z_scope.

(** ** JavaScript helpers *)

Module JS.

(** [x < y] and [x <= y] on numbers, as booleans. *)
Definition ltb (x y : Q) : bool := negb (Qle_bool y x).
Definition leb (x y : Q) : bool := Qle_bool x y.

(** Truthiness of a number: zero is falsy. *)
Definition truthyZ (n : Z) : bool := negb (n =? 0).
Definition truthyQ (q : Q) : bool := negb (Qeq_bool q 0%Q).

(** [v || d] where [v] is a possibly missing number. *)
Definition orZ (v : option Z) (d : Z) : Z :=
  match v with
  | Some n => if truthyZ n then n else d
  | None => d
  end.

Definition orQ (v : option Q) (d : Q) : Q :=
  match v with
  | Some q => if truthyQ q then q else d
  | None => d
  end.

(** [v || d] where [v] is a possibly missing array: every array is truthy. *)
Definition orArray {A} (v : option (list A)) (d : list A) : list A :=
  match v with
  | Some l => l
  | None => d
  end.

(** [m[k]] read as a condition: a missing key is [undefined], falsy. *)
Definition held (m : gmap string bool) (k : string) : bool :=
  match m !! k with
  | Some b => b
  | None => false
  end.

(** [Array.prototype.indexOf] on strings. *)
Fixpoint indexOf_from (i : Z) (l : list string) (s : string) : Z :=
  match l with
  | [] => -1
  | x :: r => if String.eqb x s then i else indexOf_from (i + 1) r s
  end.
Definition indexOf (l : list string) (s : string) : Z := indexOf_from 0 l s.

(** [l[i]] for an integer index. *)
Definition at_index {A} (l : list A) (i : Z) : option A :=
  if i <? 0 then None else nth_error l (Z.to_nat i).

(** [Math.floor(x * 1.5)] on an integer [x]. *)
Definition floor_times_1_5 (x : Z) : Z := Qfloor (inject_Z x * (15 # 10))%Q.

(** [Math.round]: the nearest integer, halves upwards. *)
Definition round (q : Q) : Z := Qfloor (q + (1 # 2))%Q.

(** [String.prototype.toLowerCase] on ASCII letters. *)
Definition lower_ascii (c : ascii) : ascii :=
  let n := nat_of_ascii c in
  if ((65 <=? n)%nat && (n <=? 90)%nat)%bool then ascii_of_nat (n + 32) else c.
Fixpoint toLowerCase (s : string) : string :=
  match s with
  | EmptyString => EmptyString
  | String c r => String (lower_ascii c) (toLowerCase r)
  end.

End JS.

(** ** The class-based engine *)

Module Engine.

(** [HackercraftEngine.state]. *)
Record state := mkState {
  currentScreen : string;
  currentBiome : string;
  health : Z;
  maxHealth : Z;
  xp : Z;
  level : Z;
  xpToNext : Z;
  unlockedAchievements : gset string;
  hotbarIndex : Z;
  volume : Q;
  sfxVolume : Q;
  darkTheme : bool
}.

(** The object literal of the constructor. *)
Definition initialState : state :=
  {| currentScreen := "title"; currentBiome := "forest";
     health := 10; maxHealth := 10;
     xp := 0; level := 1; xpToNext := 100;
     unlockedAchievements := ∅; hotbarIndex := 0;
     volume := (5 # 10)%Q; sfxVolume := (7 # 10)%Q; darkTheme := true |}.

(** A queued toast: [{ title, description, id: Date.now() }]. *)
Record toast := mkToast {
  title : string;
  description : string;
  id : Z
}.

(** The [div] built by [processToastQueue]: class ['toast showing'], later
    ['toast hiding'].  [node] stands for the identity of the DOM node. *)
Inductive toastClass := showing | hiding.

Record toastElement := mkToastElement {
  node : nat;
  content : toast;
  cls : toastClass
}.

(** The three closures [processToastQueue] leaves behind, each holding the
    element it was created for: the [onComplete] of the entrance tween, the
    outer [setTimeout(.., 3000)] and the inner [setTimeout(.., 500)]. *)
Inductive callback :=
| tweenComplete (n : nat)
| displayElapsed (n : nat)
| exitElapsed (n : nat).

Record timer := mkTimer {
  due : Z;
  cb : callback
}.

(** Delays of the source, in milliseconds: [duration: 0.5] of the entrance
    tween (its nominal length), [3000] of the display timer, [500] of the
    exit timer. *)
Definition ENTRANCE_MS : Z := 500.
Definition DISPLAY_MS : Z := 3000.
Definition EXIT_MS : Z := 500.

(** The record written by [SaveManager.save]; a field that [JSON.parse]
    does not find is [None] ([undefined]). *)
Record saveData := mkSaveData {
  sd_xp : option Z;
  sd_level : option Z;
  sd_unlockedAchievements : option (list string);
  sd_volume : option Q;
  sd_sfxVolume : option Q;
  sd_darkTheme : option bool;
  sd_lastSave : option Z
}.

(** What [localStorage.getItem(saveKey)] can find: nothing, a string that
    [JSON.parse] rejects, or the text of a record.  [JSON.parse] of
    [JSON.stringify] of a record of finite numbers, booleans and string
    arrays is that record, so the stored text is kept as the record. *)
Inductive stored :=
| noItem
| unparsable
| item (d : saveData).

(** Calls to sinks that keep no state of the model, stamped with the clock
    in the log: sounds, HUD refreshes, tweens, and the DOM changes of a
    toast element. *)
Inductive effect :=
| played (name : string)
| hudUpdated
| biomeTween (biome : string)
| appended (n : nat) (t : toast)
| shown (n : nat)
| hidden (n : nat)
| removed (n : nat)
| warned (msg : string).

Record world := mkWorld {
  st : state;
  (* UIManager *)
  toastQueue : list toast;
  isShowingToast : bool;
  (* DOM *)
  toastContainer : list toastElement;
  nextNode : nat;
  hotbarSlots : list bool;
  activeBiome : option string;
  (* browser *)
  timers : list timer;
  clock : Z;
  localStorage : stored;
  storageWritable : bool;
  log : list (Z * effect)
}.

Definition with_st (s : state) (w : world) : world :=
  mkWorld s (toastQueue w) (isShowingToast w) (toastContainer w) (nextNode w)
          (hotbarSlots w) (activeBiome w) (timers w) (clock w)
          (localStorage w) (storageWritable w) (log w).

Definition with_toastQueue (q : list toast) (w : world) : world :=
  mkWorld (st w) q (isShowingToast w) (toastContainer w) (nextNode w)
          (hotbarSlots w) (activeBiome w) (timers w) (clock w)
          (localStorage w) (storageWritable w) (log w).

Definition with_isShowingToast (b : bool) (w : world) : world :=
  mkWorld (st w) (toastQueue w) b (toastContainer w) (nextNode w)
          (hotbarSlots w) (activeBiome w) (timers w) (clock w)
          (localStorage w) (storageWritable w) (log w).

Definition with_toastContainer (c : list toastElement) (w : world) : world :=
  mkWorld (st w) (toastQueue w) (isShowingToast w) c (nextNode w)
          (hotbarSlots w) (activeBiome w) (timers w) (clock w)
          (localStorage w) (storageWritable w) (log w).

Definition with_nextNode (n : nat) (w : world) : world :=
  mkWorld (st w) (toastQueue w) (isShowingToast w) (toastContainer w) n
          (hotbarSlots w) (activeBiome w) (timers w) (clock w)
          (localStorage w) (storageWritable w) (log w).

Definition with_hotbarSlots (l : list bool) (w : world) : world :=
  mkWorld (st w) (toastQueue w) (isShowingToast w) (toastContainer w) (nextNode w)
          l (activeBiome w) (timers w) (clock w)
          (localStorage w) (storageWritable w) (log w).

Definition with_activeBiome (b : option string) (w : world) : world :=
  mkWorld (st w) (toastQueue w) (isShowingToast w) (toastContainer w) (nextNode w)
          (hotbarSlots w) b (timers w) (clock w)
          (localStorage w) (storageWritable w) (log w).

Definition with_timers (t : list timer) (w : world) : world :=
  mkWorld (st w) (toastQueue w) (isShowingToast w) (toastContainer w) (nextNode w)
          (hotbarSlots w) (activeBiome w) t (clock w)
          (localStorage w) (storageWritable w) (log w).

Definition with_clock (c : Z) (w : world) : world :=
  mkWorld (st w) (toastQueue w) (isShowingToast w) (toastContainer w) (nextNode w)
          (hotbarSlots w) (activeBiome w) (timers w) c
          (localStorage w) (storageWritable w) (log w).

Definition with_localStorage (s : stored) (w : world) : world :=
  mkWorld (st w) (toastQueue w) (isShowingToast w) (toastContainer w) (nextNode w)
          (hotbarSlots w) (activeBiome w) (timers w) (clock w)
          s (storageWritable w) (log w).

(** Append one entry to the log, stamped with the current clock. *)
Definition emit (e : effect) (w : world) : world :=
  mkWorld (st w) (toastQueue w) (isShowingToast w) (toastContainer w) (nextNode w)
          (hotbarSlots w) (activeBiome w) (timers w) (clock w)
          (localStorage w) (storageWritable w) (log w ++ [(clock w, e)]).

(** [setTimeout(cb, delay)], and the tween's [onComplete] at the nominal
    end of the tween. *)
Definition setTimeout (c : callback) (delay : Z) (w : world) : world :=
  with_timers (timers w ++ [mkTimer (clock w + delay) c]) w.

(** The world right after the constructor: nothing queued, nothing shown,
    the nine hotbar slots of [initHotbar] not yet marked. *)
Definition initialWorld : world :=
  {| st := initialState; toastQueue := []; isShowingToast := false;
     toastContainer := []; nextNode := 0%nat;
     hotbarSlots := repeat false 9; activeBiome := None;
     timers := []; clock := 0; localStorage := noItem;
     storageWritable := true; log := [] |}.

(** *** UIManager: the toast queue *)

(** [processToastQueue].  The [onComplete] of the entrance tween is kept
    with the other pending closures, under the nominal end of the tween;
    [ready] below says when each can run. *)
Definition processToastQueue (w : world) : world :=
  if isShowingToast w then w
  else
    match toastQueue w with
    | [] => w
    | t :: rest =>
        let n := nextNode w in
        let w := with_isShowingToast true w in
        let w := with_toastQueue rest w in
        let w := with_nextNode (S n) w in
        let w := with_toastContainer (toastContainer w ++ [mkToastElement n t showing]) w in
        let w := emit (appended n t) w in
        setTimeout (tweenComplete n) ENTRANCE_MS w
    end.

(** [showToast(title, description)]. *)
Definition showToast (title description : string) (w : world) : world :=
  let t := mkToast title description (clock w) in
  processToastQueue (with_toastQueue (toastQueue w ++ [t]) w).

(** [classList.remove('showing'); classList.add('hiding')] on node [n]. *)
Definition markHiding (n : nat) (c : list toastElement) : list toastElement :=
  map (fun e => if Nat.eqb (node e) n then mkToastElement (node e) (content e) hiding else e) c.

Definition isChild (n : nat) (c : list toastElement) : bool :=
  existsb (fun e => Nat.eqb (node e) n) c.

Definition removeChild (n : nat) (c : list toastElement) : list toastElement :=
  List.filter (fun e => negb (Nat.eqb (node e) n)) c.

(** The body of each closure. *)
Definition runCallback (c : callback) (w : world) : world :=
  match c with
  | tweenComplete n =>
      setTimeout (displayElapsed n) DISPLAY_MS (emit (shown n) w)
  | displayElapsed n =>
      let w := with_toastContainer (markHiding n (toastContainer w)) w in
      setTimeout (exitElapsed n) EXIT_MS (emit (hidden n) w)
  | exitElapsed n =>
      (* removeChild throws when the node is not a child; the rest of the
         closure is then skipped *)
      if isChild n (toastContainer w) then
        let w := with_toastContainer (removeChild n (toastContainer w)) w in
        let w := emit (removed n) w in
        processToastQueue (with_isShowingToast false w)
      else w
  end.

(** What can happen to the toast queue: a call of [showToast], time
    passing, and the event loop running a callback that is due. *)
Inductive event :=
| Show (title description : string)
| Elapse (d : Z)
| Fire (k : nat).

Fixpoint remove_nth {A} (k : nat) (l : list A) : list A :=
  match l, k with
  | [], _ => []
  | _ :: r, O => r
  | x :: r, S k' => x :: remove_nth k' r
  end.

(** Whether a pending closure can run now.  A [setTimeout] callback does
    not run before its delay has passed.  The [onComplete] of the entrance
    tween is run by GSAP's ticker, which counts the tween's 0.5 s on its
    own clock, from the time of its last frame: it can run before 500 ms
    have passed on the page's clock, so nothing is asked of it. *)
Definition ready (tm : timer) (w : world) : bool :=
  match cb tm with
  | tweenComplete _ => true
  | displayElapsed _ | exitElapsed _ => due tm <=? clock w
  end.

(** One event; [None] when the event cannot happen in this world (time
    running backwards, a callback that is not pending or not yet due). *)
Definition handle (w : world) (e : event) : option world :=
  match e with
  | Show t d => Some (showToast t d w)
  | Elapse d => if 0 <=? d then Some (with_clock (clock w + d) w) else None
  | Fire k =>
      match nth_error (timers w) k with
      | Some tm =>
          if ready tm w
          then Some (runCallback (cb tm) (with_timers (remove_nth k (timers w)) w))
          else None
      | None => None
      end
  end.

Fixpoint run (w : world) (es : list event) : option world :=
  match es with
  | [] => Some w
  | e :: r =>
      match handle w e with
      | Some w' => run w' r
      | None => None
      end
  end.

(** *** Progression *)

Definition set_progress (xp' level' xpToNext' : Z) (s : state) : state :=
  mkState (currentScreen s) (currentBiome s) (health s) (maxHealth s)
          xp' level' xpToNext' (unlockedAchievements s) (hotbarIndex s)
          (volume s) (sfxVolume s) (darkTheme s).

Definition set_unlockedAchievements (a : gset string) (s : state) : state :=
  mkState (currentScreen s) (currentBiome s) (health s) (maxHealth s)
          (xp s) (level s) (xpToNext s) a (hotbarIndex s)
          (volume s) (sfxVolume s) (darkTheme s).

Definition set_hotbarIndex (i : Z) (s : state) : state :=
  mkState (currentScreen s) (currentBiome s) (health s) (maxHealth s)
          (xp s) (level s) (xpToNext s) (unlockedAchievements s) i
          (volume s) (sfxVolume s) (darkTheme s).

Definition set_currentBiome (b : string) (s : state) : state :=
  mkState (currentScreen s) b (health s) (maxHealth s)
          (xp s) (level s) (xpToNext s) (unlockedAchievements s) (hotbarIndex s)
          (volume s) (sfxVolume s) (darkTheme s).

Definition set_currentScreen (c : string) (s : state) : state :=
  mkState c (currentBiome s) (health s) (maxHealth s)
          (xp s) (level s) (xpToNext s) (unlockedAchievements s) (hotbarIndex s)
          (volume s) (sfxVolume s) (darkTheme s).

Definition set_volume (v : Q) (s : state) : state :=
  mkState (currentScreen s) (currentBiome s) (health s) (maxHealth s)
          (xp s) (level s) (xpToNext s) (unlockedAchievements s) (hotbarIndex s)
          v (sfxVolume s) (darkTheme s).

(** One pass through the body of the [while] of [addXP]. *)
Definition levelUp (w : world) : world :=
  let s := st w in
  let xp' := xp s - xpToNext s in
  let level' := level s + 1 in
  let xpToNext' := JS.floor_times_1_5 (xpToNext s) in
  let w := with_st (set_progress xp' level' xpToNext' s) w in
  let w := showToast "Level Up!" ("Reached level " +:+ pretty level') w in
  emit (played "xp_gain") w.

(** [while (xp >= xpToNext) { .. }]; [None] when [fuel] passes do not end
    the loop. *)
Fixpoint levelUpLoop (fuel : nat) (w : world) : option world :=
  if xpToNext (st w) <=? xp (st w) then
    match fuel with
    | O => None
    | S fuel' => levelUpLoop fuel' (levelUp w)
    end
  else Some w.

(** [addXP(amount)]. *)
Definition addXP (fuel : nat) (amount : Z) (w : world) : option world :=
  let s := st w in
  let w := with_st (set_progress (xp s + amount) (level s) (xpToNext s) s) w in
  match levelUpLoop fuel w with
  | Some w => Some (emit hudUpdated w)
  | None => None
  end.

(** *** SaveManager *)

(** [save()]: [setItem] throws when the storage cannot be written, and the
    [catch] only warns. *)
Definition save (w : world) : world :=
  let s := st w in
  let d := {| sd_xp := Some (xp s);
              sd_level := Some (level s);
              sd_unlockedAchievements := Some (elements (unlockedAchievements s));
              sd_volume := Some (volume s);
              sd_sfxVolume := Some (sfxVolume s);
              sd_darkTheme := Some (darkTheme s);
              sd_lastSave := Some (clock w) |} in
  if storageWritable w then with_localStorage (item d) w
  else emit (warned "Failed to save game:") w.

(** The assignments of [load()] from a parsed record. *)
Definition restore (d : saveData) (s : state) : state :=
  mkState (currentScreen s) (currentBiome s) (health s) (maxHealth s)
          (JS.orZ (sd_xp d) 0)
          (JS.orZ (sd_level d) 1)
          (xpToNext s)
          (list_to_set (JS.orArray (sd_unlockedAchievements d) []))
          (hotbarIndex s)
          (JS.orQ (sd_volume d) (5 # 10)%Q)
          (JS.orQ (sd_sfxVolume d) (7 # 10)%Q)
          (match sd_darkTheme d with Some b => b | None => true end).

(** [load()].  The writes to the theme attribute, the two sliders and
    their labels are left out; [updateHUD] is logged. *)
Definition load (w : world) : world :=
  match localStorage w with
  | noItem => w
  | unparsable => emit (warned "Failed to load save:") w
  | item d => emit hudUpdated (with_st (restore d (st w)) w)
  end.

(** [unlockAchievement(title, description)]. *)
Definition unlockAchievement (fuel : nat) (title description : string) (w : world)
  : option world :=
  if bool_decide (title ∈ unlockedAchievements (st w)) then Some w
  else
    let s := st w in
    let w := with_st (set_unlockedAchievements (unlockedAchievements s ∪ {[ title ]}) s) w in
    match addXP fuel 25 w with
    | None => None
    | Some w =>
        let w := showToast ("Achievement: " +:+ title) description w in
        let w := emit (played "achievement") w in
        Some (save w)
    end.

(** *** Hotbar and biomes *)

Definition biomes : list string := ["forest"; "cave"; "desert"; "sky"; "nether"].

(** [switchBiome(biome)], with the [switchHotbar] it calls passed in. *)
Definition switchBiome_with (switchHotbar : Z -> world -> option world)
           (biome : string) (w : world) : option world :=
  if negb (String.eqb (currentScreen (st w)) "game") then Some w
  else
    let w := with_activeBiome (Some biome) w in
    let w := with_st (set_currentBiome biome (st w)) w in
    let biomeIndex := JS.indexOf biomes biome in
    match switchHotbar biomeIndex w with
    | None => None
    | Some w => Some (emit (biomeTween biome) (emit (played "page_switch") w))
    end.

(** [switchHotbar(index)].  The two methods call each other; [fuel] bounds
    the depth of the call stack and [None] is its exhaustion. *)
Fixpoint switchHotbar (fuel : nat) (index : Z) (w : world) : option world :=
  match fuel with
  | O => None
  | S fuel' =>
      if (index <? 0) || (8 <? index) then Some w
      else
        let w := with_hotbarSlots
                   (imap (fun i _ => Z.of_nat i =? index) (hotbarSlots w)) w in
        let w := with_st (set_hotbarIndex index (st w)) w in
        let r :=
          if index <? Z.of_nat (length biomes) then
            match JS.at_index biomes index with
            | Some b => switchBiome_with (switchHotbar fuel') b w
            | None => Some w
            end
          else Some w in
        match r with
        | None => None
        | Some w => Some (emit (played "hover") w)
        end
  end.

Definition switchBiome (fuel : nat) : string -> world -> option world :=
  switchBiome_with (switchHotbar fuel).

(** *** The parkour game of [initParkourGame] *)

(** A [.parkour-platform] element as [updateParkour] reads it:
    [parseInt] of its [left], [bottom] and [width] styles, and whether it
    carries the class [end]. *)
Record platform := mkPlatform {
  platX : Z;
  platY : Z;
  platWidth : Z;
  isEnd : bool
}.

(** The variables the closures of [initParkourGame] share, the [onGround]
    local of [updateParkour] (reset at the start of every frame), and the
    [parkourCompleted] flag the closures keep on the manager. *)
Record parkour := mkParkour {
  playerX : Q;
  playerY : Q;
  isJumping : bool;
  velocityY : Q;
  onGround : bool;
  keys : gmap string bool;
  parkourCompleted : bool
}.

Definition gravity : Q := (5 # 10)%Q.
Definition jumpStrength : Q := (- 12)%Q.

Definition initialParkour : parkour :=
  mkParkour 70%Q 60%Q false 0%Q false ∅ false.

(** The [keydown] and [keyup] listeners of [initParkourGame]. *)
Definition keydown (key : string) (wp : world * parkour) : world * parkour :=
  let '(w, p) := wp in
  if negb (String.eqb (currentBiome (st w)) "cave") then (w, p)
  else
    let ks := <[ JS.toLowerCase key := true ]> (keys p) in
    if String.eqb key " " && negb (isJumping p)
    then (w, mkParkour (playerX p) (playerY p) true jumpStrength (onGround p) ks
                       (parkourCompleted p))
    else (w, mkParkour (playerX p) (playerY p) (isJumping p) (velocityY p) (onGround p) ks
                       (parkourCompleted p)).

Definition keyup (key : string) (wp : world * parkour) : world * parkour :=
  let '(w, p) := wp in
  (w, mkParkour (playerX p) (playerY p) (isJumping p) (velocityY p) (onGround p)
                (<[ JS.toLowerCase key := false ]> (keys p)) (parkourCompleted p)).

(** [completeParkour()]. *)
Definition completeParkour (fuel : nat) (wp : world * parkour) : option (world * parkour) :=
  let '(w, p) := wp in
  if parkourCompleted p then Some (w, p)
  else
    let p := mkParkour (playerX p) (playerY p) (isJumping p) (velocityY p)
                       (onGround p) (keys p) true in
    match addXP fuel 50 w with
    | None => None
    | Some w =>
        match unlockAchievement fuel "Parkour Master" "Completed the skills course!" w with
        | None => None
        | Some w => Some (w, p)
        end
    end.

(** The test of the [forEach] body. *)
Definition overlaps (p : parkour) (pl : platform) : bool :=
  JS.ltb (inject_Z (platX pl)) (playerX p + 30)%Q
  && JS.ltb (playerX p) (inject_Z (platX pl + platWidth pl))
  && JS.ltb (inject_Z (platY pl)) (playerY p + 50)%Q
  && JS.ltb (playerY p) (inject_Z (platY pl + 40)).

(** The body of [platforms.forEach] for one platform. *)
Definition collide (fuel : nat) (wp : world * parkour) (pl : platform)
  : option (world * parkour) :=
  let '(w, p) := wp in
  if overlaps p pl then
    let p := mkParkour (playerX p) (inject_Z (platY pl - 50)) (isJumping p) 0%Q
                       true (keys p) (parkourCompleted p) in
    if isEnd pl then completeParkour fuel (w, p) else Some (w, p)
  else Some (w, p).

Fixpoint forEachPlatform (fuel : nat) (wp : world * parkour) (pls : list platform)
  : option (world * parkour) :=
  match pls with
  | [] => Some wp
  | pl :: r =>
      match collide fuel wp pl with
      | None => None
      | Some wp => forEachPlatform fuel wp r
      end
  end.

(** One frame of [updateParkour], up to its [requestAnimationFrame]. *)
Definition updateParkour (fuel : nat) (pls : list platform) (wp : world * parkour)
  : option (world * parkour) :=
  let '(w, p) := wp in
  let x := playerX p in
  let x := if JS.held (keys p) "a" || JS.held (keys p) "arrowleft" then (x - 3)%Q else x in
  let x := if JS.held (keys p) "d" || JS.held (keys p) "arrowright" then (x + 3)%Q else x in
  let vy := (velocityY p + gravity)%Q in
  let y := (playerY p + vy)%Q in
  let p := mkParkour x y (isJumping p) vy false (keys p) (parkourCompleted p) in
  match forEachPlatform fuel (w, p) pls with
  | None => None
  | Some (w, p) =>
      let p := if JS.leb 150%Q (playerY p)
               then mkParkour (playerX p) 150%Q (isJumping p) 0%Q true
                              (keys p) (parkourCompleted p)
               else p in
      let p := mkParkour (Qmax 0%Q (Qmin (playerX p) 470%Q)) (playerY p)
                         (negb (onGround p)) (velocityY p) (onGround p)
                         (keys p) (parkourCompleted p) in
      Some (w, p)
  end.

(** *** The HUD: [updateHealth] and [updateXP] *)

(** The three images a heart of the row can show. *)
Inductive heart := heartFull | heartHalf | heartEmpty.

(** The [if] / [else if] / [else] of the loop body for heart [i]. *)
Definition heartAt (health i : Z) : heart :=
  if (i + 1) * 2 <=? health then heartFull
  else if i * 2 + 1 <=? health then heartHalf
  else heartEmpty.

(** [for (let i = 0; i < maxHealth / 2; i++)], from counter [i] on.  On
    integers [i < maxHealth / 2] is [2 * i < maxHealth]; [None] when [fuel]
    passes do not end the loop. *)
Fixpoint heartsFrom (fuel : nat) (health maxHealth i : Z) : option (list heart) :=
  if 2 * i <? maxHealth then
    match fuel with
    | O => None
    | S fuel' =>
        match heartsFrom fuel' health maxHealth (i + 1) with
        | Some r => Some (heartAt health i :: r)
        | None => None
        end
    end
  else Some [].

(** [updateHealth()]: the children of [.hearts] and the text of
    [.health-text]. *)
Definition updateHealth (fuel : nat) (s : state) : option (list heart * string) :=
  match heartsFrom fuel (health s) (maxHealth s) 0 with
  | Some l => Some (l, pretty (health s) +:+ "/" +:+ pretty (maxHealth s))
  | None => None
  end.

(** The [progress] of [updateXP()]: the width of [.xp-progress], in
    percent. *)
Definition xpProgress (s : state) : Q :=
  (inject_Z (xp s) / inject_Z (xpToNext s) * 100)%Q.

(** *** GameManager: [handleWheel] *)

(** [handleWheel(self)]; [deltaY] is [self.deltaY].  JavaScript's [%]
    takes the sign of the dividend: [Z.rem]. *)
Definition handleWheel (fuel : nat) (deltaY : Q) (w : world) : option world :=
  if negb (String.eqb (currentScreen (st w)) "game") then Some w
  else
    let delta := if JS.ltb 0%Q deltaY then 1 else -1 in
    let newIndex := Z.rem (hotbarIndex (st w) + delta + 9) 9 in
    switchHotbar fuel newIndex w.

(** *** Listeners of the mini games *)

(** The [click] listener [initBlockGame] puts on a [.block]; [fact] is
    [block.dataset.fact].  The tween on the block is left out. *)
Definition blockClick (fuel : nat) (fact : string) (w : world) : option world :=
  let w := emit (played "block_break") w in
  let w := showToast "Block Broken!" fact w in
  match addXP fuel 10 w with
  | None => None
  | Some w =>
      if bool_decide ("First Block" ∈ unlockedAchievements (st w)) then Some w
      else unlockAchievement fuel "First Block" "You broke your first block!" w
  end.

(** [initCrafting]: the [recipes] table, by name of the result. *)
Definition recipes : gmap string string :=
  list_to_map [ ("react+node+aws", "Full-Stack App");
                ("python+docker+security", "Secure Microservice");
                ("git+linux+api", "DevOps Pipeline") ].

(** [slot.dataset.item || 'empty']: a missing attribute and the empty
    string are both falsy. *)
Definition itemOf (slot : option string) : string :=
  match slot with
  | Some s => if String.eqb s "" then "empty" else s
  | None => "empty"
  end.

(** [Array.prototype.join('+')]. *)
Fixpoint join (l : list string) : string :=
  match l with
  | [] => ""
  | [s] => s
  | s :: r => s +:+ "+" +:+ join r
  end.

(** What [recipes[items]] finds when [items] is no key of the table: like
    every object literal, the table inherits the properties of
    [Object.prototype].  Its methods are functions, whose [name] is the
    name of the property ([Object] for [constructor]); [__proto__] is the
    prototype itself, which has no [name].  All these values are truthy and
    none has an [icon].  The map gives the [name] of the value found. *)
Definition inherited : gmap string (option string) :=
  list_to_map [ ("constructor", Some "Object");
                ("hasOwnProperty", Some "hasOwnProperty");
                ("isPrototypeOf", Some "isPrototypeOf");
                ("propertyIsEnumerable", Some "propertyIsEnumerable");
                ("toLocaleString", Some "toLocaleString");
                ("toString", Some "toString");
                ("valueOf", Some "valueOf");
                ("__defineGetter__", Some "__defineGetter__");
                ("__defineSetter__", Some "__defineSetter__");
                ("__lookupGetter__", Some "__lookupGetter__");
                ("__lookupSetter__", Some "__lookupSetter__");
                ("__proto__", None) ].

(** [recipes[items]], by the [name] of what it finds: [None] is
    [undefined], [Some None] a value that has no [name]. *)
Definition lookupRecipe (items : string) : option (option string) :=
  match recipes !! items with
  | Some name => Some (Some name)
  | None => inherited !! items
  end.

(** [recipe.name] inside a template literal. *)
Definition nameText (name : option string) : string :=
  match name with
  | Some s => s
  | None => "undefined"
  end.

(** The [click] listener of the craft button; [slots] are the [data-item]
    attributes of the crafting slots.  The result is the new world and the
    name shown in the result slot, [None] for the failure mark. *)
Definition craftClick (fuel : nat) (slots : list (option string)) (w : world)
  : option (world * option string) :=
  let items := join (map itemOf slots) in
  match lookupRecipe items with
  | Some name =>
      match unlockAchievement fuel "Crafting Expert"
                              ("Crafted: " +:+ nameText name) w with
      | None => None
      | Some w => Some (emit (played "block_break") w, Some (nameText name))
      end
  | None => Some (emit (played "block_break") w, None)
  end.

(** *** Settings *)

Definition set_sfxVolume (v : Q) (s : state) : state :=
  mkState (currentScreen s) (currentBiome s) (health s) (maxHealth s)
          (xp s) (level s) (xpToNext s) (unlockedAchievements s) (hotbarIndex s)
          (volume s) v (darkTheme s).

Definition set_darkTheme (b : bool) (s : state) : state :=
  mkState (currentScreen s) (currentBiome s) (health s) (maxHealth s)
          (xp s) (level s) (xpToNext s) (unlockedAchievements s) (hotbarIndex s)
          (volume s) (sfxVolume s) b.

(** *** SoundManager *)

Module SoundManager.

(** A value of the [sounds] map: a decoded buffer (named by its url) or
    the [true] that [setupFallbackSounds] stores. *)
Inductive entry :=
| audioBuffer (url : string)
| placeholder.

(** The fields of the class; [audioContext] is whether the field holds a
    context ([false] is [null]). *)
Record t := mk {
  audioContext : bool;
  sounds : gmap string entry;
  masterVolume : Q;
  sfxVolume : Q;
  initialized : bool
}.

(** The constructor. *)
Definition new : t := mk false ∅ (5 # 10)%Q (7 # 10)%Q false.

(** The [soundFiles] literal of [init], in its order. *)
Definition soundFiles : list (string * string) :=
  [ ("ui_click", "assets/ui_click.wav");
    ("block_break", "assets/block_break.wav");
    ("xp_gain", "assets/xp_gain.wav");
    ("achievement", "assets/achievement.wav");
    ("open_inventory", "assets/open_inventory.wav");
    ("hover", "assets/hover.wav");
    ("pause_menu", "assets/pause_menu.wav");
    ("page_switch", "assets/page_switch.wav") ].

(** [loadSound(name, url)]; [ok] is whether the fetch and the decoding
    succeed.  A failure is caught inside and only logged. *)
Definition loadSound (ok : bool) (name url : string) (m : t) : t :=
  if ok then mk (audioContext m) (<[ name := audioBuffer url ]> (sounds m))
                (masterVolume m) (sfxVolume m) (initialized m)
  else m.

(** [setupFallbackSounds()]. *)
Definition setupFallbackSounds (m : t) : t :=
  mk (audioContext m) (<[ "fallback" := placeholder ]> (sounds m))
     (masterVolume m) (sfxVolume m) true.

(** [init()]; [available] is whether an audio context can be constructed
    (the constructor call throws otherwise, before the field is assigned),
    [ok name] whether the file of [name] loads. *)
Definition init (available : bool) (ok : string -> bool) (m : t) : t :=
  if available then
    let m := mk true (sounds m) (masterVolume m) (sfxVolume m) (initialized m) in
    let m := fold_left (fun m nu => loadSound (ok (fst nu)) (fst nu) (snd nu) m)
                       soundFiles m in
    mk (audioContext m) (sounds m) (masterVolume m) (sfxVolume m) true
  else setupFallbackSounds m.

(** [setVolume(volume)]. *)
Definition setVolume (volume : Q) (m : t) : t :=
  mk (audioContext m) (sounds m) volume (sfxVolume m) (initialized m).

(** What a call of [play] does: nothing, [source.start(0)] on a buffer
    through a gain node, an oscillator beep, or a [TypeError]. *)
Inductive outcome :=
| silent
| started (url : string) (gain : Q)
| beeped (frequency : Z) (gain : Q)
| thrown.

(** The [frequencies] literal of [playFallback]. *)
Definition frequencies : gmap string Z :=
  list_to_map [ ("ui_click", 800); ("block_break", 300); ("xp_gain", 1200);
                ("achievement", 1500); ("hover", 600) ].

(** [playBeep(frequency, duration)].  Without a context the constructor
    [new OscillatorNode({})] rejects its argument, and
    [this.audioContext.currentTime] could not be read either. *)
Definition playBeep (frequency : Z) (m : t) : outcome :=
  if audioContext m then beeped frequency (masterVolume m * sfxVolume m)%Q
  else thrown.

(** [playFallback(name)]: [frequencies[name] || 440]. *)
Definition playFallback (name : string) (m : t) : outcome :=
  playBeep (JS.orZ (frequencies !! name) 440) m.

(** [play(name)].  [createBufferSource] is called on the context, and
    [source.buffer] accepts only a buffer. *)
Definition play (name : string) (m : t) : outcome :=
  if negb (initialized m) then playFallback name m
  else
    match sounds m !! name with
    | None => silent
    | Some e =>
        if audioContext m then
          match e with
          | audioBuffer url => started url (masterVolume m * sfxVolume m)%Q
          | placeholder => thrown
          end
        else thrown
    end.

End SoundManager.

(** The [input] listeners of the two sliders and the [change] listener
    of the theme toggle, on the engine state and its sound manager;
    [value] is [e.target.value] as a number. *)
Inductive setting :=
| masterVolumeInput (value : Q)
| sfxVolumeInput (value : Q)
| themeToggleChange (checked : bool).

Definition applySetting (ws : world * SoundManager.t) (e : setting)
  : world * SoundManager.t :=
  let '(w, m) := ws in
  match e with
  | masterVolumeInput value =>
      let w := with_st (set_volume (value / 100)%Q (st w)) w in
      (w, SoundManager.setVolume (volume (st w)) m)
  | sfxVolumeInput value =>
      (with_st (set_sfxVolume (value / 100)%Q (st w)) w, m)
  | themeToggleChange checked =>
      (with_st (set_darkTheme (negb checked) (st w)) w, m)
  end.

End Engine.

(** ** The closure script *)

Module Closure.

(** The [state] object of the closure.  Its [inventory], [audioCtx],
    [resources] and [parkourInstance] fields are not read by the functions
    embedded here and are left out. *)
Record state := mkState {
  soundOn : bool;
  gameActive : bool;
  achievements : gset string;
  xp : Z;
  keys : gmap string bool
}.

Definition initialState : state :=
  {| soundOn := true; gameActive := false; achievements := ∅; xp := 60; keys := ∅ |}.

(** A toast [div] in [#toastWrap]; [tn_id] stands for the node's identity. *)
Record toastNode := mkToastNode {
  tn_id : nat;
  tn_title : string;
  tn_msg : string
}.

(** A pending [node.remove()]: the time it is due, its node, and whether
    it is the [onComplete] of a GSAP tween rather than a [setTimeout]
    callback. *)
Record removal := mkRemoval {
  due : Q;
  target : nat;
  byTween : bool
}.

(** Calls to the sinks: [SoundManager.play], the toast function chosen by
    [window.createToast || fallback], the two style writes that draw the
    player, the width of [#xpFill], and [log]. *)
Inductive effect :=
| sound (name : string)
| notified (title msg : string)
| drawn (left top : Z)
| xpFill (percent : Z)
| logged (msg : string).

Record world := mkWorld {
  st : state;
  createToastInstalled : bool;
  hasG : bool;
  toastWrap : option (list toastNode);
  nextNode : nat;
  removals : list removal;
  clock : Q;
  log : list effect
}.

Definition with_st (s : state) (w : world) : world :=
  mkWorld s (createToastInstalled w) (hasG w) (toastWrap w) (nextNode w)
          (removals w) (clock w) (log w).

Definition emit (e : effect) (w : world) : world :=
  mkWorld (st w) (createToastInstalled w) (hasG w) (toastWrap w) (nextNode w)
          (removals w) (clock w) (log w ++ [e]).

(** [wrap.prepend(node)] of a fresh node and the scheduling of its
    [remove()] after [delay] milliseconds, by a tween or by a timer. *)
Definition prependToast (title msg : string) (delay : Q) (tween : bool)
           (wrap : list toastNode) (w : world) : world :=
  let n := nextNode w in
  mkWorld (st w) (createToastInstalled w) (hasG w)
          (Some (mkToastNode n title msg :: wrap)) (S n)
          (removals w ++ [mkRemoval (clock w + delay)%Q n tween]) (clock w) (log w).

Definition SoundManager_play (name : string) (w : world) : world :=
  emit (sound name) w.

(** [window.createToast(title, msg, opts)] as [setupToastStack] defines
    it; [duration] is [opts.duration].  With GSAP the exit tween is given
    a delay of [(opts.duration || 4.2) / 1000] seconds and a length of
    [0.5] seconds, and its [onComplete] removes the node; without it the
    node is removed by a timer of [opts.duration || 4200] ms. *)
Definition createToast (title msg : string) (duration : option Q) (w : world) : world :=
  match toastWrap w with
  | None => w
  | Some wrap =>
      let delay := if hasG w
                   then (JS.orQ duration (42 # 10) / 1000 * 1000 + 500)%Q
                   else JS.orQ duration 4200%Q in
      SoundManager_play "achievement" (prependToast title msg delay (hasG w) wrap w)
  end.

(** The inline fallback of [awardAchievement] and [window.toast]. *)
Definition inlineToast (title msg : string) (w : world) : world :=
  match toastWrap w with
  | None => w
  | Some wrap => prependToast title msg 4200%Q false wrap w
  end.

(** [(window.createToast || ((t,m)=>{}))(title, msg, opts)]. *)
Definition toastOrNothing (title msg : string) (duration : option Q) (w : world) : world :=
  let w := emit (notified title msg) w in
  if createToastInstalled w then createToast title msg duration w else w.

(** [(window.createToast || inline)(title, msg, opts)]. *)
Definition toastOrInline (title msg : string) (duration : option Q) (w : world) : world :=
  let w := emit (notified title msg) w in
  if createToastInstalled w then createToast title msg duration w
  else inlineToast title msg w.

(** [awardAchievement(id, title, msg)]. *)
Definition awardAchievement (id title msg : string) (w : world) : world :=
  if bool_decide (id ∈ achievements (st w)) then w
  else
    let s := st w in
    let w := with_st (mkState (soundOn s) (gameActive s) (achievements s ∪ {[ id ]})
                              (xp s) (keys s)) w in
    let w := toastOrInline title msg (Some 4200%Q) w in
    let w := emit (logged "Achievement unlocked") w in
    SoundManager_play "achievement" w.

(** *** Parkour physics *)

Record platform := mkPlatform {
  pl_x : Q;
  pl_y : Q;
  pl_w : Q;
  pl_h : Q
}.

Record player := mkPlayer {
  x : Q;
  y : Q;
  vx : Q;
  vy : Q;
  w : Q;
  h : Q;
  onGround : bool;
  speed : Q;
  jumpStrength : Q
}.

(** The arena element as the script reads it. *)
Record arena := mkArena {
  clientWidth : Z;
  clientHeight : Z
}.

(** What one call of [setupParkour] owns: the player, the platform list,
    [last], [running], whether its [keyHandler] is registered on [window]
    and whether a [requestAnimationFrame(step)] is waiting to run. *)
Record instance := mkInstance {
  body : player;
  platforms : list platform;
  last : Q;
  running : bool;
  listening : bool;
  frameRequested : bool
}.

(** [v || d] on an integer. *)
Definition orDefault (v d : Z) : Z := if JS.truthyZ v then v else d.

(** The [platforms] array literal, for [h = arena.clientHeight || 320]. *)
Definition layout (h : Z) : list platform :=
  [ mkPlatform 10 (inject_Z (h - 28)) 120 20;
    mkPlatform 170 (inject_Z (h - 90)) 90 18;
    mkPlatform 300 (inject_Z (h - 140)) 140 20;
    mkPlatform 500 (inject_Z (h - 200)) 100 18;
    mkPlatform 660 (inject_Z (h - 260)) 80 18 ]%Q.

(** The [player] object literal. *)
Definition spawn (h : Z) : player :=
  mkPlayer 20 (inject_Z (h - 48)) 0 0 20 20 false (29 # 10) (72 # 10)%Q.

(** [setupParkour(arenaId)]: [None] when the arena element is missing;
    [now] is [performance.now()] at the call. *)
Definition setupParkour (a : option arena) (now : Q) : option instance :=
  match a with
  | None => None
  | Some ar =>
      let h := orDefault (clientHeight ar) 320 in
      Some (mkInstance (spawn h) (layout h) now true true true)
  end.

Definition set_x (v : Q) (p : player) : player :=
  mkPlayer v (y p) (vx p) (vy p) (w p) (h p) (onGround p) (speed p) (jumpStrength p).
Definition set_y (v : Q) (p : player) : player :=
  mkPlayer (x p) v (vx p) (vy p) (w p) (h p) (onGround p) (speed p) (jumpStrength p).
Definition set_vx (v : Q) (p : player) : player :=
  mkPlayer (x p) (y p) v (vy p) (w p) (h p) (onGround p) (speed p) (jumpStrength p).
Definition set_vy (v : Q) (p : player) : player :=
  mkPlayer (x p) (y p) (vx p) v (w p) (h p) (onGround p) (speed p) (jumpStrength p).
Definition set_onGround (b : bool) (p : player) : player :=
  mkPlayer (x p) (y p) (vx p) (vy p) (w p) (h p) b (speed p) (jumpStrength p).

(** [dt = Math.min(32, now - last) / 16.666]. *)
Definition dtOf (now last : Q) : Q := (Qmin 32 (now - last) / (16666 # 1000))%Q.

Definition left (ks : gmap string bool) : bool :=
  JS.held ks "a" || JS.held ks "arrowleft".
Definition right (ks : gmap string bool) : bool :=
  JS.held ks "d" || JS.held ks "arrowright".
Definition up (ks : gmap string bool) : bool :=
  JS.held ks "w" || JS.held ks "arrowup" || JS.held ks " ".

(** [if (left) vx = -speed; else if (right) vx = speed; else vx = 0]. *)
Definition steer (ks : gmap string bool) (p : player) : player :=
  if left ks then set_vx (- speed p)%Q p
  else if right ks then set_vx (speed p) p
  else set_vx 0%Q p.

(** [player.vy += 0.45 * dt]. *)
Definition pull (dt : Q) (p : player) : player :=
  set_vy (vy p + (45 # 100) * dt)%Q p.

(** [if (up && player.onGround) { .. }]. *)
Definition jump (ks : gmap string bool) (wp : world * player) : world * player :=
  let '(w, p) := wp in
  if up ks && onGround p
  then (SoundManager_play "click" w, set_onGround false (set_vy (- jumpStrength p)%Q p))
  else (w, p).

(** [player.x += player.vx * dt * 6; player.y += player.vy * dt]. *)
Definition move (dt : Q) (p : player) : player :=
  set_y (y p + vy p * dt)%Q (set_x (x p + vx p * dt * 6)%Q p).

(** The two nested tests of the collision loop. *)
Definition lands (p : player) (pl : platform) : bool :=
  let px1 := pl_x pl in
  let px2 := (pl_x pl + pl_w pl)%Q in
  let py := pl_y pl in
  let playerBottom := (y p + h p)%Q in
  (JS.ltb px1 (x p + w p)%Q && JS.ltb (x p) px2)
  && (JS.leb py playerBottom && JS.ltb playerBottom (py + 16)%Q && JS.leb 0%Q (vy p)).

(** The three assignments made when the tests pass. *)
Definition snap (p : player) (pl : platform) : player :=
  set_onGround true (set_vy 0%Q (set_y (pl_y pl - h p)%Q p)).

(** The body of [platforms.forEach]. *)
Definition collide (p : player) (pl : platform) : player :=
  if lands p pl then snap p pl else p.

(** [player.onGround = false; platforms.forEach(..)]. *)
Definition collisionPass (pls : list platform) (p : player) : player :=
  fold_left collide pls (set_onGround false p).

(** The two [if]s under "Arena bounds". *)
Definition arenaBounds (ar : arena) (p : player) : player :=
  let p := if JS.ltb (x p) 0%Q then set_x 0%Q p else p in
  if JS.ltb (inject_Z (clientWidth ar - 6)) (x p + w p)%Q
  then set_x (inject_Z (clientWidth ar) - w p - 6)%Q p
  else p.

(** [if (player.y > arena.clientHeight) { .. }]. *)
Definition fallReset (ar : arena) (wp : world * player) : world * player :=
  let '(w, p) := wp in
  if JS.ltb (inject_Z (clientHeight ar)) (y p) then
    let p := set_vy 0%Q (set_y (inject_Z (clientHeight ar) - 48)%Q (set_x 20%Q p)) in
    let w := toastOrNothing "Parkour" "You fell. Resetting run..." None w in
    (SoundManager_play "page" w, p)
  else (w, p).

(** The block under "Victory condition"; the boolean is [running]. *)
Definition victory (ar : arena) (p : player) (wr : world * bool) : world * bool :=
  let '(w, running) := wr in
  if JS.ltb (inject_Z (clientWidth ar - 120)) (x p) then
    let w := toastOrNothing "Parkour Complete" "You reached the end — +15 XP"
                            (Some 3600%Q) w in
    let w := SoundManager_play "xp" w in
    let s := st w in
    let w := with_st (mkState (soundOn s) (gameActive s) (achievements s)
                              (Z.min 100 (xp s + 15)) (keys s)) w in
    let w := emit (xpFill (xp (st w))) w in
    let w := awardAchievement "parkour-complete" "Parkour Master"
                              "Completed a parkour run." w in
    (w, false)
  else (w, running).

(** The first half of [step(now)]: input, gravity, jump, integration,
    collision detection and arena bounds. *)
Definition advance (ar : arena) (now : Q) (wi : world * instance) : world * player :=
  let '(w, i) := wi in
  let dt := dtOf now (last i) in
  let ks := keys (st w) in
  let p := pull dt (steer ks (body i)) in
  let '(w, p) := jump ks (w, p) in
  let p := move dt p in
  let p := collisionPass (platforms i) p in
  (w, arenaBounds ar p).

(** [step(now)]: one physics tick.  The last line of the source,
    [if (running) requestAnimationFrame(step)], is the final
    [frameRequested]. *)
Definition step (ar : arena) (now : Q) (wi : world * instance) : world * instance :=
  let i := snd wi in
  let '(w, p) := fallReset ar (advance ar now wi) in
  let w := emit (drawn (JS.round (x p)) (JS.round (y p))) w in
  let '(w, running') := victory ar p (w, running i) in
  (w, mkInstance p (platforms i) now running' (listening i) running').

(** [keyHandler(ev)]. *)
Definition keyHandler (down : bool) (key : string) (w : world) : world :=
  let s := st w in
  with_st (mkState (soundOn s) (gameActive s) (achievements s) (xp s)
                   (<[ JS.toLowerCase key := down ]> (keys s))) w.

(** [destroy()] of the returned handle. *)
Definition destroy (i : instance) : instance :=
  mkInstance (body i) (platforms i) (last i) false false (frameRequested i).

(** What the browser and the page can do to a running instance: deliver an
    animation frame, deliver a key event to [window], call [destroy()]. *)
Inductive event :=
| Frame (now : Q)
| KeyDown (key : string)
| KeyUp (key : string)
| Destroy.

Definition handle (ar : arena) (wi : world * instance) (e : event) : world * instance :=
  let '(w, i) := wi in
  match e with
  | Frame now => if frameRequested i then step ar now (w, i) else (w, i)
  | KeyDown k => if listening i then (keyHandler true k w, i) else (w, i)
  | KeyUp k => if listening i then (keyHandler false k w, i) else (w, i)
  | Destroy => (w, destroy i)
  end.

Definition run (ar : arena) (wi : world * instance) (es : list event) : world * instance :=
  fold_left (handle ar) es wi.

(** The number of ticks a log shows: every [step] draws the player once. *)
Definition isDrawn (e : effect) : bool :=
  match e with drawn _ _ => true | _ => false end.
Definition ticks (w : world) : nat := length (List.filter isDrawn (log w)).

(** The number of toasts with a given title a log shows. *)
Definition isNotified (title : string) (e : effect) : bool :=
  match e with notified t _ => String.eqb t title | _ => false end.
Definition notifications (title : string) (w : world) : nat :=
  length (List.filter (isNotified title) (log w)).

Definition isSound (name : string) (e : effect) : bool :=
  match e with sound n => String.eqb n name | _ => false end.
Definition sounds (name : string) (w : world) : nat :=
  length (List.filter (isSound name) (log w)).


(** *** The toast stack over time *)

(** [node.remove()]: the node leaves [#toastWrap]; nothing happens when
    it is not there. *)
Definition removeNode (n : nat) (w : world) : world :=
  mkWorld (st w) (createToastInstalled w) (hasG w)
          (option_map (List.filter (fun t => negb (Nat.eqb (tn_id t) n))) (toastWrap w))
          (nextNode w) (removals w) (clock w) (log w).

Definition with_removals (r : list removal) (w : world) : world :=
  mkWorld (st w) (createToastInstalled w) (hasG w) (toastWrap w) (nextNode w)
          r (clock w) (log w).

Definition with_clock (c : Q) (w : world) : world :=
  mkWorld (st w) (createToastInstalled w) (hasG w) (toastWrap w) (nextNode w)
          (removals w) c (log w).

(** Whether a pending [remove()] can run now.  A timer does not run
    before its delay has passed; a tween's [onComplete] is run by GSAP's
    ticker, which counts delay and length on its own clock and can be
    early on the page's. *)
Definition expirable (r : removal) (w : world) : bool :=
  byTween r || JS.leb (due r) (clock w).

(** What can happen to the toast stack: a call of [window.createToast],
    of [window.toast] or of [awardAchievement], a call through
    [window.createToast || ((t,m)=>{})], time passing, and a pending
    [remove()] running once it can. *)
Inductive toastEvent :=
| Create (title msg : string) (duration : option Q)
| Toast (title msg : string)
| Award (id title msg : string)
| Notify (title msg : string) (duration : option Q)
| Wait (d : Q)
| Expire (k : nat).

Definition toastHandle (w : world) (e : toastEvent) : option world :=
  match e with
  | Create t m d => Some (createToast t m d w)
  | Toast t m => Some (toastOrInline t m None w)
  | Award i t m => Some (awardAchievement i t m w)
  | Notify t m d => Some (toastOrNothing t m d w)
  | Wait d => if JS.leb 0%Q d then Some (with_clock (clock w + d)%Q w) else None
  | Expire k =>
      match nth_error (removals w) k with
      | Some r =>
          if expirable r w
          then Some (removeNode (target r)
                                (with_removals (Engine.remove_nth k (removals w)) w))
          else None
      | None => None
      end
  end.

Fixpoint toastRun (w : world) (es : list toastEvent) : option world :=
  match es with
  | [] => Some w
  | e :: r =>
      match toastHandle w e with
      | Some w' => toastRun w' r
      | None => None
      end
  end.

(** *** The block game of [setupBlockGame] *)

(** A block: its [data-fact], whether [dataset.broken] is set and whether
    it carries the class [revealed]. *)
Record block := mkBlock {
  fact : string;
  broken : bool;
  revealed : bool
}.

(** The container and the [click] handlers that wait in their
    [await new Promise(r => setTimeout(r, 260))], by block index. *)
Record board := mkBoard {
  blocks : list block;
  waiting : list nat
}.

(** [setupBlockGame(containerId)]; [facts] are the twelve facts drawn by
    [Math.random]. *)
Definition setupBlockGame (facts : list string) : board :=
  mkBoard (map (fun f => mkBlock f false false) facts) [].

(** The [click] handler of block [i], up to its [await]. *)
Definition clickBlock (i : nat) (wb : world * board) : world * board :=
  let '(w, b) := wb in
  match blocks b !! i with
  | None => (w, b)
  | Some bl =>
      if broken bl then (w, b)
      else (SoundManager_play "block" w,
            mkBoard (<[ i := mkBlock (fact bl) true (revealed bl) ]> (blocks b))
                    (waiting b ++ [i]))
  end.

(** The rest of the oldest waiting handler, after its [await]; the
    particles are left out. *)
Definition revealBlock (wb : world * board) : world * board :=
  let '(w, b) := wb in
  match waiting b with
  | [] => (w, b)
  | i :: r =>
      match blocks b !! i with
      | None => (w, mkBoard (blocks b) r)
      | Some bl =>
          let w := toastOrNothing "Fact" (fact bl) None w in
          let w := awardAchievement ("block-" +:+ pretty i) "Miner"
                                    "You broke a block and found a fact!" w in
          (w, mkBoard (<[ i := mkBlock (fact bl) (broken bl) true ]> (blocks b)) r)
      end
  end.

Inductive blockEvent :=
| Click (i : nat)
| Reveal.

Definition blockHandle (wb : world * board) (e : blockEvent) : world * board :=
  match e with
  | Click i => clickBlock i wb
  | Reveal => revealBlock wb
  end.

(** *** Restarting the course *)

(** The instances of one page: every instance made so far, newest first,
    each with the arena element its closure holds, and whether
    [state.parkourInstance] holds the newest of them. *)
Record course := mkCourse {
  made : list (arena * instance);
  current : bool
}.






(** *** The closure's sound manager *)

Module SoundManager.

(** The variables of the closure: whether [ctx] holds a context, the
    names that have a buffer, [inited] and [masterVol] (at first no
    context, no buffer, not initialised, and 0.12). *)
Record t := mk {
  ctx : bool;
  buffers : gset string;
  inited : bool;
  masterVol : Q
}.

(** The keys of [SOUND_FILES]. *)
Definition SOUND_FILES : list string :=
  ["click"; "block"; "xp"; "achievement"; "open"; "hover"; "pause"; "page"].

(** [init()], taken as one step; [available] is whether an audio context
    can be constructed, [ok name] whether the file of [name] loads. *)
Definition init (available : bool) (ok : string -> bool) (m : t) : t :=
  if inited m then m
  else if available
       then mk true (buffers m ∪ list_to_set (List.filter ok SOUND_FILES)) true (masterVol m)
       else m.

(** [play(name, opts)]; the result says whether [src.start(0)] is
    called, at once or when the initialisation it started has ended.
    [soundOn] is [state.soundOn]. *)
Definition play (available : bool) (ok : string -> bool) (soundOn : bool)
           (name : string) (m : t) : t * bool :=
  if negb (inited m) then
    let m' := init available ok m in
    (m', bool_decide (name ∈ buffers m') && ctx m')
  else if negb soundOn then (m, false)
  else (m, bool_decide (name ∈ buffers m) && ctx m).

(** [setVolume(v)]. *)
Definition setVolume (v : Q) (m : t) : t :=
  mk (ctx m) (buffers m) (inited m) (Qmax 0 (Qmin 1 v)).

End SoundManager.

End Closure.

(** * Vocabulary of the statements *)

(** ** Thresholds paid by level-ups *)

Module Carry.
Import Engine.

(** The thresholds paid by [k] level-ups that start at threshold [t]. *)
Fixpoint paid (k : nat) (t : Z) : Z :=
  match k with
  | O => 0
  | S k' => t + paid k' (JS.floor_times_1_5 t)
  end.

End Carry.

(** ** A reload after a save *)

Module Reload.
Import Engine.

(** A page reload after a save: the constructor's state, the storage as
    the save left it, then [load()] from [init()]. *)
Definition reload (w : world) : world :=
  load (with_localStorage (localStorage w) initialWorld).

(** The engine after the master and effects sliders were dragged to 0 and
    the light theme was chosen, as the three settings listeners leave it. *)
Definition muted : world :=
  with_st (mkState "title" "forest" 10 10 0 1 100 ∅ 0 0%Q 0%Q false) initialWorld.

End Reload.

(** ** What the toast log shows *)

Module ToastLog.
Import Engine.

(** The instants at which a toast element was appended to the container. *)
Definition appendTimes (l : list (Z * effect)) : list Z :=
  flat_map (fun te => match snd te with appended _ _ => [fst te] | _ => [] end) l.

(** The toasts that were appended, in the order they were. *)
Definition displayed (l : list (Z * effect)) : list (string * string) :=
  flat_map (fun te => match snd te with
                      | appended _ t => [(title t, description t)]
                      | _ => []
                      end) l.

(** The toasts still waiting, head first. *)
Definition queued (w : world) : list (string * string) :=
  map (fun t => (title t, description t)) (toastQueue w).

(** The toasts asked for by a sequence of events, in call order. *)
Definition requested (es : list event) : list (string * string) :=
  flat_map (fun e => match e with Show t d => [(t, d)] | _ => [] end) es.

(** From one toast's insertion to the earliest insertion of the next: its
    display and exit intervals.  The entrance tween comes on top of them,
    for as long as GSAP's ticker makes it last. *)
Definition CYCLE_MS : Z := DISPLAY_MS + EXIT_MS.

(** The node a closure holds, the class its node has while the closure is
    pending, and the delay the closure was armed with. *)
Definition target (c : callback) : nat :=
  match c with tweenComplete n | displayElapsed n | exitElapsed n => n end.

Definition classWhilePending (c : callback) : toastClass :=
  match c with exitElapsed _ => hiding | _ => showing end.

Definition delay (c : callback) : Z :=
  match c with
  | tweenComplete _ => ENTRANCE_MS
  | displayElapsed _ => DISPLAY_MS
  | exitElapsed _ => EXIT_MS
  end.

(** The earliest instant at which the element of a pending closure can
    leave the container.  While the entrance tween runs, the display and
    exit intervals are still to come, and the tween does not end before it
    was started. *)
Definition earliestRemoval (tm : timer) : Z :=
  match cb tm with
  | tweenComplete _ => due tm - ENTRANCE_MS + (DISPLAY_MS + EXIT_MS)
  | displayElapsed _ => due tm + EXIT_MS
  | exitElapsed _ => due tm
  end.

(** The log entry written when a pending closure was armed. *)
Definition armed (l : list (Z * effect)) (tm : timer) : Prop :=
  match cb tm with
  | tweenComplete n => exists t, (due tm - ENTRANCE_MS, appended n t) ∈ l
  | displayElapsed n => (due tm - DISPLAY_MS, shown n) ∈ l
  | exitElapsed n => (due tm - EXIT_MS, hidden n) ∈ l
  end.

(** Either nothing is shown, no closure is pending and every earlier
    toast went in at least a full cycle ago; or exactly one toast element
    is in the container, exactly one closure is pending, it is the closure
    of that element, and it was not armed in the future. *)
Definition quiet (w : world) : Prop :=
  isShowingToast w = false
  /\ toastContainer w = []
  /\ timers w = []
  /\ Forall (fun a => a + CYCLE_MS <= clock w) (appendTimes (log w)).

Definition busy (w : world) : Prop :=
  isShowingToast w = true
  /\ exists (t : toast) (tm : timer),
      toastContainer w = [mkToastElement (target (cb tm)) t (classWhilePending (cb tm))]
      /\ timers w = [tm]
      /\ armed (log w) tm
      /\ Forall (fun a => a + CYCLE_MS <= earliestRemoval tm) (appendTimes (log w))
      /\ due tm - delay (cb tm) <= clock w.

Record Inv (w : world) : Prop := mkInv {
  inv_phase : quiet w \/ busy w;
  inv_spaced : StronglySorted (fun a b => a + CYCLE_MS <= b) (appendTimes (log w));
  inv_shown : forall t1 n, (t1, shown n) ∈ log w ->
              exists ta t, (ta, appended n t) ∈ log w /\ ta <= t1;
  inv_hidden : forall t2 n, (t2, hidden n) ∈ log w ->
               exists t1, (t1, shown n) ∈ log w /\ t1 + DISPLAY_MS <= t2;
  inv_removed : forall t3 n, (t3, removed n) ∈ log w ->
                exists t2, (t2, hidden n) ∈ log w /\ t2 + EXIT_MS <= t3
}.

(** The instants at which a toast's entrance tween completed: the toast is
    then fully opaque. *)
Definition shownTimes (l : list (Z * effect)) : list Z :=
  flat_map (fun te => match snd te with shown _ => [fst te] | _ => [] end) l.

(** The earliest instant at which the next toast can be appended, as far
    as the toasts fully shown before are concerned, counted from the due
    time of the pending closure: while an element is still entering, the
    instant it was appended. *)
Definition slack (c : callback) : Z :=
  match c with
  | tweenComplete _ => - ENTRANCE_MS
  | displayElapsed _ => EXIT_MS
  | exitElapsed _ => 0
  end.

Definition nextAppend (w : world) : Z :=
  match timers w with
  | [] => clock w
  | tm :: _ => due tm + slack (cb tm)
  end.

(** Every toast that was fully shown leaves a display and an exit interval
    before the next toast can be appended, and the instants of full display
    are a whole cycle apart. *)
Definition ShownInv (w : world) : Prop :=
  Forall (fun s => s + (DISPLAY_MS + EXIT_MS) <= nextAppend w) (shownTimes (log w))
  /\ StronglySorted (fun a b => a + CYCLE_MS <= b) (shownTimes (log w)).

(** The toasts of [#toastWrap], all of them on screen. *)
Definition stacked (w : Closure.world) : list Closure.toastNode :=
  match Closure.toastWrap w with
  | Some wrap => wrap
  | None => []
  end.

(** The page once [setupToastStack] has found [#toastWrap] and installed
    [window.createToast]; no GSAP. *)
Definition page : Closure.world :=
  Closure.mkWorld Closure.initialState true false (Some []) 0%nat [] 0%Q [].

(** Three toasts asked for in one burst, and the world after it: the
    first is on screen, the other two wait in order. *)
Definition burst : list event :=
  [Show "Level Up!" "Reached level 2"; Show "Welcome!" "hello";
   Show "Block Broken!" "fact"].

Definition afterBurst : world :=
  Eval vm_compute in
    match run initialWorld burst with
    | Some w => w
    | None => initialWorld
    end.

(** One full cycle of a toast, then the next one: the events are the
    insertion of the first toast, the end of its entrance tween 493 ms
    later, its display and its exit, with a second toast asked for
    meanwhile. *)
Definition twoToasts : list event :=
  [Show "Welcome!" "first"; Show "Level Up!" "second";
   Elapse 493; Fire 0; Elapse 3001; Fire 0; Elapse 500; Fire 0].

Definition afterTwoToasts : world :=
  Eval vm_compute in
    match run initialWorld twoToasts with
    | Some w => w
    | None => initialWorld
    end.

End ToastLog.

(** ** What a tick does, and sample runs *)

Module Tick.
Import Closure.

(** The condition in the words of the rule: the horizontal extents
    overlap, the bottom edge lies in the 16-pixel band under the platform's
    top, and the body is not moving upward. *)
Definition landsOn (p : player) (pl : platform) : Prop :=
  ((pl_x pl < x p + w p) /\ (x p < pl_x pl + pl_w pl)
   /\ (pl_y pl <= y p + h p) /\ (y p + h p < pl_y pl + 16)
   /\ (0 <= vy p))%Q.

(** The engine's rule, in words: the 30 by 50 box of the player and the
    box of height 40 over the platform overlap. *)
Definition boxesOverlap (p : Engine.parkour) (pl : Engine.platform) : Prop :=
  ((inject_Z (Engine.platX pl) < Engine.playerX p + 30)
   /\ (Engine.playerX p < inject_Z (Engine.platX pl + Engine.platWidth pl))
   /\ (inject_Z (Engine.platY pl) < Engine.playerY p + 50)
   /\ (Engine.playerY p < inject_Z (Engine.platY pl + 40)))%Q.

(** A player of the engine's game on its way up after a jump, inside the
    box of a platform that is not the last one. *)
Definition rising : Engine.parkour :=
  Engine.mkParkour 70%Q 80%Q true (- 5)%Q false ∅ false.

Definition ledge : Engine.platform := Engine.mkPlatform 50 100 100 false.

Definition count (f : effect -> bool) (w : world) : nat :=
  length (List.filter f (log w)).

(** Whether the tick starts a jump, whether its fall check fires on a
    body, whether its victory check does. *)
Definition jumps (w : world) (i : instance) : bool :=
  up (keys (st w)) && onGround (body i).

Definition fell (ar : arena) (p : player) : bool :=
  JS.ltb (inject_Z (clientHeight ar)) (y p).

Definition won (ar : arena) (p : player) : bool :=
  JS.ltb (inject_Z (clientWidth ar - 120)) (x p).

(** The world the victory block leaves, when it runs. *)
Definition celebrate (w : world) : world :=
  let w := toastOrNothing "Parkour Complete" "You reached the end — +15 XP"
                          (Some 3600%Q) w in
  let w := SoundManager_play "xp" w in
  let s := st w in
  let w := with_st (mkState (soundOn s) (gameActive s) (achievements s)
                            (Z.min 100 (xp s + 15)) (keys s)) w in
  let w := emit (xpFill (xp (st w))) w in
  awardAchievement "parkour-complete" "Parkour Master" "Completed a parkour run." w.

(** The arena at its default size, the page with the toast stack
    installed, and an instance as [setupParkour] returns it at time 0. *)
Definition arena700 : arena := mkArena 700 320.

Definition site : world :=
  mkWorld initialState true false (Some []) 0%nat [] 0%Q [].

Definition started : instance :=
  mkInstance (spawn 320) (layout 320) 0%Q true true true.

(** [n] animation frames, 16 ms apart. *)
Definition frames (n : nat) : list event :=
  map (fun k => Frame (inject_Z (16 * Z.of_nat k))) (seq 1 n).

(** Holding [d] from the start: the body walks off the first platform and
    is below the arena when the fall check of the 21st frame runs. *)
Definition walkingOff : world * instance :=
  run arena700 (site, started) (KeyDown "d" :: frames 20).

(** A body below the arena while [d] is held. *)
Definition tumbling : instance :=
  mkInstance (mkPlayer 354 330 (29 # 10) 5 20 20 false (29 # 10) (72 # 10))
             (layout 320) 320%Q true true true.

Definition holdingD : world := keyHandler true "d" site.

(** A body on the fourth platform, one tick before the threshold, with
    [d] held and 85 XP. *)
Definition finishing : instance :=
  mkInstance (mkPlayer 570 100 0 0 20 20 true (29 # 10) (72 # 10))
             (layout 320) 320%Q true true true.

Definition almostThere : world :=
  with_st (mkState true true ∅ 85 (<[ "d" := true ]> ∅)) site.

(** No key of the game is held. *)
Definition idle (ks : gmap string bool) : Prop :=
  left ks = false /\ right ks = false /\ up ks = false.

(** A frame that finds the body resting on the first platform with the
    space bar held. *)
Definition landed : world * instance :=
  run arena700 (site, started) [Frame 16%Q; KeyDown " "].

(** The body as the first frame leaves it: on the first platform. *)
Definition resting : instance :=
  mkInstance (mkPlayer 20 272 0 0 20 20 true (29 # 10) (72 # 10))
             (layout 320) 16%Q true true true.

Definition firstPlatform : platform := mkPlatform 10 (inject_Z (320 - 28)) 120 20.

End Tick.

(** ** Levels and what they cost *)

Module Ledger.
Import Engine.
Import Carry.

(** The threshold of level [l] in a game whose thresholds started at 100
    on level 1. *)
Definition threshold (l : Z) : Z :=
  Nat.iter (Z.to_nat (l - 1)) JS.floor_times_1_5 100.

(** All the XP a game has gained: the XP in hand plus the thresholds paid
    for the levels reached. *)
Definition earned (s : state) : Z := xp s + paid (Z.to_nat (level s - 1)) 100.

(** Level and threshold are in step, and the XP in hand is below the
    threshold: the state between two calls of [addXP] in a game that
    started from the constructor. *)
Definition inStep (s : state) : Prop :=
  1 <= level s /\ xpToNext s = threshold (level s) /\ 0 <= xp s < xpToNext s.

(** The fields of the state that are not progress, and the parts of the
    world that are neither the state, the toast queue nor the log. *)
Definition settings (s : state) :=
  (currentScreen s, currentBiome s, health s, maxHealth s,
   unlockedAchievements s, hotbarIndex s, volume s, sfxVolume s, darkTheme s).

Definition surroundings (w : world) :=
  (hotbarSlots w, activeBiome w, clock w, localStorage w, storageWritable w).

(** The toasts that announce the levels [l + 1], .., [l + k]. *)
Definition levelToasts (l : Z) (k : nat) : list (string * string) :=
  map (fun j => ("Level Up!", "Reached level " +:+ pretty (l + Z.of_nat j))) (seq 1 k).

(** Every toast asked for so far, shown or waiting, in order. *)
Definition toasts (w : world) : list (string * string) :=
  ToastLog.displayed (log w) ++ ToastLog.queued w.

(** Several calls of [addXP] in a row. *)
Fixpoint addXPs (fuel : nat) (amounts : list Z) (w : world) : option world :=
  match amounts with
  | [] => Some w
  | a :: r =>
      match addXP fuel a w with
      | Some w' => addXPs fuel r w'
      | None => None
      end
  end.

Definition total (amounts : list Z) : Z := fold_right Z.add 0 amounts.

(** A broken block, an achievement and a large gain. *)
Definition gains : list Z := [10; 25; 250].

End Ledger.

(** ** Hotbar navigation *)

Module Slots.
Import Engine.

(** The slot the wheel moves to from slot [i]: one further for a positive
    [deltaY], one back otherwise, around the nine slots. *)
Definition wheelTarget (deltaY : Q) (i : Z) : Z :=
  (i + (if JS.ltb 0%Q deltaY then 1 else -1)) mod 9.

(** The world [switchHotbar(index)] leaves when it returns. *)
Definition selected (index : Z) (w : world) : world :=
  emit (played "hover")
       (with_st (set_hotbarIndex index (st w))
                (with_hotbarSlots (imap (fun i _ => Z.of_nat i =? index) (hotbarSlots w)) w)).

(** The engine in the game screen, as [switchScreen('game')] leaves the
    constructor's state, with slot 7 selected. *)
Definition inGame : world :=
  with_st (set_hotbarIndex 6 (set_currentScreen "game" initialState)) initialWorld.

(** A saved game on level 2. *)
Definition levelTwo : world :=
  with_st (set_progress 40 2 150 initialState) initialWorld.

End Slots.

(** ** Reading the hearts row *)

Module Hearts.
Import Engine.

(** The health a row of hearts shows: two for a full heart, one for a
    half. *)
Definition worth (h : heart) : Z :=
  match h with
  | heartFull => 2
  | heartHalf => 1
  | heartEmpty => 0
  end.

Definition shownHealth (l : list heart) : Z := fold_right (fun h a => worth h + a) 0 l.

(** A player hurt to seven of ten. *)
Definition hurt : state :=
  mkState "game" "forest" 7 10 0 1 100 ∅ 0 (5 # 10)%Q (7 # 10)%Q true.

End Hearts.

(** ** The crafting grid *)

Module Grid.

(** Whether a string holds the [+] that separates the joined items. *)
Fixpoint hasPlus (s : string) : bool :=
  match s with
  | EmptyString => false
  | String c r => Ascii.eqb c "+" || hasPlus r
  end.

End Grid.

(** ** Loading the sound table *)

Module Audio.
Import Engine.

(** The [for] loop of [SoundManager.init] over a list of files. *)
Definition loadAll (ok : string -> bool) (l : list (string * string))
           (m : SoundManager.t) : SoundManager.t :=
  fold_left (fun m nu => SoundManager.loadSound (ok (fst nu)) (fst nu) (snd nu) m) l m.

(** The value the master slider, the effects slider and the theme toggle
    were last given by a series of settings events, if they were given
    one. *)
Fixpoint lastMaster (es : list setting) : option Q :=
  match es with
  | [] => None
  | e :: r =>
      match lastMaster r, e with
      | Some v, _ => Some v
      | None, masterVolumeInput v => Some v
      | None, _ => None
      end
  end.

Fixpoint lastSfx (es : list setting) : option Q :=
  match es with
  | [] => None
  | e :: r =>
      match lastSfx r, e with
      | Some v, _ => Some v
      | None, sfxVolumeInput v => Some v
      | None, _ => None
      end
  end.

Fixpoint lastTheme (es : list setting) : option bool :=
  match es with
  | [] => None
  | e :: r =>
      match lastTheme r, e with
      | Some c, _ => Some c
      | None, themeToggleChange c => Some c
      | None, _ => None
      end
  end.

(** A series of settings events without the moves of the effects
    slider. *)
Definition isSfx (e : setting) : bool :=
  match e with sfxVolumeInput _ => true | _ => false end.

Definition withoutSfx (es : list setting) : list setting :=
  List.filter (fun e => negb (isSfx e)) es.

(** The fields of the engine state that no settings event writes. *)
Definition game (s : state) :=
  (currentScreen s, currentBiome s, health s, maxHealth s, xp s, level s,
   xpToNext s, unlockedAchievements s, hotbarIndex s).

End Audio.

(** ** What is left to show *)

Module Backlog.
Import Engine.

(** Nothing waits while nothing is shown. *)
Definition Drained (w : world) : Prop :=
  isShowingToast w = false -> toastQueue w = [].

(** The callbacks a toast element still has to run when its pending
    closure is [c]. *)
Definition rank (c : callback) : nat :=
  match c with
  | tweenComplete _ => 3
  | displayElapsed _ => 2
  | exitElapsed _ => 1
  end.

(** The callbacks still to run before the container is empty and the
    queue with it: three for every waiting toast, and those of the
    element on screen. *)
Definition backlog (w : world) : nat :=
  match timers w with
  | [] => 0
  | tm :: _ => 3 * length (toastQueue w) + rank (cb tm)
  end.

(** Waiting until the first pending closure is due, then running it. *)
Definition tick (w : world) : list event :=
  match timers w with
  | [] => []
  | tm :: _ => [Elapse (Z.max 0 (due tm - clock w)); Fire 0]
  end.

End Backlog.

(** ** The engine's course *)

Module CourseSamples.
Import Engine.

(** The platforms of a course: a ledge and the end platform. *)
Definition course : list platform :=
  [mkPlatform 50 100 100 false; mkPlatform 300 60 80 true].

(** A player falling beside the ledge with [d] held. *)
Definition falling : parkour :=
  mkParkour 469%Q 149%Q true 3%Q false (<[ "d" := true ]> ∅) false.

End CourseSamples.

(** ** The toast stack and its pending removals *)

Module StackView.
Import Closure.

(** The nodes on screen, newest first, and the nodes that have a
    [remove()] pending, oldest first. *)
Definition visible (w : world) : list nat := map tn_id (ToastLog.stacked w).

Definition pending (w : world) : list nat := map target (removals w).

(** Every toast on screen has exactly one pending removal, and every
    pending removal is for a toast on screen. *)
Definition Tidy (w : world) : Prop :=
  visible w = rev (pending w)
  /\ List.NoDup (pending w)
  /\ Forall (fun n => (n < nextNode w)%nat) (pending w).

(** Two toasts created one after the other, the first one expiring after
    its 4200 ms. *)
Definition twoCreated : list toastEvent :=
  [Create "Fact" "first" None; Wait 100; Create "Fact" "second" None;
   Wait 4100; Expire 0].

End StackView.

(** ** Inside the arena *)

Module Field.
Import Closure.

(** A body between the left edge and the right margin of the arena, and
    not below its floor. *)
Definition inside (ar : arena) (p : player) : Prop :=
  (0 <= x p /\ x p + w p <= inject_Z (clientWidth ar - 6)
   /\ y p <= inject_Z (clientHeight ar))%Q.


(** What a run can do to the score: nothing, or one victory. *)
Definition unchanged (v v' : world) : Prop :=
  xp (st v') = xp (st v) /\ achievements (st v') = achievements (st v).

Definition rewarded (v v' : world) : Prop :=
  xp (st v') = Z.min 100 (xp (st v) + 15)
  /\ achievements (st v') = achievements (st v) ∪ {[ "parkour-complete" ]}.

(** A few frames, a jump and a walk to the right. *)
Definition stroll : list event :=
  [Frame 16%Q; KeyDown " "; Frame 32%Q; KeyUp " "; KeyDown "D"; Frame 48%Q; Frame 64%Q].






End Field.

(** ** Counting broken blocks *)

Module BlockCount.
Import Closure.

Definition brokenCount (b : board) : nat := length (List.filter broken (blocks b)).

(** The waiting handlers all belong to blocks of the board. *)
Definition onBoard (b : board) : Prop :=
  Forall (fun i => (i < length (blocks b))%nat) (waiting b).

Definition blockRun (wb : world * board) (es : list blockEvent) : world * board :=
  fold_left blockHandle es wb.

End BlockCount.

(** * Properties *)

(** ** Progression: [addXP] *)

Module Progression.
Import Engine.
Import Carry.

Lemma floor_times_1_5_div (t : Z) : JS.floor_times_1_5 t = (3 * t) / 2.
Proof.
  unfold JS.floor_times_1_5, Qfloor, Qmult, inject_Z. simpl.
  replace (t * 15) with ((3 * t) * 5) by lia.
  change (Z.pos (1 * 10)) with (2 * 5).
  apply Z.div_mul_cancel_r; lia.
Qed.

Lemma floor_times_1_5_grows (t : Z) : 0 < t -> t <= JS.floor_times_1_5 t.
Proof.
  intros Ht. rewrite floor_times_1_5_div.
  apply Z.div_le_lower_bound; lia.
Qed.

Lemma st_processToastQueue (w : world) : st (processToastQueue w) = st w.
Proof.
  unfold processToastQueue.
  destruct (isShowingToast w); [reflexivity|].
  destruct (toastQueue w); reflexivity.
Qed.

Lemma st_showToast (t d : string) (w : world) : st (showToast t d w) = st w.
Proof. unfold showToast. now rewrite st_processToastQueue. Qed.

(** One pass of the loop body on the three progression fields. *)
Lemma levelUp_fields (w : world) :
  xp (st (levelUp w)) = xp (st w) - xpToNext (st w)
  /\ level (st (levelUp w)) = level (st w) + 1
  /\ xpToNext (st (levelUp w)) = JS.floor_times_1_5 (xpToNext (st w)).
Proof.
  unfold levelUp. cbn [emit st]. rewrite st_showToast. simpl. auto.
Qed.

Lemma levelUpLoop_ends (fuel : nat) :
  forall w : world,
    0 <= xp (st w) -> 0 < xpToNext (st w) ->
    (Z.to_nat (xp (st w)) <= fuel)%nat ->
    exists (k : nat) (w' : world),
      levelUpLoop fuel w = Some w'
      /\ 0 <= xp (st w') < xpToNext (st w')
      /\ level (st w') = level (st w) + Z.of_nat k
      /\ xpToNext (st w') = Nat.iter k JS.floor_times_1_5 (xpToNext (st w))
      /\ xp (st w') + paid k (xpToNext (st w)) = xp (st w).
Proof.
  induction fuel as [|fuel IH]; intros w Hxp Hnext Hfuel.
  - exists O, w. simpl.
    destruct (Z.leb_spec (xpToNext (st w)) (xp (st w))); [lia|].
    repeat split; lia.
  - simpl. destruct (Z.leb_spec (xpToNext (st w)) (xp (st w))) as [Hge|Hlt].
    + destruct (levelUp_fields w) as (Ex & El & En).
      pose proof (floor_times_1_5_grows _ Hnext) as Hg.
      destruct (IH (levelUp w)) as (k & w' & Hrun & Hb & Hl & Hn & Hc);
        [rewrite Ex; lia | rewrite En; lia | rewrite Ex; lia |].
      rewrite Ex, ?El, ?En in *.
      exists (S k), w'. rewrite Nat.iter_succ_r. simpl paid.
      repeat split; try assumption; lia.
    + exists O, w. simpl. repeat split; lia.
Qed.

(** C10.  For a non-negative amount, on a progression state with
    non-negative [xp] and a positive threshold, [addXP] returns (any fuel
    of at least [xp + amount] passes is enough) and leaves
    [0 <= xp < xpToNext].  Every pass of its loop adds exactly one level,
    takes the old threshold off [xp] and replaces the threshold by
    [floor(1.5 * old)]; after [k] passes the level has grown by [k], the
    threshold is the [k]-th iterate of that map, and [xp] plus the [k]
    thresholds paid equals the old [xp] plus the amount: no XP is lost or
    created by levelling up. *)
Theorem addXP_carries (w : world) (amount : Z) (fuel : nat) :
  0 <= amount ->
  0 <= xp (st w) ->
  0 < xpToNext (st w) ->
  (Z.to_nat (xp (st w) + amount) <= fuel)%nat ->
  (forall v : world,
      xp (st (levelUp v)) = xp (st v) - xpToNext (st v)
      /\ level (st (levelUp v)) = level (st v) + 1
      /\ xpToNext (st (levelUp v)) = (3 * xpToNext (st v)) / 2)
  /\ exists (k : nat) (w' : world),
      addXP fuel amount w = Some w'
      /\ 0 <= xp (st w') < xpToNext (st w')
      /\ level (st w') = level (st w) + Z.of_nat k
      /\ xpToNext (st w') = Nat.iter k (fun t => (3 * t) / 2) (xpToNext (st w))
      /\ xp (st w') + paid k (xpToNext (st w)) = xp (st w) + amount.
Proof.
  intros Hamount Hxp Hnext Hfuel. split.
  - intros v. destruct (levelUp_fields v) as (Ex & El & En).
    rewrite floor_times_1_5_div in En. auto.
  - unfold addXP.
    set (w1 := with_st (set_progress (xp (st w) + amount) (level (st w))
                                     (xpToNext (st w)) (st w)) w).
    destruct (levelUpLoop_ends fuel w1) as (k & w' & Hrun & Hb & Hl & Hn & Hc);
      try (subst w1; simpl; lia).
    exists k, (emit hudUpdated w'). rewrite Hrun. subst w1. simpl in *.
    repeat split; try lia.
    rewrite Hn. clear. generalize (xpToNext (st w)) as t.
    induction k as [|k IH]; intros t; [reflexivity|].
    simpl. rewrite IH. apply floor_times_1_5_div.
Qed.

(** From the constructor's state, 250 XP carry two levels: 100 and 150 are
    paid, level 3 is reached with 0 XP towards a threshold of 225. *)
Lemma addXP_carries_witness :
  (0 <= 250
   /\ 0 <= xp (st initialWorld)
   /\ 0 < xpToNext (st initialWorld)
   /\ (Z.to_nat (xp (st initialWorld) + 250) <= 250)%nat)
  /\ ((forall v : world,
          xp (st (levelUp v)) = xp (st v) - xpToNext (st v)
          /\ level (st (levelUp v)) = level (st v) + 1
          /\ xpToNext (st (levelUp v)) = (3 * xpToNext (st v)) / 2)
      /\ exists (k : nat) (w' : world),
          addXP 250 250 initialWorld = Some w'
          /\ 0 <= xp (st w') < xpToNext (st w')
          /\ level (st w') = level (st initialWorld) + Z.of_nat k
          /\ xpToNext (st w')
             = Nat.iter k (fun t => (3 * t) / 2) (xpToNext (st initialWorld))
          /\ xp (st w') + paid k (xpToNext (st initialWorld))
             = xp (st initialWorld) + 250).
Proof.
  split.
  - simpl. lia.
  - apply (addXP_carries initialWorld 250 250); simpl; lia.
Defined.

(** The engine's own parkour game ends through [completeParkour], which
    adds 50 XP with [addXP] and 25 more with [unlockAchievement]: from 85 XP
    the player reaches level 2 with 60 XP, nothing is capped at 100. *)
Example completeParkour_carries :
  option_map (fun wp => (xp (st (fst wp)), level (st (fst wp)), parkourCompleted (snd wp)))
             (completeParkour 10 (with_st (set_progress 85 1 100 initialState) initialWorld,
                                  initialParkour))
  = Some (60, 2, true).
Proof. vm_compute. reflexivity. Qed.

End Progression.

(** ** Hotbar: [switchHotbar] *)

Module Hotbar.
Import Engine.

(** C9.  For an index below 0 or above 8, [switchHotbar] returns at its
    first line: the call ends normally (the call stack is not exhausted,
    nothing is thrown) and the whole world, with [hotbarIndex], the current
    biome, the DOM and the log of sounds, is the one it was called in. *)
Theorem switchHotbar_out_of_range (fuel : nat) (index : Z) (w : world) :
  index < 0 \/ 8 < index ->
  switchHotbar (S fuel) index w = Some w.
Proof.
  intros Hout. simpl.
  destruct (Z.ltb_spec index 0); [reflexivity|].
  destruct (Z.ltb_spec 8 index); [reflexivity|]. lia.
Qed.

(** [switchBiome] of a name that is not a biome looks the name up with
    [indexOf] and calls [switchHotbar(-1)]. *)
Lemma switchHotbar_out_of_range_witness :
  (-1 < 0 \/ 8 < -1)
  /\ switchHotbar 1 (-1) initialWorld = Some initialWorld.
Proof.
  split.
  - left. lia.
  - apply (switchHotbar_out_of_range 0 (-1) initialWorld). left. lia.
Defined.

(** In range the guard is passed: slot 6 becomes the active one. *)
Example switchHotbar_in_range :
  option_map (fun w => hotbarIndex (st w)) (switchHotbar 1 6 initialWorld) = Some 6.
Proof. reflexivity. Qed.

(** In the game screen a biome slot never gets that far: [switchHotbar(i)]
    calls [switchBiome(biomes[i])], which calls [switchHotbar(i)] again, and
    so on until the call stack is exhausted, whatever its depth. *)
Lemma switchHotbar_biome_slot_in_game (fuel : nat) :
  forall (index : Z) (w : world),
    currentScreen (st w) = "game" ->
    0 <= index < 5 ->
    switchHotbar fuel index w = None.
Proof.
  induction fuel as [|fuel IH]; intros index w Hs Hi; [reflexivity|].
  assert (index = 0 \/ index = 1 \/ index = 2 \/ index = 3 \/ index = 4)
    as [E|[E|[E|[E|E]]]] by lia;
    subst index; cbn [switchHotbar];
    match goal with
    | |- context [(?a <? 0) || (8 <? ?a)] =>
        change ((a <? 0) || (8 <? a)) with false
    end;
    match goal with
    | |- context [?a <? Z.of_nat (length biomes)] =>
        change (a <? Z.of_nat (length biomes)) with true
    end;
    match goal with
    | |- context [JS.at_index biomes ?a] =>
        let b := eval vm_compute in (JS.at_index biomes a) in
        change (JS.at_index biomes a) with b
    end;
    unfold switchBiome_with;
    cbn [st with_st set_hotbarIndex currentScreen with_hotbarSlots];
    rewrite Hs; cbn [String.eqb Ascii.eqb Bool.eqb negb];
    match goal with
    | |- context [JS.indexOf biomes ?b] =>
        let k := eval vm_compute in (JS.indexOf biomes b) in
        change (JS.indexOf biomes b) with k
    end;
    (rewrite IH; [reflexivity | exact Hs | lia]).
Qed.

End Hotbar.

(** ** Save data: [SaveManager.save] and [SaveManager.load] *)

Module Saving.
Import Engine.
Import Reload.

Lemma orQ_nonzero (v d : Q) : ~ (v == 0)%Q -> JS.orQ (Some v) d = v.
Proof.
  intros Hv. unfold JS.orQ, JS.truthyQ.
  destruct (Qeq_bool v 0) eqn:E; [|reflexivity].
  apply Qeq_bool_iff in E. contradiction.
Qed.

Lemma orZ_nonzero (v d : Z) : v <> 0 -> JS.orZ (Some v) d = v.
Proof.
  intros Hv. unfold JS.orZ, JS.truthyZ.
  destruct (Z.eqb_spec v 0); [contradiction|reflexivity].
Qed.

(** What does survive a save and a reload: [xp] whatever it is (the
    default for a zero is zero), the achievement set whatever it is (an
    empty array is truthy), the theme whatever it is ([load] tests it
    against [undefined]), and [level], [volume], [sfxVolume] when they are
    not zero. *)
Lemma save_reload_kept (w : world) :
  storageWritable w = true ->
  let w' := reload (save w) in
  xp (st w') = xp (st w)
  /\ unlockedAchievements (st w') = unlockedAchievements (st w)
  /\ darkTheme (st w') = darkTheme (st w)
  /\ (level (st w) <> 0 -> level (st w') = level (st w))
  /\ (~ (volume (st w) == 0)%Q -> volume (st w') = volume (st w))
  /\ (~ (sfxVolume (st w) == 0)%Q -> sfxVolume (st w') = sfxVolume (st w)).
Proof.
  intros Hw. unfold reload, save, load. rewrite Hw. simpl.
  repeat split.
  - unfold JS.truthyZ. destruct (Z.eqb_spec (xp (st w)) 0); simpl; congruence.
  - apply list_to_set_elements_L.
  - intros H. now apply orZ_nonzero.
  - intros H. now apply orQ_nonzero.
  - intros H. now apply orQ_nonzero.
Qed.

(** C3, at the failing input.  Saving the muted engine and reloading gives
    master volume 0.5 and effects volume 0.7 instead of the saved zeros:
    [load] reads both with [|| default], which takes a stored 0 for a
    missing value.  The theme of the same record, read with
    [!== undefined], comes back as saved ([false]), and so do the zero
    [xp] and the empty achievement set. *)
Theorem save_reload_muted :
  let w' := reload (save muted) in
  volume (st muted) = 0%Q /\ volume (st w') = (5 # 10)%Q
  /\ sfxVolume (st muted) = 0%Q /\ sfxVolume (st w') = (7 # 10)%Q
  /\ ~ (volume (st w') == volume (st muted))%Q
  /\ ~ (sfxVolume (st w') == sfxVolume (st muted))%Q
  /\ darkTheme (st w') = darkTheme (st muted)
  /\ xp (st w') = xp (st muted)
  /\ unlockedAchievements (st w') = unlockedAchievements (st muted).
Proof.
  simpl. repeat split; try reflexivity; intros H; discriminate H.
Qed.

End Saving.

(** ** The toast queue of [UIManager] *)

Module Toasts.
Import Engine.
Import ToastLog.

(** *** The invariant *)

Lemma appendTimes_app (l1 l2 : list (Z * effect)) :
  appendTimes (l1 ++ l2) = appendTimes l1 ++ appendTimes l2.
Proof. apply flat_map_app. Qed.

Lemma displayed_app (l1 l2 : list (Z * effect)) :
  displayed (l1 ++ l2) = displayed l1 ++ displayed l2.
Proof. apply flat_map_app. Qed.

Lemma requested_app (e1 e2 : list event) :
  requested (e1 ++ e2) = requested e1 ++ requested e2.
Proof. apply flat_map_app. Qed.

Lemma Inv_initial : Inv initialWorld.
Proof.
  constructor; simpl.
  - left. repeat split. constructor.
  - constructor.
  - intros ? ? H. inversion H.
  - intros ? ? H. inversion H.
  - intros ? ? H. inversion H.
Qed.

(** The three log clauses survive an entry that is not a [shown],
    [hidden] or [removed] one, and in general survive when the new entry
    has its justification. *)
Lemma log_clauses_extend (l : list (Z * effect)) (c : Z) (e : effect) :
  (forall t1 n, (t1, shown n) ∈ l ->
                exists ta t, (ta, appended n t) ∈ l /\ ta <= t1) ->
  (forall t2 n, (t2, hidden n) ∈ l ->
                exists t1, (t1, shown n) ∈ l /\ t1 + DISPLAY_MS <= t2) ->
  (forall t3 n, (t3, removed n) ∈ l ->
                exists t2, (t2, hidden n) ∈ l /\ t2 + EXIT_MS <= t3) ->
  (forall n, e = shown n ->
             exists ta t, (ta, appended n t) ∈ l /\ ta <= c) ->
  (forall n, e = hidden n -> exists t1, (t1, shown n) ∈ l /\ t1 + DISPLAY_MS <= c) ->
  (forall n, e = removed n -> exists t2, (t2, hidden n) ∈ l /\ t2 + EXIT_MS <= c) ->
  (forall t1 n, (t1, shown n) ∈ l ++ [(c, e)] ->
                exists ta t, (ta, appended n t) ∈ l ++ [(c, e)] /\ ta <= t1)
  /\ (forall t2 n, (t2, hidden n) ∈ l ++ [(c, e)] ->
                   exists t1, (t1, shown n) ∈ l ++ [(c, e)] /\ t1 + DISPLAY_MS <= t2)
  /\ (forall t3 n, (t3, removed n) ∈ l ++ [(c, e)] ->
                   exists t2, (t2, hidden n) ∈ l ++ [(c, e)] /\ t2 + EXIT_MS <= t3).
Proof.
  intros Hs Hh Hr Ns Nh Nr. repeat split.
  - intros t1 n H. apply elem_of_app in H. destruct H as [H|H].
    + destruct (Hs _ _ H) as (ta & t & Hin & Hle).
      exists ta, t. split; [apply elem_of_app; left; exact Hin | exact Hle].
    + apply list_elem_of_singleton in H. inversion H; subst.
      destruct (Ns n eq_refl) as (ta & t & Hin & Hle).
      exists ta, t. split; [apply elem_of_app; left; exact Hin | exact Hle].
  - intros t2 n H. apply elem_of_app in H. destruct H as [H|H].
    + destruct (Hh _ _ H) as (t1 & Hin & Hle).
      exists t1. split; [apply elem_of_app; left; exact Hin | exact Hle].
    + apply list_elem_of_singleton in H. inversion H; subst.
      destruct (Nh n eq_refl) as (t1 & Hin & Hle).
      exists t1. split; [apply elem_of_app; left; exact Hin | exact Hle].
  - intros t3 n H. apply elem_of_app in H. destruct H as [H|H].
    + destruct (Hr _ _ H) as (t2 & Hin & Hle).
      exists t2. split; [apply elem_of_app; left; exact Hin | exact Hle].
    + apply list_elem_of_singleton in H. inversion H; subst.
      destruct (Nr n eq_refl) as (t2 & Hin & Hle).
      exists t2. split; [apply elem_of_app; left; exact Hin | exact Hle].
Qed.

(** [processToastQueue] keeps the invariant: it acts only in a quiet
    world with a waiting toast, and then starts that toast's cycle. *)
Lemma processToastQueue_Inv (w : world) : Inv w -> Inv (processToastQueue w).
Proof.
  intros I. unfold processToastQueue.
  destruct (isShowingToast w) eqn:Es; [exact I|].
  destruct (toastQueue w) as [|t rest] eqn:Eq; [exact I|].
  destruct I as [Hph Hsp Hs Hh Hr].
  destruct Hph as [(_ & Hc & Ht & Hf) | (Hb & _)]; [|congruence].
  destruct (log_clauses_extend (log w) (clock w) (appended (nextNode w) t) Hs Hh Hr)
    as (Hs' & Hh' & Hr'); try (intros ? ?; discriminate).
  constructor; simpl.
  - right. split; [reflexivity|].
    exists t, (mkTimer (clock w + ENTRANCE_MS) (tweenComplete (nextNode w))).
    simpl. rewrite Hc, Ht. simpl. repeat split.
    + unfold armed. simpl. exists t. apply elem_of_app. right.
      apply list_elem_of_singleton. f_equal. lia.
    + unfold earliestRemoval. simpl.
      rewrite appendTimes_app. simpl. apply Forall_app. split.
      * eapply Forall_impl; [exact Hf|]. simpl. unfold CYCLE_MS, ENTRANCE_MS, DISPLAY_MS, EXIT_MS.
        intros; lia.
      * apply Forall_singleton. unfold CYCLE_MS. lia.
    + lia.
  - rewrite appendTimes_app. simpl. apply StronglySorted_app_2.
    + intros a b Ha Hb. apply list_elem_of_singleton in Hb. subst b.
      rewrite Forall_forall in Hf. apply Hf, Ha.
    + exact Hsp.
    + repeat constructor.
  - exact Hs'.
  - exact Hh'.
  - exact Hr'.
Qed.

Lemma with_toastQueue_Inv (q : list toast) (w : world) :
  Inv w -> Inv (with_toastQueue q w).
Proof. intros [Hph Hsp Hs Hh Hr]. constructor; assumption. Qed.

Lemma showToast_Inv (t d : string) (w : world) : Inv w -> Inv (showToast t d w).
Proof.
  intros I. unfold showToast. now apply processToastQueue_Inv, with_toastQueue_Inv.
Qed.

Lemma elapse_Inv (d : Z) (w : world) :
  0 <= d -> Inv w -> Inv (with_clock (clock w + d) w).
Proof.
  intros Hd [Hph Hsp Hs Hh Hr]. constructor; try assumption.
  destruct Hph as [(Hb & Hc & Ht & Hf) | (Hb & t & tm & Hc & Ht & Ha & Hf & Hn)];
    [left | right].
  - repeat split; try assumption. simpl.
    eapply Forall_impl; [exact Hf|]. simpl. intros; lia.
  - split; [exact Hb|]. exists t, tm. simpl. repeat split; try assumption. lia.
Qed.

Lemma appendTimes_snoc_other (l : list (Z * effect)) (c : Z) (e : effect) :
  (forall n t, e <> appended n t) ->
  appendTimes (l ++ [(c, e)]) = appendTimes l.
Proof.
  intros He. rewrite appendTimes_app. simpl.
  destruct e; try (now rewrite app_nil_r). now destruct (He n t).
Qed.

Lemma isChild_single (n : nat) (t : toast) (c : toastClass) :
  isChild n [mkToastElement n t c] = true.
Proof. unfold isChild. simpl. now rewrite Nat.eqb_refl. Qed.

Lemma removeChild_single (n : nat) (t : toast) (c : toastClass) :
  removeChild n [mkToastElement n t c] = [].
Proof. unfold removeChild. simpl. now rewrite Nat.eqb_refl. Qed.

Lemma markHiding_single (n : nat) (t : toast) (c : toastClass) :
  markHiding n [mkToastElement n t c] = [mkToastElement n t hiding].
Proof. unfold markHiding. simpl. now rewrite Nat.eqb_refl. Qed.

(** What [ready] asks of the clock. *)
Lemma ready_due (tm : timer) (w : world) :
  ready tm w = true ->
  match cb tm with
  | tweenComplete _ => True
  | displayElapsed _ | exitElapsed _ => due tm <= clock w
  end.
Proof.
  unfold ready. destruct (cb tm); [trivial | |]; intros H; now apply Z.leb_le.
Qed.

(** Running the one pending closure, once it is ready, keeps the
    invariant. *)
Lemma fire_Inv (k : nat) (tm : timer) (w : world) :
  Inv w ->
  nth_error (timers w) k = Some tm ->
  ready tm w = true ->
  Inv (runCallback (cb tm) (with_timers (remove_nth k (timers w)) w)).
Proof.
  intros [Hph Hsp Hs Hh Hr] Hk Hdue. apply ready_due in Hdue.
  destruct Hph as [(_ & _ & Ht & _) | (Hb & t & tm0 & Hc & Ht & Ha & Hf & Hn)].
  { rewrite Ht in Hk. destruct k; discriminate Hk. }
  rewrite Ht in *.
  assert (k = O /\ tm0 = tm) as [-> ->].
  { destruct k as [|k]; simpl in Hk; [now inversion Hk | destruct k; discriminate Hk]. }
  clear Hk. destruct tm as [d c]. unfold armed in Ha. unfold earliestRemoval in Hf.
  simpl in Hdue, Hf, Hc, Hn, Ha.
  destruct c as [n|n|n]; simpl in Ha, Hf, Hc, Hn, Hdue |- *.
  - (* the entrance tween has completed *)
    destruct Ha as (t0 & Ha).
    destruct (log_clauses_extend (log w) (clock w) (shown n) Hs Hh Hr)
      as (Hs' & Hh' & Hr'); try (intros ? ?; discriminate).
    { intros n' E. inversion E; subst n'. exists (d - ENTRANCE_MS), t0.
      split; [exact Ha | lia]. }
    constructor; simpl.
    + right. split; [exact Hb|].
      exists t, (mkTimer (clock w + DISPLAY_MS) (displayElapsed n)). simpl.
      rewrite Hc. unfold earliestRemoval. simpl. repeat split.
      * unfold armed. simpl. apply elem_of_app. right.
        apply list_elem_of_singleton. f_equal. lia.
      * rewrite appendTimes_snoc_other by (intros; discriminate).
        eapply Forall_impl; [exact Hf|]. simpl. intros; lia.
      * lia.
    + rewrite appendTimes_snoc_other by (intros; discriminate). exact Hsp.
    + exact Hs'.
    + exact Hh'.
    + exact Hr'.
  - (* the display interval has elapsed *)
    destruct (log_clauses_extend (log w) (clock w) (hidden n) Hs Hh Hr)
      as (Hs' & Hh' & Hr'); try (intros ? ?; discriminate).
    { intros n' E. inversion E; subst n'. exists (d - DISPLAY_MS).
      split; [exact Ha | lia]. }
    constructor; simpl.
    + right. split; [exact Hb|].
      exists t, (mkTimer (clock w + EXIT_MS) (exitElapsed n)). simpl.
      rewrite Hc, markHiding_single. unfold earliestRemoval. simpl. repeat split.
      * unfold armed. simpl. apply elem_of_app. right.
        apply list_elem_of_singleton. f_equal. lia.
      * rewrite appendTimes_snoc_other by (intros; discriminate).
        eapply Forall_impl; [exact Hf|]. simpl. intros; lia.
      * lia.
    + rewrite appendTimes_snoc_other by (intros; discriminate). exact Hsp.
    + exact Hs'.
    + exact Hh'.
    + exact Hr'.
  - (* the exit interval has elapsed *)
    rewrite Hc, isChild_single, removeChild_single.
    apply processToastQueue_Inv.
    destruct (log_clauses_extend (log w) (clock w) (removed n) Hs Hh Hr)
      as (Hs' & Hh' & Hr'); try (intros ? ?; discriminate).
    { intros n' E. inversion E; subst n'. exists (d - EXIT_MS).
      split; [exact Ha | lia]. }
    constructor; simpl.
    + left. repeat split. simpl.
      rewrite appendTimes_snoc_other by (intros; discriminate).
      eapply Forall_impl; [exact Hf|]. simpl. intros; lia.
    + rewrite appendTimes_snoc_other by (intros; discriminate). exact Hsp.
    + exact Hs'.
    + exact Hh'.
    + exact Hr'.
Qed.

Lemma handle_Inv (w w' : world) (e : event) :
  Inv w -> handle w e = Some w' -> Inv w'.
Proof.
  intros I H. destruct e as [t d|d|k]; simpl in H.
  - inversion H. now apply showToast_Inv.
  - destruct (Z.leb_spec 0 d); [|discriminate H].
    inversion H. now apply elapse_Inv.
  - destruct (nth_error (timers w) k) as [tm|] eqn:Ek; [|discriminate H].
    destruct (ready tm w) eqn:Hready; [|discriminate H].
    inversion H. now apply (fire_Inv k).
Qed.

Lemma run_Inv (es : list event) :
  forall w w' : world, Inv w -> run w es = Some w' -> Inv w'.
Proof.
  induction es as [|e es IH]; intros w w' I H; simpl in H.
  - now inversion H; subst.
  - destruct (handle w e) as [w1|] eqn:E; [|discriminate H].
    eapply IH; [|exact H]. eapply handle_Inv; eassumption.
Qed.

(** *** Instants of full display *)

Lemma shownTimes_app (l1 l2 : list (Z * effect)) :
  shownTimes (l1 ++ l2) = shownTimes l1 ++ shownTimes l2.
Proof. apply flat_map_app. Qed.

Lemma shownTimes_snoc_other (l : list (Z * effect)) (c : Z) (e : effect) :
  (forall n, e <> shown n) ->
  shownTimes (l ++ [(c, e)]) = shownTimes l.
Proof.
  intros He. rewrite shownTimes_app. simpl.
  destruct e; try (now rewrite app_nil_r). now destruct (He n).
Qed.

Lemma ShownInv_initial : ShownInv initialWorld.
Proof. split; constructor. Qed.

Lemma processToastQueue_ShownInv (w : world) :
  (isShowingToast w = false -> timers w = []) ->
  ShownInv w -> ShownInv (processToastQueue w).
Proof.
  intros Hq [Hf Hs]. unfold processToastQueue.
  destruct (isShowingToast w) eqn:Es; [now split|].
  destruct (toastQueue w) as [|t rest] eqn:Eq; [now split|].
  unfold ShownInv, nextAppend in *. simpl. rewrite (Hq eq_refl) in *. simpl.
  rewrite shownTimes_snoc_other by (intros; discriminate).
  split; [|exact Hs].
  eapply Forall_impl; [exact Hf|]. simpl.
  unfold ENTRANCE_MS, DISPLAY_MS, EXIT_MS. intros; lia.
Qed.

Lemma fire_ShownInv (k : nat) (tm : timer) (w : world) :
  Inv w ->
  ShownInv w ->
  nth_error (timers w) k = Some tm ->
  ready tm w = true ->
  ShownInv (runCallback (cb tm) (with_timers (remove_nth k (timers w)) w)).
Proof.
  intros [Hph _ _ _ _] [Hf Hs] Hk Hdue. apply ready_due in Hdue.
  destruct Hph as [(_ & _ & Ht & _) | (Hb & t & tm0 & Hc & Ht & _ & _ & Hn)].
  { rewrite Ht in Hk. destruct k; discriminate Hk. }
  unfold nextAppend in Hf. rewrite Ht in *.
  assert (k = O /\ tm0 = tm) as [-> ->].
  { destruct k as [|k]; simpl in Hk; [now inversion Hk | destruct k; discriminate Hk]. }
  clear Hk. destruct tm as [d c]. simpl in Hdue, Hf, Hc, Hn.
  destruct c as [n|n|n]; simpl in Hf, Hc, Hn, Hdue |- *.
  - (* a new instant of full display *)
    unfold ShownInv, nextAppend. simpl. rewrite shownTimes_app. simpl. split.
    + apply Forall_app. split.
      * eapply Forall_impl; [exact Hf|]. simpl.
      unfold ENTRANCE_MS, DISPLAY_MS, EXIT_MS in *. intros; lia.
      * apply Forall_singleton. unfold ENTRANCE_MS, DISPLAY_MS, EXIT_MS in *. lia.
    + apply StronglySorted_app_2; [|exact Hs|repeat constructor].
      intros a b Ha Hin. apply list_elem_of_singleton in Hin. subst b.
      rewrite Forall_forall in Hf. specialize (Hf a Ha). simpl in Hf.
      unfold CYCLE_MS, ENTRANCE_MS, DISPLAY_MS, EXIT_MS in *. lia.
  - unfold ShownInv, nextAppend. simpl.
    rewrite shownTimes_snoc_other by (intros; discriminate).
    split; [|exact Hs].
    eapply Forall_impl; [exact Hf|]. simpl.
      unfold ENTRANCE_MS, DISPLAY_MS, EXIT_MS in *. intros; lia.
  - rewrite Hc, isChild_single, removeChild_single.
    apply processToastQueue_ShownInv; [reflexivity|].
    unfold ShownInv, nextAppend. simpl.
    rewrite shownTimes_snoc_other by (intros; discriminate).
    split; [|exact Hs].
    eapply Forall_impl; [exact Hf|]. simpl.
      unfold ENTRANCE_MS, DISPLAY_MS, EXIT_MS in *. intros; lia.
Qed.

Lemma handle_ShownInv (w w' : world) (e : event) :
  Inv w -> ShownInv w -> handle w e = Some w' -> ShownInv w'.
Proof.
  intros I S H. destruct e as [t d|d|k]; simpl in H.
  - inversion H. unfold showToast. apply processToastQueue_ShownInv; [|exact S].
    simpl. intros Es. destruct I as [[(_ & _ & Ht & _) | (Hb & _)] _ _ _ _];
      [exact Ht | congruence].
  - destruct (Z.leb_spec 0 d); [|discriminate H]. inversion H.
    destruct S as [Hf Hs]. split; [|exact Hs].
    unfold nextAppend in *. simpl. destruct (timers w); [|exact Hf].
    eapply Forall_impl; [exact Hf|]. simpl.
    unfold ENTRANCE_MS, DISPLAY_MS, EXIT_MS. intros; lia.
  - destruct (nth_error (timers w) k) as [tm|] eqn:Ek; [|discriminate H].
    destruct (ready tm w) eqn:Hready; [|discriminate H].
    inversion H. now apply (fire_ShownInv k).
Qed.

Lemma run_ShownInv (es : list event) :
  forall w w' : world, Inv w -> ShownInv w -> run w es = Some w' -> ShownInv w'.
Proof.
  induction es as [|e es IH]; intros w w' I S H; simpl in H.
  - now inversion H; subst.
  - destruct (handle w e) as [w1|] eqn:E; [|discriminate H].
    eapply IH; [| |exact H].
    + eapply handle_Inv; eassumption.
    + eapply handle_ShownInv; eassumption.
Qed.

(** *** Order of display *)

Lemma processToastQueue_order (w : world) :
  displayed (log (processToastQueue w)) ++ queued (processToastQueue w)
  = displayed (log w) ++ queued w.
Proof.
  unfold processToastQueue.
  destruct (isShowingToast w); [reflexivity|].
  unfold queued. destruct (toastQueue w) as [|t rest] eqn:Eq; [now rewrite Eq|].
  simpl. rewrite displayed_app. simpl. now rewrite <- app_assoc.
Qed.

Lemma displayed_snoc_other (l : list (Z * effect)) (c : Z) (e : effect) :
  (forall n t, e <> appended n t) ->
  displayed (l ++ [(c, e)]) = displayed l.
Proof.
  intros He. rewrite displayed_app. simpl.
  destruct e; try (now rewrite app_nil_r). now destruct (He n t).
Qed.

Lemma runCallback_order (c : callback) (w : world) :
  displayed (log (runCallback c w)) ++ queued (runCallback c w)
  = displayed (log w) ++ queued w.
Proof.
  destruct c as [n|n|n]; simpl.
  - now rewrite displayed_snoc_other by (intros; discriminate).
  - now rewrite displayed_snoc_other by (intros; discriminate).
  - destruct (isChild n (toastContainer w)); [|reflexivity].
    rewrite processToastQueue_order. simpl.
    now rewrite displayed_snoc_other by (intros; discriminate).
Qed.

Lemma handle_order (w w' : world) (e : event) :
  handle w e = Some w' ->
  displayed (log w') ++ queued w' = (displayed (log w) ++ queued w) ++ requested [e].
Proof.
  intros H. destruct e as [t d|d|k]; simpl in H.
  - inversion H. unfold showToast. rewrite processToastQueue_order.
    unfold queued. simpl. now rewrite map_app, app_assoc.
  - destruct (0 <=? d); [|discriminate H]. inversion H. simpl.
    now rewrite app_nil_r.
  - destruct (nth_error (timers w) k) as [tm|]; [|discriminate H].
    destruct (ready tm w); [|discriminate H]. inversion H.
    rewrite runCallback_order. simpl. now rewrite app_nil_r.
Qed.

Lemma run_order (es : list event) :
  forall w w' : world,
    run w es = Some w' ->
    displayed (log w') ++ queued w' = (displayed (log w) ++ queued w) ++ requested es.
Proof.
  induction es as [|e es IH]; intros w w' H; simpl in H.
  - inversion H. simpl. now rewrite app_nil_r.
  - destruct (handle w e) as [w1|] eqn:E; [|discriminate H].
    rewrite (IH _ _ H), (handle_order _ _ _ E).
    change (e :: es) with ([e] ++ es). rewrite requested_app.
    now rewrite !app_assoc.
Qed.

(** *** The stack of [createToast] *)

(** C1, the claim as stated fails for [createToast].  Two calls in a row
    leave two toasts on screen together: the second call does not wait for
    the first toast to go. *)
Lemma createToast_two_visible :
  ~ (length (stacked (Closure.createToast "Fact" "second" None
                        (Closure.createToast "Fact" "first" None page))) <= 1)%nat.
Proof. simpl. lia. Qed.

(** C1, as amended.  For every sequence of [showToast] calls, passing
    time and due callbacks run by the event loop, starting from the
    engine's initial world: the container never holds more than one toast
    element (showing or hiding); the toasts appended so far followed by the
    toasts still queued are exactly the toasts asked for, in call order;
    and a [showToast] made while an element is in the container only
    appends to the queue, leaving the element, its pending callback and
    everything else as they were.  [createToast] of the closure script is
    a stack, not a queue: every call puts its toast on top of the ones
    already on screen at once. *)
Theorem showToast_one_at_a_time (es : list event) (w : world) :
  run initialWorld es = Some w ->
  (length (toastContainer w) <= 1)%nat
  /\ displayed (log w) ++ queued w = requested es
  /\ (forall t d : string,
         toastContainer w <> [] ->
         showToast t d w
         = with_toastQueue (toastQueue w ++ [mkToast t d (clock w)]) w)
  /\ (forall (t m : string) (d : option Q) (c : Closure.world)
             (wrap : list Closure.toastNode),
         Closure.toastWrap c = Some wrap ->
         stacked (Closure.createToast t m d c)
         = Closure.mkToastNode (Closure.nextNode c) t m :: stacked c).
Proof.
  intros H.
  pose proof (run_Inv es _ _ Inv_initial H) as [Hph _ _ _ _].
  repeat split.
  - destruct Hph as [(_ & Hc & _) | (_ & t & tm & Hc & _)]; rewrite Hc; simpl; lia.
  - now rewrite (run_order es _ _ H).
  - intros t d Hne. unfold showToast, processToastQueue. simpl.
    destruct Hph as [(_ & Hc & _) | (Hb & _)]; [contradiction|].
    now rewrite Hb.
  - intros t m d c wrap Hw. unfold stacked, Closure.createToast. rewrite Hw.
    reflexivity.
Qed.

Lemma showToast_one_at_a_time_witness :
  run initialWorld burst = Some afterBurst
  /\ ((length (toastContainer afterBurst) <= 1)%nat
      /\ displayed (log afterBurst) ++ queued afterBurst = requested burst
      /\ (forall t d : string,
             toastContainer afterBurst <> [] ->
             showToast t d afterBurst
             = with_toastQueue (toastQueue afterBurst ++ [mkToast t d (clock afterBurst)])
                               afterBurst)
      /\ (forall (t m : string) (d : option Q) (c : Closure.world)
                 (wrap : list Closure.toastNode),
             Closure.toastWrap c = Some wrap ->
             stacked (Closure.createToast t m d c)
             = Closure.mkToastNode (Closure.nextNode c) t m :: stacked c)).
Proof.
  split; [reflexivity|].
  apply (showToast_one_at_a_time burst afterBurst). reflexivity.
Defined.

(** *** Timing *)

(** A callback that runs in a world of the invariant is the closure of
    the one element in the container; what it finds and what it leaves. *)
Lemma fire_effect (k : nat) (w w' : world) :
  Inv w ->
  handle w (Fire k) = Some w' ->
  exists (n : nat) (t : toast) (d : Z),
    k = 0%nat /\ clock w' = clock w
    /\ ((timers w = [mkTimer d (tweenComplete n)]
         /\ toastContainer w = [mkToastElement n t showing]
         /\ toastContainer w' = [mkToastElement n t showing]
         /\ timers w' = [mkTimer (clock w + 3000) (displayElapsed n)]
         /\ log w' = log w ++ [(clock w, shown n)])
        \/ (timers w = [mkTimer d (displayElapsed n)]
            /\ d <= clock w
            /\ toastContainer w = [mkToastElement n t showing]
            /\ toastContainer w' = [mkToastElement n t hiding]
            /\ timers w' = [mkTimer (clock w + 500) (exitElapsed n)]
            /\ log w' = log w ++ [(clock w, hidden n)])
        \/ (timers w = [mkTimer d (exitElapsed n)]
            /\ d <= clock w
            /\ toastContainer w = [mkToastElement n t hiding]
            /\ match toastQueue w with
               | [] =>
                   toastContainer w' = []
                   /\ isShowingToast w' = false
                   /\ timers w' = []
                   /\ log w' = log w ++ [(clock w, removed n)]
               | t' :: rest =>
                   toastContainer w' = [mkToastElement (nextNode w) t' showing]
                   /\ isShowingToast w' = true
                   /\ toastQueue w' = rest
                   /\ timers w' = [mkTimer (clock w + 500) (tweenComplete (nextNode w))]
                   /\ log w' = log w ++ [(clock w, removed n);
                                         (clock w, appended (nextNode w) t')]
               end)).
Proof.
  intros [Hph _ _ _ _] H. cbn [handle] in H.
  destruct (nth_error (timers w) k) as [tm|] eqn:Hk; [|discriminate H].
  destruct (ready tm w) eqn:Hr; [|discriminate H]. injection H as <-.
  apply ready_due in Hr.
  destruct Hph as [(_ & _ & Ht & _) | (Hb & t & tm0 & Hc & Ht & _)].
  { rewrite Ht in Hk. destruct k; discriminate Hk. }
  rewrite Ht in *.
  assert (k = O /\ tm0 = tm) as [-> ->].
  { destruct k as [|k]; simpl in Hk; [now inversion Hk | destruct k; discriminate Hk]. }
  clear Hk. destruct tm as [d c].
  destruct c as [n|n|n]; cbn [cb due target classWhilePending] in Hc, Hr |- *;
    exists n, t, d; (split; [reflexivity|]).
  - split; [reflexivity|]. left.
    cbn [runCallback remove_nth setTimeout emit with_timers toastContainer timers
         clock log]. rewrite Hc. repeat split.
  - split; [reflexivity|]. right. left.
    cbn [runCallback remove_nth setTimeout emit with_timers with_toastContainer
         toastContainer timers clock log].
    rewrite Hc, markHiding_single. repeat split. exact Hr.
  - cbn [runCallback remove_nth with_timers toastContainer].
    rewrite Hc, isChild_single, removeChild_single.
    unfold processToastQueue. cbn.
    destruct (toastQueue w) as [|t' rest]; cbn.
    + split; [reflexivity|]. right. right. repeat split; assumption.
    + split; [reflexivity|]. right. right. repeat split; try assumption.
      now rewrite <- app_assoc.
Qed.

(** C7.  In every world the engine reaches from its initial one by
    [showToast] calls, passing time and callbacks run by the event loop, a
    callback that runs is the closure of the one element in the container.
    The closure of the entrance tween leaves the element showing and arms
    the display timer for exactly 3000 ms later.  The display timer's
    closure runs no earlier than that; it turns the element from showing to
    hiding and arms the exit timer for exactly 500 ms later.  The exit
    timer's closure runs no earlier than that; it takes the element out of
    the container, and [processToastQueue], called again, appends the next
    waiting toast at that same instant, or leaves the container empty and
    [isShowingToast] false when none waits.  So an element that is hiding
    was fully shown for at least 3000 ms before it turned; every element
    that turned to hiding did so at least 3000 ms after its entrance tween
    ended, which was not before the element was appended; every element
    removed was removed at least 500 ms after it turned; and any two toasts
    were appended, and fully shown, at least 3000 + 500 ms apart. *)
Theorem toast_intervals (es : list event) (w : world) :
  run initialWorld es = Some w ->
  (forall (k : nat) (w' : world),
      handle w (Fire k) = Some w' ->
      exists (n : nat) (t : toast) (d : Z),
        k = 0%nat /\ clock w' = clock w
        /\ ((timers w = [mkTimer d (tweenComplete n)]
             /\ toastContainer w = [mkToastElement n t showing]
             /\ toastContainer w' = [mkToastElement n t showing]
             /\ timers w' = [mkTimer (clock w + 3000) (displayElapsed n)]
             /\ log w' = log w ++ [(clock w, shown n)])
            \/ (timers w = [mkTimer d (displayElapsed n)]
                /\ d <= clock w
                /\ toastContainer w = [mkToastElement n t showing]
                /\ toastContainer w' = [mkToastElement n t hiding]
                /\ timers w' = [mkTimer (clock w + 500) (exitElapsed n)]
                /\ log w' = log w ++ [(clock w, hidden n)])
            \/ (timers w = [mkTimer d (exitElapsed n)]
                /\ d <= clock w
                /\ toastContainer w = [mkToastElement n t hiding]
                /\ match toastQueue w with
                   | [] =>
                       toastContainer w' = []
                       /\ isShowingToast w' = false
                       /\ timers w' = []
                       /\ log w' = log w ++ [(clock w, removed n)]
                   | t' :: rest =>
                       toastContainer w' = [mkToastElement (nextNode w) t' showing]
                       /\ isShowingToast w' = true
                       /\ toastQueue w' = rest
                       /\ timers w'
                          = [mkTimer (clock w + 500) (tweenComplete (nextNode w))]
                       /\ log w' = log w ++ [(clock w, removed n);
                                             (clock w, appended (nextNode w) t')]
                   end)))
  /\ (forall e : toastElement,
         e ∈ toastContainer w ->
         cls e = hiding ->
         exists t1 t2 : Z,
           (t1, shown (node e)) ∈ log w
           /\ (t2, hidden (node e)) ∈ log w
           /\ t1 + 3000 <= t2
           /\ t2 <= clock w)
  /\ (forall (t2 : Z) (n : nat),
         (t2, hidden n) ∈ log w ->
         exists (ta t1 : Z) (t : toast),
           (ta, appended n t) ∈ log w
           /\ (t1, shown n) ∈ log w
           /\ ta <= t1
           /\ t1 + 3000 <= t2)
  /\ (forall (t3 : Z) (n : nat),
         (t3, removed n) ∈ log w ->
         exists t2 : Z, (t2, hidden n) ∈ log w /\ t2 + 500 <= t3)
  /\ StronglySorted (fun a b => a + (3000 + 500) <= b) (appendTimes (log w))
  /\ StronglySorted (fun a b => a + (3000 + 500) <= b) (shownTimes (log w)).
Proof.
  intros H.
  pose proof (run_ShownInv es _ _ Inv_initial ShownInv_initial H) as [_ Hss].
  pose proof (run_Inv es _ _ Inv_initial H) as I.
  split; [intros k w' Hf; exact (fire_effect k w w' I Hf)|].
  destruct I as [Hph Hsp Hs Hh Hr].
  split.
  { intros e He Hcls.
    destruct Hph as [(_ & Hc & _) | (_ & t & tm & Hc & _ & Ha & _ & Hn)];
      rewrite Hc in He; [inversion He|].
    apply list_elem_of_singleton in He. subst e. cbn [cls node] in *.
    destruct tm as [d c]. unfold armed in Ha.
    destruct c as [n|n|n]; cbn [classWhilePending target cb due delay] in *;
      try discriminate Hcls.
    destruct (Hh _ _ Ha) as (t1 & H1 & L1).
    exists t1, (d - EXIT_MS). unfold DISPLAY_MS, EXIT_MS in *.
    repeat split; [exact H1 | exact Ha | lia | lia]. }
  split.
  { intros t2 n Hin. destruct (Hh _ _ Hin) as (t1 & H1 & L1).
    destruct (Hs _ _ H1) as (ta & t & Ha & La).
    exists ta, t1, t. unfold DISPLAY_MS in *. repeat split; assumption. }
  split; [exact Hr|].
  split; [exact Hsp | exact Hss].
Qed.

Lemma toast_intervals_witness :
  run initialWorld twoToasts = Some afterTwoToasts
  /\ appendTimes (log afterTwoToasts) = [0; 3994]
  /\ shownTimes (log afterTwoToasts) = [493]
  /\ StronglySorted (fun a b => a + (3000 + 500) <= b)
                    (appendTimes (log afterTwoToasts))
  /\ StronglySorted (fun a b => a + (3000 + 500) <= b)
                    (shownTimes (log afterTwoToasts)).
Proof.
  split; [reflexivity|]. split; [reflexivity|]. split; [reflexivity|].
  destruct (toast_intervals twoToasts afterTwoToasts eq_refl)
    as (_ & _ & _ & _ & Ha & Hs).
  split; [exact Ha | exact Hs].
Defined.

End Toasts.

(** ** Parkour physics of the closure script *)

Module Physics.
Import Closure.
Import Tick.

(** *** Comparisons *)

Lemma ltb_spec (a b : Q) : BoolSpec (a < b)%Q (b <= a)%Q (JS.ltb a b).
Proof.
  unfold JS.ltb. destruct (Qle_bool b a) eqn:E; constructor.
  - now apply Qle_bool_iff.
  - apply Qnot_le_lt. intros H. apply Qle_bool_iff in H. congruence.
Qed.

Lemma leb_spec (a b : Q) : BoolSpec (a <= b)%Q (b < a)%Q (JS.leb a b).
Proof.
  unfold JS.leb. destruct (Qle_bool a b) eqn:E; constructor.
  - now apply Qle_bool_iff.
  - apply Qnot_le_lt. intros H. apply Qle_bool_iff in H. congruence.
Qed.

Lemma ltb_true (a b : Q) : (a < b)%Q -> JS.ltb a b = true.
Proof. intros H. destruct (ltb_spec a b); [reflexivity | lra]. Qed.

Lemma ltb_false (a b : Q) : (b <= a)%Q -> JS.ltb a b = false.
Proof. intros H. destruct (ltb_spec a b); [lra | reflexivity]. Qed.

Lemma leb_true (a b : Q) : (a <= b)%Q -> JS.leb a b = true.
Proof. intros H. destruct (leb_spec a b); [reflexivity | lra]. Qed.

Lemma leb_false (a b : Q) : (b < a)%Q -> JS.leb a b = false.
Proof. intros H. destruct (leb_spec a b); [lra | reflexivity]. Qed.

(** *** The collision rule *)

Lemma lands_landsOn (p : player) (pl : platform) :
  lands p pl = true <-> landsOn p pl.
Proof.
  unfold lands, landsOn.
  destruct (ltb_spec (pl_x pl) (x p + w p));
    destruct (ltb_spec (x p) (pl_x pl + pl_w pl));
    destruct (leb_spec (pl_y pl) (y p + h p));
    destruct (ltb_spec (y p + h p) (pl_y pl + 16));
    destruct (leb_spec 0 (vy p)); simpl;
    split; intros L; try discriminate L; try reflexivity; try tauto;
    destruct L as (? & ? & ? & ? & ?); lra.
Qed.

Lemma collide_hit (p : player) (pl : platform) :
  landsOn p pl -> collide p pl = snap p pl.
Proof. intros H. unfold collide. now rewrite (proj2 (lands_landsOn p pl) H). Qed.

Lemma collide_miss (p : player) (pl : platform) :
  ~ landsOn p pl -> collide p pl = p.
Proof.
  intros H. unfold collide. destruct (lands p pl) eqn:E; [|reflexivity].
  now apply lands_landsOn in E.
Qed.

(** A pass over a body moving upward changes nothing but the cleared
    [onGround]. *)
Lemma fold_collide_rising (pls : list platform) :
  forall p : player, (vy p < 0)%Q -> fold_left collide pls p = p.
Proof.
  induction pls as [|pl pls IH]; intros p Hv; [reflexivity|].
  simpl. rewrite collide_miss; [now apply IH|].
  intros (_ & _ & _ & _ & H). lra.
Qed.

(** Once on the ground, the rest of the pass keeps the body there. *)
Lemma fold_collide_grounded (pls : list platform) :
  forall p : player, onGround p = true -> onGround (fold_left collide pls p) = true.
Proof.
  induction pls as [|pl pls IH]; intros p Hg; [exact Hg|].
  simpl. apply IH. unfold collide. destruct (lands p pl); [reflexivity | exact Hg].
Qed.

Lemma fold_collide_landing (pls : list platform) :
  forall p : player,
    onGround p = false ->
    (onGround (fold_left collide pls p) = true
     <-> exists pre pl post,
          pls = pre ++ pl :: post /\ landsOn (fold_left collide pre p) pl).
Proof.
  induction pls as [|pl pls IH]; intros p Hg.
  - simpl. split.
    + intros H. congruence.
    + intros (pre & pl & post & E & _). now destruct pre.
  - simpl. destruct (lands p pl) eqn:El.
    + split.
      * intros _. exists [], pl, pls. split; [reflexivity|].
        now apply lands_landsOn.
      * intros _. apply fold_collide_grounded. unfold collide. now rewrite El.
    + assert (collide p pl = p) as Ec by (unfold collide; now rewrite El).
      rewrite Ec, (IH p Hg). split.
      * intros (pre & pl' & post & E & L).
        exists (pl :: pre), pl', post. split; [now rewrite E|].
        simpl. now rewrite Ec.
      * intros (pre & pl' & post & E & L). destruct pre as [|q pre].
        -- simpl in E, L. inversion E; subst.
           apply lands_landsOn in L. congruence.
        -- simpl in E, L. inversion E; subst. rewrite Ec in L.
           now exists pre, pl', post.
Qed.

Lemma overlaps_boxesOverlap (p : Engine.parkour) (pl : Engine.platform) :
  Engine.overlaps p pl = true <-> boxesOverlap p pl.
Proof.
  unfold Engine.overlaps, boxesOverlap.
  destruct (ltb_spec (inject_Z (Engine.platX pl)) (Engine.playerX p + 30));
    destruct (ltb_spec (Engine.playerX p)
                       (inject_Z (Engine.platX pl + Engine.platWidth pl)));
    destruct (ltb_spec (inject_Z (Engine.platY pl)) (Engine.playerY p + 50));
    destruct (ltb_spec (Engine.playerY p) (inject_Z (Engine.platY pl + 40))); simpl;
    split; intros L; try discriminate L; try reflexivity; try tauto;
    destruct L as (? & ? & ? & ?); lra.
Qed.

(** C4, the claim as stated fails for the engine's [updateParkour]: its
    collision test does not look at the velocity, and a body that moves
    upward is snapped onto the platform. *)
Lemma updateParkour_snaps_rising_body :
  ~ (forall (p p' : Engine.parkour) (pl : Engine.platform),
        Engine.collide 0 (Engine.initialWorld, p) pl = Some (Engine.initialWorld, p') ->
        Engine.onGround p = false ->
        Engine.onGround p' = true ->
        (0 <= Engine.velocityY p)%Q).
Proof.
  intros H.
  specialize (H rising
                (Engine.mkParkour 70%Q (inject_Z (100 - 50)) true 0%Q true ∅ false)
                ledge eq_refl eq_refl eq_refl).
  simpl in H. lra.
Qed.

(** C4, as amended.  In the collision pass of the closure script's
    [step], a platform snaps the body (bottom edge on the platform's top,
    vertical velocity zero, [onGround] true, [x] untouched) when the
    horizontal extents overlap, the bottom edge is inside the top band and
    the vertical velocity is not negative, and leaves the body as it is
    otherwise; so a pass over a body that moves upward snaps nothing, and
    the pass ends with [onGround] true exactly when some platform, at its
    turn, met the condition.  The engine's [updateParkour] uses another
    rule: it snaps whenever the two boxes overlap, whatever the velocity. *)
Theorem collision_rule :
  (forall (p : player) (pl : platform),
      landsOn p pl ->
      y (collide p pl) = (pl_y pl - h p)%Q
      /\ vy (collide p pl) = 0%Q
      /\ onGround (collide p pl) = true
      /\ x (collide p pl) = x p)
  /\ (forall (p : player) (pl : platform), ~ landsOn p pl -> collide p pl = p)
  /\ (forall (pls : list platform) (p : player),
         (vy p < 0)%Q -> collisionPass pls p = set_onGround false p)
  /\ (forall (pls : list platform) (p : player),
         onGround (collisionPass pls p) = true
         <-> exists pre pl post,
              pls = pre ++ pl :: post /\ landsOn (collisionPass pre p) pl)
  /\ (forall (fuel : nat) (w : Engine.world) (p : Engine.parkour) (pl : Engine.platform),
         Engine.isEnd pl = false ->
         (boxesOverlap p pl ->
          Engine.collide fuel (w, p) pl
          = Some (w, Engine.mkParkour (Engine.playerX p)
                                      (inject_Z (Engine.platY pl - 50))
                                      (Engine.isJumping p) 0%Q true
                                      (Engine.keys p) (Engine.parkourCompleted p)))
         /\ (~ boxesOverlap p pl -> Engine.collide fuel (w, p) pl = Some (w, p))).
Proof.
  split; [|split; [|split; [|split]]].
  - intros p pl L. rewrite (collide_hit p pl L). repeat split.
  - exact collide_miss.
  - intros pls p Hv. unfold collisionPass. now apply fold_collide_rising.
  - intros pls p. unfold collisionPass. now apply fold_collide_landing.
  - intros fuel w p pl He. unfold Engine.collide. split; intros L.
    + apply overlaps_boxesOverlap in L. now rewrite L, He.
    + destruct (Engine.overlaps p pl) eqn:E; [|reflexivity].
      now apply overlaps_boxesOverlap in E.
Qed.

(** *** Counting what a tick says *)

Lemma count_emit (f : effect -> bool) (e : effect) (v : world) :
  count f (emit e v) = (count f v + if f e then 1 else 0)%nat.
Proof.
  unfold count, emit. simpl. rewrite List.filter_app, length_app. simpl.
  now destruct (f e).
Qed.

Lemma count_with_st (f : effect -> bool) (s : state) (v : world) :
  count f (with_st s v) = count f v.
Proof. reflexivity. Qed.

Lemma count_prependToast (f : effect -> bool) (t m : string) (d : Q) (g : bool)
      (wrap : list toastNode) (v : world) :
  count f (prependToast t m d g wrap v) = count f v.
Proof. reflexivity. Qed.

Lemma count_createToast (f : effect -> bool) (t m : string) (d : option Q) (v : world) :
  f (sound "achievement") = false ->
  count f (createToast t m d v) = count f v.
Proof.
  intros Hf. unfold createToast, SoundManager_play.
  destruct (toastWrap v); [|reflexivity].
  now rewrite count_emit, count_prependToast, Hf, Nat.add_0_r.
Qed.

Lemma count_toastOrNothing (f : effect -> bool) (t m : string) (d : option Q) (v : world) :
  f (sound "achievement") = false ->
  count f (toastOrNothing t m d v)
  = (count f v + if f (notified t m) then 1 else 0)%nat.
Proof.
  intros Hf. unfold toastOrNothing. cbn [createToastInstalled emit].
  destruct (createToastInstalled v).
  - now rewrite count_createToast, count_emit.
  - now rewrite count_emit.
Qed.

Lemma count_toastOrInline (f : effect -> bool) (t m : string) (d : option Q) (v : world) :
  f (sound "achievement") = false ->
  count f (toastOrInline t m d v)
  = (count f v + if f (notified t m) then 1 else 0)%nat.
Proof.
  intros Hf. unfold toastOrInline. cbn [createToastInstalled emit].
  destruct (createToastInstalled v).
  - now rewrite count_createToast, count_emit.
  - unfold inlineToast. cbn [toastWrap emit].
    destruct (toastWrap v); [rewrite count_prependToast|]; now rewrite count_emit.
Qed.

Lemma count_awardAchievement (f : effect -> bool) (id t m : string) (v : world) :
  f (sound "achievement") = false ->
  f (logged "Achievement unlocked") = false ->
  count f (awardAchievement id t m v)
  = (count f v
     + if bool_decide (id ∈ achievements (st v)) then 0
       else if f (notified t m) then 1 else 0)%nat.
Proof.
  intros Hs Hl. unfold awardAchievement, SoundManager_play.
  destruct (bool_decide (id ∈ achievements (st v))); [lia|].
  now rewrite !count_emit, count_toastOrInline, count_with_st, Hs, Hl, !Nat.add_0_r.
Qed.

(** *** Parts of the world a tick leaves alone *)

Lemma st_createToast (t m : string) (d : option Q) (v : world) :
  st (createToast t m d v) = st v.
Proof. unfold createToast. now destruct (toastWrap v). Qed.

Lemma st_toastOrNothing (t m : string) (d : option Q) (v : world) :
  st (toastOrNothing t m d v) = st v.
Proof.
  unfold toastOrNothing. cbn [createToastInstalled emit].
  destruct (createToastInstalled v); [now rewrite st_createToast | reflexivity].
Qed.

Lemma st_toastOrInline (t m : string) (d : option Q) (v : world) :
  st (toastOrInline t m d v) = st v.
Proof.
  unfold toastOrInline. cbn [createToastInstalled emit].
  destruct (createToastInstalled v); [now rewrite st_createToast|].
  unfold inlineToast. cbn [toastWrap emit]. now destruct (toastWrap v).
Qed.

Lemma awardAchievement_st (id t m : string) (v : world) :
  id ∈ achievements (st (awardAchievement id t m v))
  /\ xp (st (awardAchievement id t m v)) = xp (st v)
  /\ keys (st (awardAchievement id t m v)) = keys (st v).
Proof.
  unfold awardAchievement, SoundManager_play.
  destruct (bool_decide (id ∈ achievements (st v))) eqn:E.
  - apply bool_decide_eq_true in E. auto.
  - cbn [emit st]. rewrite st_toastOrInline. simpl. split; [set_solver | auto].
Qed.

(** *** The tick, piece by piece *)

Lemma onGround_steer (ks : gmap string bool) (p : player) :
  onGround (steer ks p) = onGround p.
Proof. unfold steer. destruct (left ks), (right ks); reflexivity. Qed.

Lemma advance_fst (ar : arena) (now : Q) (w : world) (i : instance) :
  fst (advance ar now (w, i))
  = if jumps w i then SoundManager_play "click" w else w.
Proof.
  unfold advance, jump, jumps, pull. cbn [onGround set_vy].
  rewrite onGround_steer.
  destruct (up (keys (st w)) && onGround (body i)); reflexivity.
Qed.

Lemma fallReset_fst (ar : arena) (w : world) (p : player) :
  fst (fallReset ar (w, p))
  = if fell ar p
    then SoundManager_play "page"
           (toastOrNothing "Parkour" "You fell. Resetting run..." None w)
    else w.
Proof. unfold fallReset, fell. destruct (JS.ltb _ _); reflexivity. Qed.

Lemma fallReset_snd (ar : arena) (w : world) (p : player) :
  snd (fallReset ar (w, p))
  = if fell ar p
    then set_vy 0%Q (set_y (inject_Z (clientHeight ar) - 48)%Q (set_x 20%Q p))
    else p.
Proof. unfold fallReset, fell. destruct (JS.ltb _ _); reflexivity. Qed.

Lemma victory_snd (ar : arena) (p : player) (w : world) (r : bool) :
  snd (victory ar p (w, r)) = if won ar p then false else r.
Proof. unfold victory, won. destruct (JS.ltb _ _); reflexivity. Qed.

Lemma victory_fst (ar : arena) (p : player) (w : world) (r : bool) :
  fst (victory ar p (w, r)) = if won ar p then celebrate w else w.
Proof. unfold victory, won, celebrate. destruct (JS.ltb _ _); reflexivity. Qed.

Lemma step_parts (ar : arena) (now : Q) (w : world) (i : instance) :
  let f := fallReset ar (advance ar now (w, i)) in
  let v := victory ar (snd f)
                   (emit (drawn (JS.round (x (snd f))) (JS.round (y (snd f)))) (fst f),
                    running i) in
  step ar now (w, i)
  = (fst v, mkInstance (snd f) (platforms i) now (snd v) (listening i) (snd v)).
Proof.
  unfold step. cbn [snd].
  destruct (fallReset ar (advance ar now (w, i))) as [w2 p2]. cbn [fst snd].
  destruct (victory ar p2 _) as [w3 r3]. reflexivity.
Qed.

(** The body a tick leaves is the body its fall check leaves. *)
Lemma step_body (ar : arena) (now : Q) (w : world) (i : instance) :
  body (snd (step ar now (w, i))) = snd (fallReset ar (advance ar now (w, i))).
Proof. now rewrite step_parts. Qed.

Lemma step_running (ar : arena) (now : Q) (w : world) (i : instance) :
  running (snd (step ar now (w, i)))
  = (if won ar (body (snd (step ar now (w, i)))) then false else running i)
  /\ frameRequested (snd (step ar now (w, i))) = running (snd (step ar now (w, i)))
  /\ listening (snd (step ar now (w, i))) = listening i.
Proof.
  rewrite step_body, step_parts. cbn [snd running frameRequested listening].
  now rewrite victory_snd.
Qed.

Lemma step_world (ar : arena) (now : Q) (w : world) (i : instance) :
  let a := advance ar now (w, i) in
  let p := body (snd (step ar now (w, i))) in
  let w1 := if jumps w i then SoundManager_play "click" w else w in
  let w2 := if fell ar (snd a)
            then SoundManager_play "page"
                   (toastOrNothing "Parkour" "You fell. Resetting run..." None w1)
            else w1 in
  let w3 := emit (drawn (JS.round (x p)) (JS.round (y p))) w2 in
  fst (step ar now (w, i)) = if won ar p then celebrate w3 else w3.
Proof.
  cbn zeta. rewrite step_body, step_parts. cbn [fst].
  rewrite victory_fst.
  destruct (advance ar now (w, i)) as [w1 p1] eqn:Ea.
  rewrite fallReset_fst.
  assert (w1 = fst (advance ar now (w, i))) as -> by now rewrite Ea.
  now rewrite advance_fst.
Qed.

Lemma notifications_count (t : string) (v : world) :
  notifications t v = count (isNotified t) v.
Proof. reflexivity. Qed.

Lemma sounds_count (n : string) (v : world) : sounds n v = count (isSound n) v.
Proof. reflexivity. Qed.

Lemma ticks_count (v : world) : ticks v = count isDrawn v.
Proof. reflexivity. Qed.

(** Rewrite a count over the world a tick leaves into the count before
    the tick plus what each call added. *)
Ltac count_open :=
  unfold notifications, sounds, ticks;
  repeat match goal with
         | |- context [length (List.filter ?f (log ?v))] =>
             change (length (List.filter f (log v))) with (count f v)
         end;
  rewrite step_world; cbv zeta.

Ltac count_close :=
  repeat match goal with
         | |- context [if ?b then _ else _] =>
             match b with
             | jumps _ _ => destruct b
             | fell _ _ => destruct b
             | won _ _ => destruct b
             end
         end;
  unfold celebrate, SoundManager_play;
  repeat first [ rewrite count_awardAchievement by reflexivity
               | rewrite count_emit
               | rewrite count_with_st
               | rewrite count_toastOrNothing by reflexivity ];
  cbn [isNotified isSound isDrawn String.eqb Ascii.eqb Bool.eqb];
  repeat progress (cbn [st emit with_st achievements]; rewrite ?st_toastOrNothing);
  repeat match goal with
         | |- context [bool_decide ?P] => destruct (bool_decide P)
         end;
  try lia.

Ltac count_tick := count_open; count_close.

(** Every tick draws the player exactly once. *)
Lemma step_ticks (ar : arena) (now : Q) (w : world) (i : instance) :
  ticks (fst (step ar now (w, i))) = S (ticks w).
Proof. count_tick. Qed.

(** The progress the victory block leaves. *)
Lemma celebrate_st (v : world) :
  xp (st (celebrate v)) = Z.min 100 (xp (st v) + 15)
  /\ keys (st (celebrate v)) = keys (st v)
  /\ "parkour-complete" ∈ achievements (st (celebrate v)).
Proof.
  unfold celebrate. cbv zeta.
  match goal with
  | |- context [awardAchievement ?a ?b ?c ?u] =>
      destruct (awardAchievement_st a b c u) as (M & X & K)
  end.
  split; [|split]; [rewrite X | rewrite K | exact M];
    cbn [emit st with_st keys xp SoundManager_play];
    now rewrite st_toastOrNothing.
Qed.

Lemma step_keys (ar : arena) (now : Q) (w : world) (i : instance) :
  keys (st (fst (step ar now (w, i)))) = keys (st w).
Proof.
  rewrite step_world. cbv zeta.
  destruct (won _ _); [rewrite (proj1 (proj2 (celebrate_st _)))|];
    cbn [emit st]; destruct (fell _ _), (jumps _ _);
    unfold SoundManager_play; cbn [emit st];
    rewrite ?st_toastOrNothing; reflexivity.
Qed.

Lemma vx_fold_collide (pls : list platform) :
  forall p : player, vx (fold_left collide pls p) = vx p.
Proof.
  induction pls as [|pl pls IH]; intros p; [reflexivity|].
  simpl. rewrite IH. unfold collide. now destruct (lands p pl).
Qed.

Lemma vx_advance (ar : arena) (now : Q) (w : world) (i : instance) :
  vx (snd (advance ar now (w, i))) = vx (steer (keys (st w)) (body i)).
Proof.
  unfold advance, jump.
  destruct (up (keys (st w)) && onGround _); cbn [snd];
    unfold arenaBounds, collisionPass;
    repeat match goal with
           | |- context [if ?b then _ else _] => destruct b
           end;
    cbn [vx set_x]; now rewrite vx_fold_collide.
Qed.

(** *** Falling out of the arena *)

(** [started] is what [setupParkour] returns for this arena. *)
Example setupParkour_started : setupParkour (Some arena700) 0%Q = Some started.
Proof. reflexivity. Qed.

(** C6, the claim as stated fails on "zero velocity": in the tick that
    resets the body, only the vertical velocity is set to zero.  With [d]
    held, the horizontal velocity after the reset is the walking speed. *)
Lemma fall_keeps_horizontal_velocity :
  let after := step arena700 336%Q walkingOff in
  (inject_Z (clientHeight arena700) < y (snd (advance arena700 336%Q walkingOff)))%Q
  /\ x (body (snd after)) = 20%Q
  /\ vy (body (snd after)) = 0%Q
  /\ vx (body (snd after)) = (29 # 10)%Q
  /\ ~ (vx (body (snd after)) == 0)%Q.
Proof.
  vm_compute. repeat split; intros H; discriminate H.
Qed.

(** The horizontal velocity a tick finds is never read: [step] assigns
    [player.vx] from the keys before its only use. *)
Lemma steer_set_vx (ks : gmap string bool) (v : Q) (p : player) :
  steer ks (set_vx v p) = steer ks p.
Proof. unfold steer. destruct (left ks), (right ks); reflexivity. Qed.

Lemma step_ignores_vx (ar : arena) (now v : Q) (u : world) (i : instance) :
  step ar now (u, mkInstance (set_vx v (body i)) (platforms i) (last i) (running i)
                             (listening i) (frameRequested i))
  = step ar now (u, i).
Proof.
  unfold step, advance.
  cbn [snd body platforms last running listening frameRequested].
  now rewrite steer_set_vx.
Qed.

(** Arenas of height zero are left out of the statement below:
    [setupParkour] lays the level out for [clientHeight || 320], the fall
    check of [step] reads [clientHeight] itself.  In such an arena the body
    spawns at [y = 272] and the first tick puts it at [y = -48]. *)
Example zero_height_reset_is_not_spawn :
  (y (spawn (orDefault 0 320)) == 272)%Q
  /\ (y (body (snd (step (mkArena 700 0) 16%Q
                         (site, mkInstance (spawn (orDefault 0 320))
                                           (layout (orDefault 0 320))
                                           0%Q true true true))))
      == - 48)%Q.
Proof. split; vm_compute; reflexivity. Qed.

(** C6, as amended.  Take an arena whose height is not zero, the same at
    the tick as when the instance was set up.  In a tick whose fall check
    finds the body's [y] beyond the arena's height, the body ends the tick
    at the spawn position of [setupParkour] with vertical velocity zero.
    Its horizontal velocity is the one the tick set from the keys, not zero
    when a direction key is held; whatever it is, the next tick sets it
    again before reading it.  The tick calls the toast sink with the
    "Parkour" fall message exactly once and plays the [page] sound exactly
    once. *)
Theorem fall_resets (ar : arena) (now0 now : Q) (w : world) (i0 i : instance) :
  clientHeight ar <> 0 ->
  setupParkour (Some ar) now0 = Some i0 ->
  (inject_Z (clientHeight ar) < y (snd (advance ar now (w, i))))%Q ->
  let w' := fst (step ar now (w, i)) in
  let i' := snd (step ar now (w, i)) in
  x (body i') = x (body i0)
  /\ (y (body i') == y (body i0))%Q
  /\ vy (body i') = 0%Q
  /\ vx (body i') = vx (steer (keys (st w)) (body i))
  /\ (forall (u : world) (later v : Q),
         step ar later (u, mkInstance (set_vx v (body i')) (platforms i') (last i')
                                      (running i') (listening i') (frameRequested i'))
         = step ar later (u, i'))
  /\ notifications "Parkour" w' = S (notifications "Parkour" w)
  /\ sounds "page" w' = S (sounds "page" w).
Proof.
  intros Hh Hi0 Hy. cbv zeta.
  assert (fell ar (snd (advance ar now (w, i))) = true) as Hf
      by (unfold fell; now apply ltb_true).
  unfold setupParkour in Hi0. injection Hi0 as <-. cbn [body].
  assert (orDefault (clientHeight ar) 320 = clientHeight ar) as ->.
  { unfold orDefault, JS.truthyZ.
    destruct (Z.eqb_spec (clientHeight ar) 0); [contradiction | reflexivity]. }
  assert (body (snd (step ar now (w, i)))
          = set_vy 0%Q (set_y (inject_Z (clientHeight ar) - 48)%Q
                              (set_x 20%Q (snd (advance ar now (w, i)))))) as Hb.
  { rewrite step_body. destruct (advance ar now (w, i)) as [w1 p1].
    rewrite fallReset_snd. cbn [snd] in Hf |- *. now rewrite Hf. }
  split; [|split; [|split; [|split; [|split]]]].
  - now rewrite Hb.
  - rewrite Hb. cbn [y set_vy set_y spawn].
    unfold Qeq, Qminus, Qplus, Qopp, inject_Z. simpl. lia.
  - now rewrite Hb.
  - rewrite Hb. cbn [vx set_vy set_y set_x]. apply vx_advance.
  - intros u later v. apply step_ignores_vx.
  - clear Hb. destruct (advance ar now (w, i)) as [w1 p1] eqn:Ea.
    split; count_open; rewrite Ea; cbn [snd] in Hf |- *; rewrite Hf; count_close.
Qed.

Lemma fall_resets_witness :
  (clientHeight arena700 <> 0
   /\ setupParkour (Some arena700) 0%Q = Some started
   /\ (inject_Z (clientHeight arena700)
       < y (snd (advance arena700 336%Q (holdingD, tumbling))))%Q)
  /\ x (body (snd (step arena700 336%Q (holdingD, tumbling)))) = x (body started)
  /\ (y (body (snd (step arena700 336%Q (holdingD, tumbling)))) == y (body started))%Q
  /\ notifications "Parkour" (fst (step arena700 336%Q (holdingD, tumbling))) = 1%nat.
Proof.
  assert (clientHeight arena700 <> 0) as Hh by (intros E; discriminate E).
  assert (setupParkour (Some arena700) 0%Q = Some started) as Hs by reflexivity.
  assert (inject_Z (clientHeight arena700)
          < y (snd (advance arena700 336%Q (holdingD, tumbling))))%Q as Hy
      by (vm_compute; reflexivity).
  split; [auto|].
  destruct (fall_resets arena700 0%Q 336%Q holdingD started tumbling Hh Hs Hy)
    as (Hx & Hyy & _ & _ & _ & Hn & _).
  split; [exact Hx|]. split; [exact Hyy | exact Hn].
Defined.

(** *** Reaching the end *)

(** Nothing is logged and no frame is requested once no frame is
    pending: frames find nothing to run, and key events and [destroy()]
    do not request one. *)
Lemma run_cons (ar : arena) (wi : world * instance) (e : event) (es : list event) :
  run ar wi (e :: es) = run ar (handle ar wi e) es.
Proof. reflexivity. Qed.

Lemma run_idle (ar : arena) (es : list event) :
  forall (w : world) (i : instance),
    frameRequested i = false ->
    log (fst (run ar (w, i) es)) = log w
    /\ frameRequested (snd (run ar (w, i) es)) = false.
Proof.
  induction es as [|e es IH]; intros w i Hf; [now split|].
  rewrite run_cons. destruct e as [now|k|k|]; cbn [handle]; rewrite ?Hf.
  - now apply IH.
  - destruct (listening i); [exact (IH (keyHandler true k w) i Hf) | now apply IH].
  - destruct (listening i); [exact (IH (keyHandler false k w) i Hf) | now apply IH].
  - exact (IH w (destroy i) Hf).
Qed.

Lemma step_completions (ar : arena) (now : Q) (w : world) (i : instance) :
  notifications "Parkour Complete" (fst (step ar now (w, i)))
  = (notifications "Parkour Complete" w
     + if won ar (body (snd (step ar now (w, i)))) then 1 else 0)%nat.
Proof. count_tick. Qed.

(** Whatever happens to an instance, it announces completion at most
    once. *)
Lemma run_completions (ar : arena) (es : list event) :
  forall (w : world) (i : instance),
    (notifications "Parkour Complete" (fst (run ar (w, i) es))
     <= notifications "Parkour Complete" w + 1)%nat.
Proof.
  induction es as [|e es IH]; intros w i; [simpl; lia|].
  rewrite run_cons. destruct e as [now|k|k|]; cbn [handle].
  - destruct (frameRequested i); [|apply IH].
    destruct (step ar now (w, i)) as [w' i'] eqn:Es.
    pose proof (step_completions ar now w i) as Hc.
    destruct (step_running ar now w i) as (Hr & Hq & _).
    rewrite Es in Hc, Hr, Hq. cbn [fst snd] in Hc, Hr, Hq.
    destruct (won ar (body i')).
    + rewrite Hr in Hq.
      destruct (run_idle ar es w' i' Hq) as (Hl & _).
      unfold notifications in *. rewrite Hl. lia.
    + specialize (IH w' i'). lia.
  - destruct (listening i); [exact (IH (keyHandler true k w) i) | apply IH].
  - destruct (listening i); [exact (IH (keyHandler false k w) i) | apply IH].
  - apply IH.
Qed.

(** C2.  In the tick that ends with the body's [x] beyond
    [clientWidth - 120]: the toast sink gets the "Parkour Complete" message
    exactly once; [xp] becomes [min(100, xp + 15)], so 85 becomes 100;
    [awardAchievement] is applied once for [parkour-complete], which is
    unlocked afterwards and announced once unless it was unlocked before;
    [running] is false and no frame is requested, so whatever follows, no
    further tick runs and nothing more is announced.  Over any course of
    events an instance announces completion at most once. *)
Theorem victory_ends_loop (ar : arena) (now : Q) (w : world) (i : instance) :
  (inject_Z (clientWidth ar - 120) < x (body (snd (step ar now (w, i)))))%Q ->
  let w' := fst (step ar now (w, i)) in
  let i' := snd (step ar now (w, i)) in
  notifications "Parkour Complete" w' = S (notifications "Parkour Complete" w)
  /\ xp (st w') = Z.min 100 (xp (st w) + 15)
  /\ (xp (st w) = 85 -> xp (st w') = 100)
  /\ "parkour-complete" ∈ achievements (st w')
  /\ notifications "Parkour Master" w'
     = (notifications "Parkour Master" w
        + if bool_decide ("parkour-complete" ∈ achievements (st w)) then 0 else 1)%nat
  /\ running i' = false
  /\ frameRequested i' = false
  /\ (forall es : list event,
         ticks (fst (run ar (w', i') es)) = ticks w'
         /\ notifications "Parkour Complete" (fst (run ar (w', i') es))
            = notifications "Parkour Complete" w')
  /\ (forall (es : list event) (v : world) (j : instance),
         (notifications "Parkour Complete" (fst (run ar (v, j) es))
          <= notifications "Parkour Complete" v + 1)%nat).
Proof.
  intros Hx. cbv zeta.
  assert (won ar (body (snd (step ar now (w, i)))) = true) as Hw
      by (unfold won; now apply ltb_true).
  destruct (step_running ar now w i) as (Hr & Hq & _).
  rewrite Hw in Hr. rewrite Hr in Hq.
  assert (xp (st (fst (step ar now (w, i)))) = Z.min 100 (xp (st w) + 15)
          /\ "parkour-complete" ∈ achievements (st (fst (step ar now (w, i)))))
    as [Hxp Hach].
  { rewrite step_world. cbv zeta. rewrite Hw.
    match goal with
    | |- context [celebrate ?u] => destruct (celebrate_st u) as (X & _ & M)
    end.
    split; [|exact M]. rewrite X. cbn [emit st].
    destruct (fell _ _), (jumps _ _); unfold SoundManager_play; cbn [emit st];
      rewrite ?st_toastOrNothing; reflexivity. }
  split; [rewrite step_completions, Hw; lia|].
  split; [exact Hxp|].
  split; [intros E; rewrite Hxp, E; reflexivity|].
  split; [exact Hach|].
  split; [count_open; rewrite Hw; count_close|].
  split; [exact Hr|]. split; [exact Hq|].
  split; [|intros es v j; apply run_completions].
  intros es.
  destruct (step ar now (w, i)) as [w' i'] eqn:Es. cbn [fst snd] in *.
  destruct (run_idle ar es w' i' Hq) as (Hl & _).
  unfold ticks, notifications. now rewrite Hl.
Qed.

Lemma victory_ends_loop_witness :
  (inject_Z (clientWidth arena700 - 120)
   < x (body (snd (step arena700 336%Q (almostThere, finishing)))))%Q
  /\ notifications "Parkour Complete" (fst (step arena700 336%Q (almostThere, finishing)))
     = 1%nat
  /\ xp (st (fst (step arena700 336%Q (almostThere, finishing)))) = 100
  /\ running (snd (step arena700 336%Q (almostThere, finishing))) = false.
Proof.
  assert (inject_Z (clientWidth arena700 - 120)
          < x (body (snd (step arena700 336%Q (almostThere, finishing)))))%Q as Hx
      by (vm_compute; reflexivity).
  split; [exact Hx|].
  destruct (victory_ends_loop arena700 336%Q almostThere finishing Hx)
    as (Hn & _ & H85 & _ & _ & Hr & _).
  split; [exact Hn|]. split; [apply H85; reflexivity | exact Hr].
Defined.

(** *** Stopping the loop *)

Lemma run_destroyed (ar : arena) (es : list event) :
  forall (w : world) (i : instance),
    running i = false ->
    listening i = false ->
    (ticks (fst (run ar (w, i) es)) <= ticks w + 1)%nat
    /\ (frameRequested i = false -> ticks (fst (run ar (w, i) es)) = ticks w)
    /\ keys (st (fst (run ar (w, i) es))) = keys (st w).
Proof.
  induction es as [|e es IH]; intros w i Hr Hl.
  - simpl. repeat split; lia.
  - rewrite run_cons. destruct e as [now|k|k|]; cbn [handle]; rewrite ?Hl.
    + destruct (frameRequested i) eqn:Hq;
        [|destruct (IH w i Hr Hl) as (A & B & C);
          split; [exact A | split; [intros _; exact (B Hq) | exact C]]].
      destruct (step_running ar now w i) as (Hr' & Hq' & Hl').
      pose proof (step_ticks ar now w i) as Ht.
      pose proof (step_keys ar now w i) as Hk.
      destruct (step ar now (w, i)) as [w' i'] eqn:Es. cbn [fst snd] in *.
      assert (running i' = false) as Hr''
          by (rewrite Hr', Hr; now destruct (won ar (body i'))).
      rewrite Hr'' in Hq'. rewrite Hl in Hl'.
      destruct (IH w' i' Hr'' Hl') as (_ & Hsame & Hkeys).
      rewrite (Hsame Hq'), Hkeys, Ht, Hk.
      repeat split; lia.
    + now apply IH.
    + now apply IH.
    + exact (IH w (destroy i) eq_refl eq_refl).
Qed.

(** C5, the claim as stated fails on "no further tick": [destroy()]
    clears [running], which [step] reads only after its work, when it
    decides whether to request the next frame.  The frame requested before
    the call still runs one tick; here it moves the body, [d] being held. *)
Lemma tick_after_destroy :
  let after := run arena700 (site, started) [KeyDown "d"; Destroy; Frame 16%Q] in
  ~ (ticks (fst after) = ticks site /\ (x (body (snd after)) == x (body started))%Q).
Proof.
  vm_compute. intros [H _]. discriminate H.
Qed.

(** C5, as amended.  [destroy()] is idempotent; after it [running] is
    false and the key handler is off [window], so no later key event
    changes the key map; and no frame is requested any more.  The one frame
    that was already requested when [destroy()] was called still runs its
    tick, so at most one tick follows the call, and none if no frame was
    pending. *)
Theorem destroy_stops_rescheduling (ar : arena) (w : world) (i : instance)
        (es : list event) :
  destroy (destroy i) = destroy i
  /\ run ar (w, i) [Destroy; Destroy] = run ar (w, i) [Destroy]
  /\ running (destroy i) = false
  /\ listening (destroy i) = false
  /\ keys (st (fst (run ar (w, destroy i) es))) = keys (st w)
  /\ (ticks (fst (run ar (w, destroy i) es)) <= ticks w + 1)%nat
  /\ (frameRequested i = false -> ticks (fst (run ar (w, destroy i) es)) = ticks w)
  /\ (frameRequested i = true ->
      forall now : Q,
        ticks (fst (run ar (w, destroy i) [Frame now])) = S (ticks w)
        /\ frameRequested (snd (run ar (w, destroy i) [Frame now])) = false).
Proof.
  destruct (run_destroyed ar es w (destroy i) eq_refl eq_refl) as (Hle & Hsame & Hk).
  repeat split; try assumption.
  - unfold run. cbn [fold_left handle destroy frameRequested]. rewrite H.
    apply step_ticks.
  - unfold run. cbn [fold_left handle destroy frameRequested]. rewrite H.
    destruct (step_running ar now w (destroy i)) as (Hr & Hq & _).
    rewrite Hq, Hr. cbn [running destroy].
    now destruct (won ar _).
Qed.

(** *** Resting on a platform *)

(** The time step is between 0 and 32 / 16.666 when the frame's
    timestamp is not before the last one. *)
Lemma dtOf_bounds (now last : Q) :
  (last <= now)%Q -> (0 <= dtOf now last /\ dtOf now last <= 2)%Q.
Proof.
  intros H. unfold dtOf, Qdiv.
  change (/ (16666 # 1000))%Q with (1000 # 16666)%Q.
  destruct (Q.min_spec 32 (now - last)) as [[L E]|[L E]]; rewrite E; lra.
Qed.

Ltac fields :=
  cbn [x y vx vy w h onGround speed jumpStrength pl_x pl_y pl_w pl_h
       snap set_x set_y set_vx set_vy set_onGround].

(** Decide the tests of an unfolded pass one platform at a time, from
    the first platform visited. *)
Ltac visit_platforms :=
  cbn [fold_left];
  repeat match goal with
         | |- context [collide ?p ?q] =>
             lazymatch p with
             | context [collide _ _] => fail
             | _ =>
                 first [ rewrite (collide_miss p q)
                           by (unfold landsOn; fields; intros (? & ? & _); lra)
                       | rewrite (collide_hit p q)
                           by (unfold landsOn; fields; repeat split; lra) ]
             end
         end;
  fields.

(** A body of width 20 that meets the landing condition of one platform
    of the level is snapped onto that platform by the pass, and by no
    other: the platforms are more than a body's width apart. *)
Lemma layout_pass_lands (H : Z) (p : player) (pl : platform) :
  In pl (layout H) ->
  (w p == 20)%Q ->
  landsOn p pl ->
  let p' := fold_left collide (layout H) p in
  x p' = x p /\ y p' = (pl_y pl - h p)%Q /\ vy p' = 0%Q /\ onGround p' = true.
Proof.
  intros Hin Hw (L1 & L2 & L3 & L4 & L5). cbv zeta.
  unfold layout in *. cbn [In] in Hin.
  destruct Hin as [E|[E|[E|[E|[E|[]]]]]]; subst pl; cbn [pl_x pl_y pl_w pl_h] in *;
    visit_platforms; repeat split.
Qed.

(** C8, the claim as stated fails when the jump key is held: there is no
    horizontal input, the body rests on the first platform, and the tick
    lifts it off. *)
Lemma resting_body_jumps :
  let p := body (snd landed) in
  let p' := body (snd (step arena700 32%Q landed)) in
  left (keys (st (fst landed))) = false
  /\ right (keys (st (fst landed))) = false
  /\ onGround p = true
  /\ vy p = 0%Q
  /\ (y p + h p == inject_Z (320 - 28))%Q
  /\ ~ ((y p' == y p)%Q /\ onGround p' = true).
Proof.
  vm_compute. repeat split; try (intros H; discriminate H).
  intros [H _]. discriminate H.
Qed.

(** C8, as amended.  Take a body of the level (width 20) that rests on
    one of its platforms: horizontally over it, bottom edge on its top,
    vertical velocity zero, [onGround] true.  If no movement key and no
    jump key is held, the frame's timestamp is not before the last one, and
    the body is inside the arena (not left of 0, not right of
    [clientWidth - 6], not below [clientHeight]), then one tick leaves [x]
    and [y] as they were, the vertical velocity zero and [onGround] true:
    the tick lets the body sink by gravity and the collision pass puts it
    back. *)
Theorem rest_is_fixed_point (ar : arena) (H : Z) (now : Q) (v : world) (i : instance)
        (pl : platform) :
  platforms i = layout H ->
  In pl (layout H) ->
  (w (body i) == 20)%Q ->
  (pl_x pl < x (body i) + w (body i))%Q ->
  (x (body i) < pl_x pl + pl_w pl)%Q ->
  (y (body i) + h (body i) == pl_y pl)%Q ->
  (vy (body i) == 0)%Q ->
  onGround (body i) = true ->
  idle (keys (st v)) ->
  (last i <= now)%Q ->
  (0 <= x (body i))%Q ->
  (x (body i) + w (body i) <= inject_Z (clientWidth ar - 6))%Q ->
  (y (body i) <= inject_Z (clientHeight ar))%Q ->
  let p' := body (snd (step ar now (v, i))) in
  (x p' == x (body i))%Q
  /\ (y p' == y (body i))%Q
  /\ (vy p' == 0)%Q
  /\ onGround p' = true.
Proof.
  intros Hpl Hin Hw Hx1 Hx2 Hy Hvy Hg (Hl & Hr & Hu) Hnow Hb1 Hb2 Hb3. cbv zeta.
  destruct (dtOf_bounds now (last i) Hnow) as (Hd0 & Hd2).
  set (dt := dtOf now (last i)) in *.
  assert (advance ar now (v, i)
          = (v, arenaBounds ar (collisionPass (layout H)
                                  (move dt (pull dt (set_vx 0%Q (body i)))))))
    as Ea.
  { unfold advance, jump, steer. rewrite Hl, Hr, Hu, Hpl. reflexivity. }
  rewrite step_body, Ea, fallReset_snd. clear Ea.
  unfold collisionPass, move, pull.
  set (p1 := set_onGround false _).
  assert (landsOn p1 pl) as Hland.
  { subst p1. unfold landsOn. fields. repeat split; try lra; nra. }
  destruct (layout_pass_lands H p1 pl Hin) as (Ex & Ey & Ev & Eg);
    [subst p1; fields; exact Hw | exact Hland |].
  set (p2 := fold_left collide (layout H) p1) in *.
  assert (x p1 == x (body i))%Q as Ex1 by (subst p1; fields; lra).
  assert (w p2 = w (body i)) as Ew2.
  { subst p2. clear. generalize (layout H) as pls. subst p1.
    set (q := set_onGround false _).
    assert (w q = w (body i)) as <- by reflexivity. clearbody q.
    intros pls. revert q. induction pls as [|a pls IH]; intros q; [reflexivity|].
    simpl. rewrite IH. unfold collide. now destruct (lands q a). }
  assert (h p1 = h (body i)) as Eh1 by reflexivity.
  unfold arenaBounds.
  rewrite (ltb_false (x p2) 0) by (rewrite Ex; lra).
  rewrite (ltb_false _ (x p2 + w p2)) by (rewrite Ex, Ew2; lra).
  unfold fell. rewrite (ltb_false _ (y p2)) by (rewrite Ey, Eh1; lra).
  rewrite Ex, Ey, Ev, Eg, Eh1. repeat split; lra.
Qed.

Lemma rest_is_fixed_point_witness :
  (platforms resting = layout 320
   /\ In firstPlatform (layout 320)
   /\ (w (body resting) == 20)%Q
   /\ (pl_x firstPlatform < x (body resting) + w (body resting))%Q
   /\ (x (body resting) < pl_x firstPlatform + pl_w firstPlatform)%Q
   /\ (y (body resting) + h (body resting) == pl_y firstPlatform)%Q
   /\ (vy (body resting) == 0)%Q
   /\ onGround (body resting) = true
   /\ idle (keys (st site))
   /\ (last resting <= 32)%Q
   /\ (0 <= x (body resting))%Q
   /\ (x (body resting) + w (body resting) <= inject_Z (clientWidth arena700 - 6))%Q
   /\ (y (body resting) <= inject_Z (clientHeight arena700))%Q)
  /\ ((x (body (snd (step arena700 32%Q (site, resting)))) == x (body resting))%Q
      /\ (y (body (snd (step arena700 32%Q (site, resting)))) == y (body resting))%Q
      /\ (vy (body (snd (step arena700 32%Q (site, resting)))) == 0)%Q
      /\ onGround (body (snd (step arena700 32%Q (site, resting)))) = true).
Proof.
  assert (idle (keys (st site))) as Hidle by (repeat split; reflexivity).
  split.
  - repeat split; try reflexivity; try exact (proj1 Hidle);
      try exact (proj1 (proj2 Hidle)); try exact (proj2 (proj2 Hidle));
      try (left; reflexivity); try (vm_compute; intros E; discriminate E).
  - apply (rest_is_fixed_point arena700 320 32%Q site resting firstPlatform);
      try reflexivity; try exact Hidle; try (left; reflexivity);
      try (vm_compute; intros E; discriminate E).
Defined.

(** *** After a reset *)

(** A tick announces a fall exactly when its fall check fires. *)
Lemma step_fall_notices (ar : arena) (now : Q) (w : world) (i : instance) :
  notifications "Parkour" (fst (step ar now (w, i)))
  = (notifications "Parkour" w
     + if fell ar (snd (advance ar now (w, i))) then 1 else 0)%nat.
Proof. count_tick. Qed.

Lemma y_fold_collide (pls : list platform) :
  forall p : player, (y (fold_left collide pls p) <= y p)%Q.
Proof.
  induction pls as [|pl pls IH]; intros p; [simpl; lra|].
  simpl. eapply Qle_trans; [apply IH|].
  unfold collide. destruct (lands p pl) eqn:E; [|lra].
  apply lands_landsOn in E. destruct E as (_ & _ & E & _).
  cbn [snap y set_onGround set_vy set_y]. lra.
Qed.

(** The tick after a reset does not reset again: the body starts 48 pixels
    above the arena's height with no vertical velocity, and one tick moves it
    down by less than two pixels. *)
Lemma no_second_reset (ar : arena) (now : Q) (w : world) (i : instance) :
  (last i <= now)%Q ->
  (y (body i) <= inject_Z (clientHeight ar) - 48)%Q ->
  (vy (body i) == 0)%Q ->
  (0 <= jumpStrength (body i))%Q ->
  fell ar (snd (advance ar now (w, i))) = false.
Proof.
  intros Hnow Hy Hv Hj.
  destruct (dtOf_bounds now (last i) Hnow) as (Hd0 & Hd2).
  unfold fell. apply ltb_false.
  unfold advance, jump. set (dt := dtOf now (last i)) in *.
  assert (jumpStrength (steer (keys (st w)) (body i)) = jumpStrength (body i)
          /\ vy (steer (keys (st w)) (body i)) = vy (body i)
          /\ y (steer (keys (st w)) (body i)) = y (body i)) as (Sj & Sv & Sy)
      by (unfold steer; destruct (left (keys (st w))), (right (keys (st w)));
          repeat split).
  destruct (up (keys (st w)) && onGround _); cbn [snd];
    unfold arenaBounds;
    repeat match goal with
           | |- context [if ?b then _ else _] => destruct b
           end;
    cbn [y set_x];
    (eapply Qle_trans; [apply y_fold_collide|]);
    unfold move, pull; cbn [y vy set_x set_y set_vy set_onGround jumpStrength];
    rewrite ?Sj, ?Sv, ?Sy; nra.
Qed.

(** *** Where every tick leaves the body *)

Lemma w_fold_collide (pls : list platform) :
  forall p : player, w (fold_left collide pls p) = w p.
Proof.
  induction pls as [|pl pls IH]; intros p; [reflexivity|].
  simpl. rewrite IH. unfold collide. now destruct (lands p pl).
Qed.

Lemma w_steer (ks : gmap string bool) (p : player) : w (steer ks p) = w p.
Proof. unfold steer. destruct (left ks), (right ks); reflexivity. Qed.

(** In an arena at least 46 pixels wide, a body of width 20 ends every tick
    inside the arena: not left of 0, not right of [clientWidth - 6], not
    below [clientHeight]; and it keeps its width.  These are the bounds the
    rest state is assumed to lie in. *)
Lemma step_in_arena (ar : arena) (now : Q) (v : world) (i : instance) :
  46 <= clientWidth ar ->
  (w (body i) == 20)%Q ->
  let p' := body (snd (step ar now (v, i))) in
  (0 <= x p')%Q
  /\ (x p' + w p' <= inject_Z (clientWidth ar - 6))%Q
  /\ (y p' <= inject_Z (clientHeight ar))%Q
  /\ (w p' == 20)%Q.
Proof.
  intros Hcw Hw. cbv zeta. rewrite step_body.
  assert (inject_Z 46 <= inject_Z (clientWidth ar))%Q as Hq
      by (rewrite <- Zle_Qle; exact Hcw).
  assert (inject_Z (clientWidth ar - 6) == inject_Z (clientWidth ar) - 6)%Q as Hm
      by (unfold Qeq, Qminus, Qplus, Qopp, inject_Z; simpl; lia).
  change (inject_Z 46) with 46%Q in Hq.
  destruct (advance ar now (v, i)) as [v1 p1] eqn:Ea.
  assert (w p1 = w (body i) /\ (0 <= x p1)%Q
          /\ (x p1 + w p1 <= inject_Z (clientWidth ar - 6))%Q) as (Ew & Hx0 & Hx1).
  { assert (p1 = snd (advance ar now (v, i))) as -> by now rewrite Ea.
    clear Ea. unfold advance, jump.
    destruct (up (keys (st v)) && onGround _); cbn [snd];
      unfold arenaBounds, collisionPass;
      repeat match goal with
             | |- context [JS.ltb ?a ?b] => destruct (ltb_spec a b)
             end;
      cbn [x w set_x] in *; rewrite ?w_fold_collide in *;
      unfold move, pull in *; cbn [w set_x set_y set_vy set_onGround] in *;
      rewrite ?w_steer in *; repeat split; first [reflexivity | lra]. }
  rewrite fallReset_snd. unfold fell.
  destruct (ltb_spec (inject_Z (clientHeight ar)) (y p1)) as [Hf|Hf];
    cbn [x y w set_x set_y set_vy]; rewrite ?Ew in *; repeat split; lra.
Qed.

End Physics.

(** ** Levels: what [addXP] keeps *)

Module Levels.
Import Engine.
Import Carry.
Import Ledger.

Lemma paid_add (a k : nat) :
  forall t : Z, paid (a + k) t = paid a t + paid k (Nat.iter a JS.floor_times_1_5 t).
Proof.
  induction a as [|a IH]; intros t.
  - reflexivity.
  - cbn [Nat.add paid]. rewrite IH, Nat.iter_succ_r. lia.
Qed.

Lemma iter_positive (k : nat) (t : Z) :
  0 < t -> t <= Nat.iter k JS.floor_times_1_5 t.
Proof.
  intros Ht. induction k as [|k IH]; [simpl; lia | rewrite Nat.iter_succ].
  pose proof (Progression.floor_times_1_5_grows (Nat.iter k JS.floor_times_1_5 t)). lia.
Qed.

Lemma paid_nonneg (k : nat) : forall t : Z, 0 < t -> 0 <= paid k t.
Proof.
  induction k as [|k IH]; intros t Ht; cbn [paid]; [lia|].
  pose proof (Progression.floor_times_1_5_grows t Ht).
  specialize (IH (JS.floor_times_1_5 t)). lia.
Qed.

Lemma threshold_positive (l : Z) : 100 <= threshold l.
Proof. unfold threshold. apply iter_positive. lia. Qed.

Lemma threshold_add (l : Z) (k : nat) :
  1 <= l -> threshold (l + Z.of_nat k) = Nat.iter k JS.floor_times_1_5 (threshold l).
Proof.
  intros Hl. unfold threshold.
  replace (Z.to_nat (l + Z.of_nat k - 1)) with (k + Z.to_nat (l - 1))%nat by lia.
  apply Nat.iter_add.
Qed.

Lemma levelToasts_S (l : Z) (k : nat) :
  levelToasts l (S k)
  = ("Level Up!", "Reached level " +:+ pretty (l + 1)) :: levelToasts (l + 1) k.
Proof.
  unfold levelToasts. cbn [seq map]. f_equal.
  rewrite <- seq_shift, map_map. apply map_ext. intros j.
  do 3 f_equal. lia.
Qed.

(** What [processToastQueue] and [showToast] leave alone. *)
Lemma surroundings_processToastQueue (w : world) :
  surroundings (processToastQueue w) = surroundings w.
Proof.
  unfold processToastQueue. destruct (isShowingToast w); [reflexivity|].
  destruct (toastQueue w); reflexivity.
Qed.

Lemma surroundings_showToast (t d : string) (w : world) :
  surroundings (showToast t d w) = surroundings w.
Proof. unfold showToast. now rewrite surroundings_processToastQueue. Qed.

Lemma toasts_showToast (t d : string) (w : world) :
  toasts (showToast t d w) = toasts w ++ [(t, d)].
Proof.
  unfold toasts.
  rewrite (Toasts.handle_order w (showToast t d w) (Show t d) eq_refl).
  cbn [ToastLog.requested flat_map]. now rewrite app_nil_r.
Qed.

Lemma toasts_emit (e : effect) (w : world) :
  (forall n t, e <> appended n t) -> toasts (emit e w) = toasts w.
Proof.
  intros He. unfold toasts, emit. cbn [log].
  now rewrite Toasts.displayed_snoc_other by exact He.
Qed.

(** One pass of the loop. *)
Lemma levelUp_frame (w : world) :
  settings (st (levelUp w)) = settings (st w)
  /\ surroundings (levelUp w) = surroundings w
  /\ toasts (levelUp w)
     = toasts w ++ [("Level Up!", "Reached level " +:+ pretty (level (st w) + 1))].
Proof.
  unfold levelUp. repeat split.
  - cbn [emit st]. now rewrite Progression.st_showToast.
  - change (surroundings (emit ?e ?v)) with (surroundings v).
    now rewrite surroundings_showToast.
  - rewrite toasts_emit by discriminate. now rewrite toasts_showToast.
Qed.

(** Whatever the loop returns, it returns after a number [k] of passes
    that explains every change. *)
Lemma levelUpLoop_sound (fuel : nat) :
  forall w w' : world,
    levelUpLoop fuel w = Some w' ->
    exists k : nat,
      level (st w') = level (st w) + Z.of_nat k
      /\ xpToNext (st w') = Nat.iter k JS.floor_times_1_5 (xpToNext (st w))
      /\ xp (st w') + paid k (xpToNext (st w)) = xp (st w)
      /\ xp (st w') < xpToNext (st w')
      /\ settings (st w') = settings (st w)
      /\ surroundings w' = surroundings w
      /\ toasts w' = toasts w ++ levelToasts (level (st w)) k.
Proof.
  induction fuel as [|fuel IH]; intros w w' H; cbn [levelUpLoop] in H;
    destruct (xpToNext (st w) <=? xp (st w)) eqn:E.
  - discriminate.
  - injection H as <-. exists 0%nat. cbn [Nat.iter paid levelToasts seq map].
    rewrite app_nil_r. repeat split; lia.
  - destruct (IH _ _ H) as (k & Hl & Ht & Hx & Hlt & Hs & Hr & Hq).
    destruct (Progression.levelUp_fields w) as (Fx & Fl & Ft).
    destruct (levelUp_frame w) as (Gs & Gr & Gq).
    exists (S k). rewrite levelToasts_S, Nat.iter_succ_r. cbn [paid].
    rewrite Hl, Ht, Hs, Hr, Hq, Fl, Ft, Gs, Gr, Gq, <- app_assoc.
    rewrite Ft, Fx in Hx.
    repeat split; try lia. now rewrite Ht, Ft in Hlt.
  - injection H as <-. exists 0%nat. cbn [Nat.iter paid levelToasts seq map].
    rewrite app_nil_r. repeat split; lia.
Qed.

(** [addXP] on a game in step: it returns, the game is in step again, and
    nothing but progress, toasts and the log has changed. *)
Lemma addXP_spec (fuel : nat) (amount : Z) (w : world) :
  inStep (st w) ->
  0 <= amount ->
  (Z.to_nat (xp (st w) + amount) <= fuel)%nat ->
  exists w' : world,
    addXP fuel amount w = Some w'
    /\ inStep (st w')
    /\ earned (st w') = earned (st w) + amount
    /\ level (st w) <= level (st w')
    /\ settings (st w') = settings (st w)
    /\ surroundings w' = surroundings w
    /\ toasts w' = toasts w ++ levelToasts (level (st w))
                                            (Z.to_nat (level (st w') - level (st w))).
Proof.
  intros (Hl & Ht & Hx) Ha Hf.
  pose proof (threshold_positive (level (st w))) as Hp.
  set (v := with_st (set_progress (xp (st w) + amount) (level (st w)) (xpToNext (st w))
                                  (st w)) w).
  destruct (Progression.levelUpLoop_ends fuel v) as (k0 & w1 & Hrun & Hxx & _);
    [cbn; lia | cbn; lia | cbn; lia |].
  destruct (levelUpLoop_sound fuel v w1 Hrun) as (k & Kl & Kt & Kx & _ & Ks & Kr & Kq).
  cbn [v st with_st set_progress level xpToNext xp] in Kl, Kt, Kx.
  exists (emit hudUpdated w1). unfold addXP. fold v. rewrite Hrun.
  cbn [emit st].
  assert (Hk : Z.to_nat (level (st w1) - level (st w)) = k) by lia.
  split; [reflexivity|]. split; [|split; [|split; [lia|split; [exact Ks|split]]]].
  - unfold inStep. rewrite Kl, Kt, Ht, threshold_add by lia.
    repeat split; try lia. rewrite <- threshold_add, <- Kl by lia.
    rewrite Kl, threshold_add by lia. rewrite <- Ht, <- Kt. lia.
  - unfold earned. rewrite Kl.
    replace (Z.to_nat (level (st w) + Z.of_nat k - 1))
      with (Z.to_nat (level (st w) - 1) + k)%nat by lia.
    rewrite paid_add. fold (threshold (level (st w))). rewrite <- Ht. lia.
  - exact Kr.
  - rewrite Hk, toasts_emit by discriminate. exact Kq.
Qed.

Lemma levelToasts_add (l : Z) (k1 k2 : nat) :
  levelToasts l k1 ++ levelToasts (l + Z.of_nat k1) k2 = levelToasts l (k1 + k2).
Proof.
  revert l. induction k1 as [|k1 IH]; intros l.
  - cbn [Nat.add]. replace (l + Z.of_nat 0) with l by lia. reflexivity.
  - cbn [Nat.add]. rewrite !levelToasts_S. cbn [app]. f_equal.
    rewrite <- IH. do 2 f_equal. lia.
Qed.

(** The width [updateXP] gives the bar of a game in step. *)
Lemma xpProgress_range (s : state) :
  inStep s -> (0 <= xpProgress s /\ xpProgress s < 100)%Q.
Proof.
  intros (_ & _ & Hx). unfold xpProgress.
  assert (0 < inject_Z (xpToNext s))%Q as Hp
      by (change 0%Q with (inject_Z 0); rewrite <- Zlt_Qlt; lia).
  assert (0 <= inject_Z (xp s))%Q as H0
      by (change 0%Q with (inject_Z 0); rewrite <- Zle_Qle; lia).
  assert (inject_Z (xp s) < inject_Z (xpToNext s))%Q as Hlt
      by (rewrite <- Zlt_Qlt; lia).
  split.
  - apply Qmult_le_0_compat; [|discriminate].
    apply Qle_shift_div_l; [exact Hp|]. now rewrite Qmult_0_l.
  - assert (inject_Z (xp s) / inject_Z (xpToNext s) < 1)%Q as H1
        by (apply Qlt_shift_div_r; [exact Hp | now rewrite Qmult_1_l]).
    lra.
Qed.

(** X1.  XP is conserved.  In a game in step, any series of [addXP] calls
    with non-negative amounts returns; the XP in hand plus the thresholds
    paid has grown by exactly the sum of the amounts, level and threshold
    are in step again and have not gone down, the XP bar is at least 0 and
    below 100 percent wide, and the series has asked for one "Level Up!"
    toast per level reached, in order. *)
Theorem xp_is_conserved (fuel : nat) (amounts : list Z) :
  forall w : world,
    inStep (st w) ->
    Forall (fun a => 0 <= a) amounts ->
    (Z.to_nat (earned (st w) + total amounts) <= fuel)%nat ->
    exists w' : world,
      addXPs fuel amounts w = Some w'
      /\ inStep (st w')
      /\ earned (st w') = earned (st w) + total amounts
      /\ level (st w) <= level (st w')
      /\ xpToNext (st w) <= xpToNext (st w')
      /\ (0 <= xpProgress (st w') /\ xpProgress (st w') < 100)%Q
      /\ toasts w'
         = toasts w ++ levelToasts (level (st w))
                                   (Z.to_nat (level (st w') - level (st w))).
Proof.
  induction amounts as [|a r IH]; intros w Hs Ha Hf.
  - exists w. cbn [addXPs total fold_right]. rewrite Z.sub_diag, Z.add_0_r.
    cbn [Z.to_nat levelToasts seq map]. rewrite app_nil_r.
    split; [reflexivity|]. split; [exact Hs|]. split; [lia|]. split; [lia|].
    split; [lia|]. split; [exact (xpProgress_range _ Hs) | reflexivity].
  - inversion Ha as [|? ? Ha0 Har]; subst.
    cbn [total fold_right] in Hf |- *. fold (total r) in Hf |- *.
    assert (0 <= total r) as Hr.
    { clear - Har. induction Har; cbn [total fold_right]; [lia|]. fold (total l). lia. }
    assert (0 <= paid (Z.to_nat (level (st w) - 1)) 100) as Hp
        by (apply paid_nonneg; lia).
    destruct (addXP_spec fuel a w Hs Ha0) as (w1 & E1 & S1 & N1 & L1 & _ & _ & Q1).
    { unfold earned in Hf. lia. }
    destruct (IH w1 S1 Har) as (w2 & E2 & S2 & N2 & L2 & T2 & P2 & Q2).
    { lia. }
    exists w2. cbn [addXPs]. rewrite E1.
    split; [exact E2|]. split; [exact S2|]. split; [lia|]. split; [lia|].
    split; [|split; [exact P2|]].
    + destruct Hs as (Hl & Ht & _). destruct S1 as (_ & Ht1 & _).
      assert (threshold (level (st w)) <= threshold (level (st w1))) as Hm.
      { replace (level (st w1))
          with (level (st w) + Z.of_nat (Z.to_nat (level (st w1) - level (st w)))) by lia.
        rewrite threshold_add by lia. apply iter_positive.
        pose proof (threshold_positive (level (st w))). lia. }
      lia.
    + rewrite Q2, Q1, <- app_assoc. f_equal.
      set (k1 := Z.to_nat (level (st w1) - level (st w))).
      set (k2 := Z.to_nat (level (st w2) - level (st w1))).
      replace (level (st w1)) with (level (st w) + Z.of_nat k1) by (unfold k1; lia).
      rewrite levelToasts_add. f_equal. unfold k1, k2. lia.
Qed.

Lemma xp_is_conserved_witness :
  (inStep (st initialWorld)
   /\ Forall (fun a => 0 <= a) gains
   /\ (Z.to_nat (earned (st initialWorld) + total gains) <= 285)%nat)
  /\ exists w' : world,
      addXPs 285 gains initialWorld = Some w'
      /\ earned (st w') = 285
      /\ toasts w' = [("Level Up!", "Reached level 2"); ("Level Up!", "Reached level 3")].
Proof.
  assert (inStep (st initialWorld)) as Hs
      by (unfold inStep; repeat split; vm_compute; congruence).
  assert (Forall (fun a => 0 <= a) gains) as Ha
      by (repeat constructor; lia).
  assert (Z.to_nat (earned (st initialWorld) + total gains) <= 285)%nat as Hf
      by (vm_compute; lia).
  split; [auto|].
  destruct (xp_is_conserved 285 gains initialWorld Hs Ha Hf)
    as (w' & E & _ & N & _ & _ & _ & Q).
  exists w'. split; [exact E|]. split; [exact N|].
  rewrite Q. vm_compute in E. injection E as <-. reflexivity.
Defined.

End Levels.

(** ** Achievements and the listeners that reward *)

Module Achievements.
Import Engine.
Import Carry.
Import Ledger.
Import Reload.

Lemma settings_fields (s s' : state) :
  settings s' = settings s ->
  unlockedAchievements s' = unlockedAchievements s
  /\ currentScreen s' = currentScreen s
  /\ currentBiome s' = currentBiome s
  /\ hotbarIndex s' = hotbarIndex s
  /\ volume s' = volume s
  /\ sfxVolume s' = sfxVolume s
  /\ darkTheme s' = darkTheme s.
Proof. unfold settings. intros H. injection H. intros. repeat split; assumption. Qed.

Lemma surroundings_fields (w w' : world) :
  surroundings w' = surroundings w ->
  clock w' = clock w
  /\ localStorage w' = localStorage w
  /\ storageWritable w' = storageWritable w.
Proof. unfold surroundings. intros H. injection H. intros. repeat split; assumption. Qed.

Lemma union_known (U : gset string) (t : string) : t ∈ U -> U ∪ {[ t ]} = U.
Proof.
  intros H. rewrite (union_comm_L U). apply subseteq_union_1_L.
  now apply singleton_subseteq_l.
Qed.

Lemma st_save (w : world) : st (save w) = st w.
Proof. unfold save. now destruct (storageWritable w). Qed.

Lemma toasts_save (w : world) : toasts (save w) = toasts w.
Proof.
  unfold save. destruct (storageWritable w); [reflexivity|].
  now rewrite Levels.toasts_emit by discriminate.
Qed.

(** The first call for a title, on a game in step. *)
Lemma unlockAchievement_first (fuel : nat) (title description : string) (w : world) :
  inStep (st w) ->
  (Z.to_nat (xp (st w) + 25) <= fuel)%nat ->
  title ∉ unlockedAchievements (st w) ->
  exists w1 : world,
    unlockAchievement fuel title description w
    = Some (save (emit (played "achievement")
                   (showToast ("Achievement: " +:+ title) description w1)))
    /\ inStep (st w1)
    /\ earned (st w1) = earned (st w) + 25
    /\ level (st w) <= level (st w1)
    /\ unlockedAchievements (st w1) = unlockedAchievements (st w) ∪ {[ title ]}
    /\ surroundings w1 = surroundings w
    /\ toasts w1 = toasts w ++ levelToasts (level (st w))
                                            (Z.to_nat (level (st w1) - level (st w))).
Proof.
  intros Hs Hf Hn. unfold unlockAchievement.
  rewrite bool_decide_false by exact Hn.
  set (v := with_st (set_unlockedAchievements (unlockedAchievements (st w) ∪ {[title]})
                                              (st w)) w).
  destruct (Levels.addXP_spec fuel 25 v) as (w1 & E & S1 & N1 & L1 & G1 & R1 & Q1);
    [exact Hs | lia | exact Hf |].
  exists w1. rewrite E.
  destruct (settings_fields _ _ G1) as (U & _).
  repeat split; try assumption; try apply S1.
Qed.

(** What [unlockAchievement] does on a game in step. *)
Lemma unlockAchievement_spec (fuel : nat) (title description : string) (w : world) :
  inStep (st w) ->
  (Z.to_nat (xp (st w) + 25) <= fuel)%nat ->
  exists w' : world,
    unlockAchievement fuel title description w = Some w'
    /\ unlockedAchievements (st w') = unlockedAchievements (st w) ∪ {[ title ]}
    /\ inStep (st w')
    /\ (title ∈ unlockedAchievements (st w) -> w' = w)
    /\ (title ∉ unlockedAchievements (st w) ->
        earned (st w') = earned (st w) + 25
        /\ toasts w'
           = toasts w
             ++ levelToasts (level (st w)) (Z.to_nat (level (st w') - level (st w)))
             ++ [("Achievement: " +:+ title, description)]).
Proof.
  intros Hs Hf.
  destruct (decide (title ∈ unlockedAchievements (st w))) as [Hin|Hn].
  - exists w. unfold unlockAchievement. rewrite bool_decide_true by exact Hin.
    split; [reflexivity|].
    split; [symmetry; apply union_known, Hin|].
    split; [exact Hs|]. split; [reflexivity | contradiction].
  - destruct (unlockAchievement_first fuel title description w Hs Hf Hn)
      as (w1 & E & S1 & N1 & L1 & U1 & R1 & Q1).
    eexists. split; [exact E|].
    rewrite st_save. cbn [emit st]. rewrite Progression.st_showToast.
    split; [exact U1|]. split; [exact S1|]. split; [contradiction|].
    intros _. split; [exact N1|].
    rewrite toasts_save, Levels.toasts_emit by discriminate.
    now rewrite Levels.toasts_showToast, Q1, <- app_assoc.
Qed.

(** X2.  An achievement is unlocked once.  In a game in step,
    [unlockAchievement] returns with the title in the set; a title that was
    not there yet earns 25 XP, keeps level and threshold in step and asks
    for its "Achievement: .." toast after the "Level Up!" toasts of the
    levels reached, and a title that was there changes nothing.  After it
    has returned, every further call with the same title returns the world
    as it is. *)
Theorem unlockAchievement_once (fuel : nat) (title description : string) (w : world) :
  inStep (st w) ->
  (Z.to_nat (xp (st w) + 25) <= fuel)%nat ->
  exists w' : world,
    unlockAchievement fuel title description w = Some w'
    /\ unlockedAchievements (st w') = unlockedAchievements (st w) ∪ {[ title ]}
    /\ inStep (st w')
    /\ (title ∈ unlockedAchievements (st w) -> w' = w)
    /\ (title ∉ unlockedAchievements (st w) ->
        earned (st w') = earned (st w) + 25
        /\ toasts w'
           = toasts w
             ++ levelToasts (level (st w)) (Z.to_nat (level (st w') - level (st w)))
             ++ [("Achievement: " +:+ title, description)])
    /\ (forall (fuel' : nat) (description' : string),
           unlockAchievement fuel' title description' w' = Some w').
Proof.
  intros Hs Hf.
  destruct (unlockAchievement_spec fuel title description w Hs Hf)
    as (w' & E & U & S' & Same & Fresh).
  exists w'. do 5 (split; [assumption|]).
  intros fuel' description'. unfold unlockAchievement.
  rewrite bool_decide_true; [reflexivity|].
  rewrite U. apply elem_of_union_r, elem_of_singleton. reflexivity.
Qed.

Lemma unlockAchievement_once_witness :
  (inStep (st initialWorld) /\ (Z.to_nat (xp (st initialWorld) + 25) <= 25)%nat)
  /\ exists w' : world,
      unlockAchievement 25 "First Block" "You broke your first block!" initialWorld
      = Some w'
      /\ unlockedAchievements (st w') = ∅ ∪ {[ "First Block" ]}
      /\ unlockAchievement 0 "First Block" "again" w' = Some w'.
Proof.
  assert (inStep (st initialWorld)) as Hs
      by (unfold inStep; repeat split; vm_compute; congruence).
  assert (Z.to_nat (xp (st initialWorld) + 25) <= 25)%nat as Hf by (vm_compute; lia).
  split; [auto|].
  destruct (unlockAchievement_once 25 "First Block" "You broke your first block!"
                                   initialWorld Hs Hf)
    as (w' & E & U & _ & _ & _ & I).
  exists w'. split; [exact E|]. split; [exact U | apply I].
Defined.

(** X3.  An unlocked achievement is on disk before the call returns.  When
    a title is unlocked for the first time and the storage can be written,
    a reload of the page right after the call finds the achievement set
    with the new title, the XP in hand and the level, while the threshold
    is the constructor's 100 again. *)
Theorem unlockAchievement_persists (fuel : nat) (title description : string)
        (w w' : world) :
  inStep (st w) ->
  title ∉ unlockedAchievements (st w) ->
  storageWritable w = true ->
  unlockAchievement fuel title description w = Some w' ->
  unlockedAchievements (st (reload w')) = unlockedAchievements (st w) ∪ {[ title ]}
  /\ xp (st (reload w')) = xp (st w')
  /\ level (st (reload w')) = level (st w')
  /\ xpToNext (st (reload w')) = 100.
Proof.
  intros Hs Hn Hw E.
  unfold unlockAchievement in E. rewrite bool_decide_false in E by exact Hn.
  destruct (addXP fuel 25 _) as [w1|] eqn:E1; [|discriminate].
  injection E as <-.
  set (w2 := emit (played "achievement")
               (showToast ("Achievement: " +:+ title) description w1)).
  assert (st w2 = st w1) as S2
      by (unfold w2; cbn [emit st]; apply Progression.st_showToast).
  unfold addXP in E1.
  destruct (levelUpLoop fuel _) as [w0|] eqn:E0; [|discriminate].
  injection E1 as <-.
  destruct (Levels.levelUpLoop_sound _ _ _ E0) as (k & Kl & _ & _ & _ & Ks & Kr & _).
  destruct (settings_fields _ _ Ks) as (U & _).
  destruct (surroundings_fields _ _ Kr) as (_ & _ & W).
  cbn [with_st st set_progress set_unlockedAchievements unlockedAchievements
       storageWritable level] in U, W, Kl.
  assert (storageWritable w2 = true) as W2.
  { unfold w2. change (storageWritable (emit ?e ?v)) with (storageWritable v).
    destruct (surroundings_fields _ _ (Levels.surroundings_showToast
                                         ("Achievement: " +:+ title) description
                                         (emit hudUpdated w0))) as (_ & _ & ->).
    cbn [emit storageWritable]. now rewrite W. }
  destruct (Saving.save_reload_kept w2 W2) as (Rx & Ru & _ & Rl & _).
  cbv zeta in Rx, Ru, Rl. rewrite st_save.
  rewrite Rx, Ru, S2. cbn [emit st]. rewrite U.
  destruct Hs as (Hl & _).
  split; [reflexivity|]. split; [reflexivity|]. split.
  - rewrite Rl; rewrite S2; cbn [emit st]; [reflexivity | lia].
  - unfold reload, save. rewrite W2. reflexivity.
Qed.

Lemma unlockAchievement_persists_witness :
  (inStep (st initialWorld)
   /\ ("First Block" ∉ unlockedAchievements (st initialWorld))
   /\ storageWritable initialWorld = true)
  /\ exists w' : world,
      unlockAchievement 25 "First Block" "You broke your first block!" initialWorld
      = Some w'
      /\ unlockedAchievements (st (reload w')) = ∅ ∪ {[ "First Block" ]}
      /\ xpToNext (st (reload w')) = 100.
Proof.
  assert (inStep (st initialWorld)) as Hs
      by (unfold inStep; repeat split; vm_compute; congruence).
  assert ("First Block" ∉ unlockedAchievements (st initialWorld)) as Hn
      by apply not_elem_of_empty.
  assert (storageWritable initialWorld = true) as Hw by reflexivity.
  split; [auto|].
  destruct (unlockAchievement_first 25 "First Block" "You broke your first block!"
                                    initialWorld Hs ltac:(vm_compute; lia) Hn)
    as (w1 & E & _).
  eexists. split; [exact E|].
  destruct (unlockAchievement_persists 25 "First Block" "You broke your first block!"
                                       initialWorld _ Hs Hn Hw E) as (U & _ & _ & T).
  split; [exact U | exact T].
Defined.

Lemma xp_below_earned (s : state) : inStep s -> xp s <= earned s.
Proof.
  intros (Hl & _). unfold earned.
  pose proof (Levels.paid_nonneg (Z.to_nat (level s - 1)) 100). lia.
Qed.

(** X4.  Breaking a block pays 10 XP, and 25 more the first time.  In a
    game in step the [click] listener of a block returns; "First Block" is
    unlocked afterwards; the game has earned 35 XP if the achievement was
    new and 10 XP if not; and the first toast it asked for is the block's
    fact. *)
Theorem blockClick_rewards (fuel : nat) (fact : string) (w : world) :
  inStep (st w) ->
  (Z.to_nat (earned (st w) + 35) <= fuel)%nat ->
  exists w' : world,
    blockClick fuel fact w = Some w'
    /\ inStep (st w')
    /\ "First Block" ∈ unlockedAchievements (st w')
    /\ earned (st w')
       = earned (st w)
         + (if bool_decide ("First Block" ∈ unlockedAchievements (st w)) then 10 else 35)
    /\ exists rest, toasts w' = toasts w ++ ("Block Broken!", fact) :: rest.
Proof.
  intros Hs Hf. unfold blockClick.
  set (w0 := showToast "Block Broken!" fact (emit (played "block_break") w)).
  assert (st w0 = st w) as S0 by (unfold w0; now rewrite Progression.st_showToast).
  assert (toasts w0 = toasts w ++ [("Block Broken!", fact)]) as Q0.
  { unfold w0. rewrite Levels.toasts_showToast.
    now rewrite Levels.toasts_emit by discriminate. }
  pose proof (xp_below_earned _ Hs) as Hx.
  destruct (Levels.addXP_spec fuel 10 w0) as (w1 & E1 & S1 & N1 & _ & G1 & _ & Q1);
    [now rewrite S0 | lia | rewrite S0; lia |].
  rewrite E1. rewrite S0 in N1, G1.
  destruct (settings_fields _ _ G1) as (U1 & _).
  rewrite U1.
  destruct (decide ("First Block" ∈ unlockedAchievements (st w))) as [Hin|Hn].
  - rewrite !bool_decide_true by exact Hin.
    exists w1. split; [reflexivity|]. split; [exact S1|].
    split; [now rewrite U1|]. split; [exact N1|].
    eexists. rewrite Q1, Q0, <- app_assoc. reflexivity.
  - rewrite !bool_decide_false by exact Hn.
    pose proof (xp_below_earned _ S1) as Hx1.
    destruct (unlockAchievement_spec fuel "First Block" "You broke your first block!"
                                     w1 S1) as (w2 & E2 & U2 & S2 & _ & F2); [lia|].
    destruct F2 as (N2 & Q2); [now rewrite U1|].
    exists w2. split; [exact E2|]. split; [exact S2|].
    split; [rewrite U2; apply elem_of_union_r, elem_of_singleton; reflexivity|].
    split; [lia|].
    eexists. rewrite Q2, Q1, Q0, <- !app_assoc. reflexivity.
Qed.

Lemma blockClick_rewards_witness :
  (inStep (st initialWorld) /\ (Z.to_nat (earned (st initialWorld) + 35) <= 35)%nat)
  /\ exists w' : world,
      blockClick 35 "Built AI vulnerability scanner" initialWorld = Some w'
      /\ earned (st w') = 35
      /\ "First Block" ∈ unlockedAchievements (st w').
Proof.
  assert (inStep (st initialWorld)) as Hs
      by (unfold inStep; repeat split; vm_compute; congruence).
  assert (Z.to_nat (earned (st initialWorld) + 35) <= 35)%nat as Hf by (vm_compute; lia).
  split; [auto|].
  destruct (blockClick_rewards 35 "Built AI vulnerability scanner" initialWorld Hs Hf)
    as (w' & E & _ & U & N & _).
  exists w'. split; [exact E|]. split; [exact N | exact U].
Defined.

(** A string that starts with the letter of no recipe is no recipe, and
    no inherited property either. *)
Lemma recipes_empty_first (r : string) : recipes !! String "e" r = None.
Proof.
  unfold recipes. cbn [list_to_map foldr fst snd uncurry].
  rewrite !lookup_insert_ne by discriminate. apply lookup_empty.
Qed.

Lemma inherited_empty_first (r : string) : inherited !! String "e" r = None.
Proof.
  unfold inherited. cbn [list_to_map foldr fst snd uncurry].
  rewrite !lookup_insert_ne by discriminate. apply lookup_empty.
Qed.

Lemma inherited_empty : inherited !! "" = None.
Proof. reflexivity. Qed.

Lemma join_empties (slots : list (option string)) :
  Forall (fun s => itemOf s = "empty") slots ->
  join (map itemOf slots) = "" \/ exists r, join (map itemOf slots) = String "e" r.
Proof.
  intros H. destruct H as [|s l Hs Hl]; [now left|]. right.
  cbn [map join]. rewrite Hs. destruct (map itemOf l); eexists; reflexivity.
Qed.

(** Two or more items are joined with a [+], and no property of
    [Object.prototype] has one in its name. *)
Lemma hasPlus_app (a b : string) :
  Grid.hasPlus (a +:+ b) = Grid.hasPlus a || Grid.hasPlus b.
Proof.
  induction a as [|c a IH]; [reflexivity|].
  simpl. now rewrite IH, orb_assoc.
Qed.

Lemma hasPlus_join (a b : string) (r : list string) :
  Grid.hasPlus (join (a :: b :: r)) = true.
Proof.
  cbn [join]. rewrite hasPlus_app. simpl. apply orb_true_r.
Qed.

Lemma inherited_no_plus (s : string) :
  Grid.hasPlus s = true -> inherited !! s = None.
Proof.
  intros H. unfold inherited. cbn [list_to_map foldr fst snd uncurry].
  repeat (rewrite lookup_insert_ne
            by (intros E; rewrite <- E in H; vm_compute in H; discriminate H)).
  apply lookup_empty.
Qed.

(** X5.  Crafting rewards once, whatever is crafted.  In a game in step the
    [click] listener of the craft button returns with what [recipes[items]]
    finds for the items of the slots joined by [+], a missing or empty item
    counting as [empty]: the name of one of the table's recipes or of a
    property the table inherits from [Object.prototype].  With two or more
    slots only the recipes of the table are found; a grid of one slot that
    holds the name of an inherited property crafts too.  A grid of empty
    slots never crafts; a failed craft leaves state and toasts as they
    were; a successful one unlocks "Crafting Expert", which earns 25 XP the
    first time and nothing afterwards, whatever is crafted. *)
Theorem craftClick_rewards_once (fuel : nat) (slots : list (option string)) (w : world) :
  inStep (st w) ->
  (Z.to_nat (xp (st w) + 25) <= fuel)%nat ->
  exists (w' : world) (r : option string),
    craftClick fuel slots w = Some (w', r)
    /\ r = option_map nameText (lookupRecipe (join (map itemOf slots)))
    /\ ((2 <= length slots)%nat -> r = recipes !! join (map itemOf slots))
    /\ (forall k : string,
           slots = [Some k] -> is_Some (inherited !! k) -> is_Some r)
    /\ inStep (st w')
    /\ (Forall (fun s => itemOf s = "empty") slots -> r = None)
    /\ (r = None -> st w' = st w /\ toasts w' = toasts w)
    /\ (is_Some r ->
        "Crafting Expert" ∈ unlockedAchievements (st w')
        /\ earned (st w')
           = earned (st w)
             + (if bool_decide ("Crafting Expert" ∈ unlockedAchievements (st w))
                then 0 else 25)).
Proof.
  intros Hs Hf. unfold craftClick.
  assert (Forall (fun s => itemOf s = "empty") slots ->
          lookupRecipe (join (map itemOf slots)) = None) as Hempty.
  { intros H. unfold lookupRecipe.
    destruct (join_empties slots H) as [-> | (r & ->)];
      [reflexivity | now rewrite recipes_empty_first, inherited_empty_first]. }
  assert ((2 <= length slots)%nat ->
          option_map nameText (lookupRecipe (join (map itemOf slots)))
          = recipes !! join (map itemOf slots)) as Htwo.
  { intros H. destruct slots as [|s1 [|s2 l]]; cbn [length] in H; try lia.
    cbn [map]. unfold lookupRecipe.
    rewrite (inherited_no_plus _ (hasPlus_join _ _ _)).
    now destruct (recipes !! _). }
  assert (forall k : string,
             slots = [Some k] -> is_Some (inherited !! k) ->
             is_Some (lookupRecipe (join (map itemOf slots)))) as Hone.
  { intros k -> Hk. cbn [map join itemOf].
    destruct (String.eqb_spec k "") as [->|_];
      [rewrite inherited_empty in Hk; now destruct Hk|].
    unfold lookupRecipe. now destruct (recipes !! k). }
  destruct (lookupRecipe (join (map itemOf slots))) as [name|] eqn:R.
  - destruct (unlockAchievement_spec fuel "Crafting Expert"
                                     ("Crafted: " +:+ nameText name) w Hs Hf)
      as (w1 & E & U & S1 & Same & Fresh).
    rewrite E. eexists _, _. split; [reflexivity|]. split; [reflexivity|].
    split; [exact Htwo|]. split; [intros; eexists; reflexivity|].
    cbn [emit st]. split; [exact S1|].
    split; [intros H; now specialize (Hempty H)|].
    split; [discriminate|]. intros _.
    split; [rewrite U; apply elem_of_union_r, elem_of_singleton; reflexivity|].
    destruct (decide ("Crafting Expert" ∈ unlockedAchievements (st w))) as [Hin|Hn].
    + rewrite bool_decide_true by exact Hin. rewrite (Same Hin). lia.
    + rewrite bool_decide_false by exact Hn. apply (Fresh Hn).
  - eexists _, _. split; [reflexivity|]. split; [reflexivity|].
    split; [exact Htwo|].
    split; [intros k Hk Hi; destruct (Hone k Hk Hi) as [? H]; discriminate H|].
    cbn [emit st]. split; [exact Hs|]. split; [reflexivity|].
    split; [|intros [? H]; discriminate H].
    intros _. split; [reflexivity|]. now rewrite Levels.toasts_emit by discriminate.
Qed.

Lemma craftClick_rewards_once_witness :
  (inStep (st initialWorld) /\ (Z.to_nat (xp (st initialWorld) + 25) <= 25)%nat)
  /\ (exists (w' : world) (r : option string),
         craftClick 25 [Some "react"; Some "node"; Some "aws"] initialWorld = Some (w', r)
         /\ r = Some "Full-Stack App"
         /\ "Crafting Expert" ∈ unlockedAchievements (st w'))
  /\ (exists (w' : world) (r : option string),
         craftClick 25 [Some "constructor"] initialWorld = Some (w', r)
         /\ r = Some "Object"
         /\ "Crafting Expert" ∈ unlockedAchievements (st w')).
Proof.
  assert (inStep (st initialWorld)) as Hs
      by (unfold inStep; repeat split; vm_compute; congruence).
  assert (Z.to_nat (xp (st initialWorld) + 25) <= 25)%nat as Hf by (vm_compute; lia).
  split; [auto|]. split.
  - destruct (craftClick_rewards_once 25 [Some "react"; Some "node"; Some "aws"]
                                      initialWorld Hs Hf)
      as (w' & r & E & R & _ & _ & _ & _ & _ & S).
    exists w', r. split; [exact E|].
    assert (r = Some "Full-Stack App") as Hr by (rewrite R; reflexivity).
    split; [exact Hr|]. apply S. rewrite Hr. eexists. reflexivity.
  - destruct (craftClick_rewards_once 25 [Some "constructor"] initialWorld Hs Hf)
      as (w' & r & E & R & _ & _ & _ & _ & _ & S).
    exists w', r. split; [exact E|].
    assert (r = Some "Object") as Hr by (rewrite R; reflexivity).
    split; [exact Hr|]. apply S. rewrite Hr. eexists. reflexivity.
Defined.

(** Once the course is completed, the platform loop changes nothing but
    the player. *)
Lemma forEachPlatform_completed (fuel : nat) (pls : list platform) :
  forall (w : world) (p : parkour),
    parkourCompleted p = true ->
    exists p' : parkour,
      forEachPlatform fuel (w, p) pls = Some (w, p')
      /\ parkourCompleted p' = true /\ keys p' = keys p.
Proof.
  induction pls as [|pl r IH]; intros w p Hc; cbn [forEachPlatform].
  - exists p. auto.
  - unfold collide. destruct (overlaps p pl).
    + cbv zeta.
      set (q := mkParkour (playerX p) (inject_Z (platY pl - 50)) (isJumping p)
                          0%Q true (keys p) (parkourCompleted p)).
      assert (parkourCompleted q = true) as Hq by exact Hc.
      assert (completeParkour fuel (w, q) = Some (w, q)) as Ec
          by (unfold completeParkour; now rewrite Hq).
      destruct (IH w q Hq) as (p' & E & C & K).
      exists p'. destruct (isEnd pl); [rewrite Ec|]; rewrite E; auto.
    + destruct (IH w p Hc) as (p' & E & C & K). exists p'. rewrite E. auto.
Qed.

(** X6.  The skills course rewards once.  In a game in step
    [completeParkour] returns with the flag set; the first completion earns
    50 XP, and 25 more if "Parkour Master" was not unlocked; a completion
    with the flag already set changes nothing; and after it every frame of
    the game loop returns with the world as it is and the flag still set. *)
Theorem completeParkour_rewards_once (fuel : nat) (w : world) (p : parkour) :
  inStep (st w) ->
  (Z.to_nat (earned (st w) + 75) <= fuel)%nat ->
  exists (w' : world) (p' : parkour),
    completeParkour fuel (w, p) = Some (w', p')
    /\ parkourCompleted p' = true
    /\ inStep (st w')
    /\ (parkourCompleted p = true -> w' = w /\ p' = p)
    /\ (parkourCompleted p = false ->
        "Parkour Master" ∈ unlockedAchievements (st w')
        /\ earned (st w')
           = earned (st w) + 50
             + (if bool_decide ("Parkour Master" ∈ unlockedAchievements (st w))
                then 0 else 25))
    /\ (forall (fuel' : nat) (pls : list platform) (q : parkour),
           parkourCompleted q = true ->
           exists q' : parkour,
             updateParkour fuel' pls (w', q) = Some (w', q')
             /\ parkourCompleted q' = true).
Proof.
  intros Hs Hf.
  assert (forall (v : world) (fuel' : nat) (pls : list platform) (q : parkour),
             parkourCompleted q = true ->
             exists q' : parkour,
               updateParkour fuel' pls (v, q) = Some (v, q')
               /\ parkourCompleted q' = true) as Later.
  { intros v fuel' pls q Hq. unfold updateParkour.
    match goal with
    | |- context [forEachPlatform fuel' (v, ?q0) pls] =>
        destruct (forEachPlatform_completed fuel' pls v q0 Hq) as (q1 & E & C & _)
    end.
    rewrite E. eexists. split; [reflexivity|].
    destruct (JS.leb 150 (playerY q1)); cbn [parkourCompleted]; exact C. }
  unfold completeParkour. destruct (parkourCompleted p) eqn:Hc.
  - exists w, p. split; [reflexivity|]. split; [exact Hc|]. split; [exact Hs|].
    split; [auto|]. split; [discriminate|]. apply Later.
  - pose proof (xp_below_earned _ Hs) as Hx.
    destruct (Levels.addXP_spec fuel 50 w Hs) as (w1 & E1 & S1 & N1 & _ & G1 & _);
      [lia | lia |].
    destruct (settings_fields _ _ G1) as (U1 & _).
    pose proof (xp_below_earned _ S1) as Hx1.
    destruct (unlockAchievement_spec fuel "Parkour Master" "Completed the skills course!"
                                     w1 S1) as (w2 & E2 & U2 & S2 & Same & Fresh); [lia|].
    rewrite E1, E2. eexists _, _. split; [reflexivity|]. cbn [parkourCompleted].
    split; [reflexivity|]. split; [exact S2|]. split; [discriminate|].
    split; [|apply Later]. intros _.
    split; [rewrite U2; apply elem_of_union_r, elem_of_singleton; reflexivity|].
    rewrite <- U1.
    destruct (decide ("Parkour Master" ∈ unlockedAchievements (st w1))) as [Hin|Hn].
    + rewrite bool_decide_true by exact Hin. rewrite (Same Hin). lia.
    + rewrite bool_decide_false by exact Hn. destruct (Fresh Hn) as (N2 & _). lia.
Qed.

Lemma completeParkour_rewards_once_witness :
  (inStep (st initialWorld) /\ (Z.to_nat (earned (st initialWorld) + 75) <= 75)%nat)
  /\ exists (w' : world) (p' : parkour),
      completeParkour 75 (initialWorld, initialParkour) = Some (w', p')
      /\ parkourCompleted p' = true
      /\ earned (st w') = 75.
Proof.
  assert (inStep (st initialWorld)) as Hs
      by (unfold inStep; repeat split; vm_compute; congruence).
  assert (Z.to_nat (earned (st initialWorld) + 75) <= 75)%nat as Hf by (vm_compute; lia).
  split; [auto|].
  destruct (completeParkour_rewards_once 75 initialWorld initialParkour Hs Hf)
    as (w' & p' & E & C & _ & _ & F & _).
  exists w', p'. split; [exact E|]. split; [exact C|].
  destruct (F eq_refl) as (_ & N). exact N.
Defined.

End Achievements.

(** ** Hotbar navigation: [switchHotbar], [switchBiome], [handleWheel] *)

Module Navigation.
Import Engine.
Import Slots.

Lemma at_index_biomes (index : Z) :
  0 <= index < 5 -> exists b, JS.at_index biomes index = Some b /\ In b biomes.
Proof.
  intros Hi.
  assert (index = 0 \/ index = 1 \/ index = 2 \/ index = 3 \/ index = 4)
    as [E|[E|[E|[E|E]]]] by lia; subst index; eexists; (split; [reflexivity|]);
    cbn; auto 10.
Qed.

Lemma indexOf_biomes (b : string) : In b biomes -> 0 <= JS.indexOf biomes b < 5.
Proof.
  intros [E|[E|[E|[E|[E|[]]]]]]; subst b; vm_compute; split; congruence.
Qed.

(** Outside the game screen, or on a slot that is not a biome's,
    [switchHotbar] returns after one level of calls. *)
Lemma switchHotbar_selects (fuel : nat) (index : Z) (w : world) :
  0 <= index <= 8 ->
  currentScreen (st w) <> "game" \/ 5 <= index ->
  switchHotbar (S fuel) index w = Some (selected index w).
Proof.
  intros Hi Hc. cbn [switchHotbar].
  replace ((index <? 0) || (8 <? index)) with false
    by (symmetry; apply orb_false_iff; split; apply Z.ltb_ge; lia).
  change (Z.of_nat (length biomes)) with 5.
  destruct (Z.ltb_spec index 5) as [Hlt|Hge]; [|reflexivity].
  destruct Hc as [Hc|Hc]; [|lia].
  destruct (at_index_biomes index) as (b & -> & _); [lia|].
  unfold switchBiome_with. cbn [st with_st set_hotbarIndex currentScreen with_hotbarSlots].
  destruct (String.eqb_spec (currentScreen (st w)) "game") as [E|E]; [contradiction|].
  reflexivity.
Qed.

(** X7.  When [switchHotbar] returns.  For a slot index from 0 to 8,
    [switchHotbar] returns normally exactly when the screen is not the game
    screen or the slot is not one of the five biome slots; in the game
    screen a biome slot exhausts the call stack, whatever its depth.  When
    it returns, [hotbarIndex] is the index, exactly the slot of that index
    is marked active, screen and biome are as before, and one "hover" sound
    was played. *)
Theorem switchHotbar_returns_iff (index : Z) (w : world) :
  0 <= index <= 8 ->
  (currentScreen (st w) = "game" /\ index < 5 ->
   forall fuel : nat, switchHotbar fuel index w = None)
  /\ (currentScreen (st w) <> "game" \/ 5 <= index ->
      forall fuel : nat,
      exists w' : world,
        switchHotbar (S fuel) index w = Some w'
        /\ hotbarIndex (st w') = index
        /\ currentScreen (st w') = currentScreen (st w)
        /\ currentBiome (st w') = currentBiome (st w)
        /\ length (hotbarSlots w') = length (hotbarSlots w)
        /\ (forall (k : nat) (b : bool),
               hotbarSlots w' !! k = Some b -> (b = true <-> Z.of_nat k = index))
        /\ log w' = log w ++ [(clock w, played "hover")]).
Proof.
  intros Hi. split.
  - intros (Hg & Hlt) fuel. apply Hotbar.switchHotbar_biome_slot_in_game; [exact Hg | lia].
  - intros Hc fuel. exists (selected index w).
    split; [now apply switchHotbar_selects|].
    unfold selected. cbn [emit st with_st set_hotbarIndex hotbarIndex currentScreen
                          currentBiome hotbarSlots with_hotbarSlots log clock].
    repeat split; try reflexivity.
    + apply length_imap.
    + rewrite list_lookup_imap in H.
      destruct (hotbarSlots w !! k); [|discriminate]. injection H as <-.
      intros E. now apply Z.eqb_eq.
    + rewrite list_lookup_imap in H.
      destruct (hotbarSlots w !! k); [|discriminate]. injection H as <-.
      intros E. now apply Z.eqb_eq.
Qed.

Lemma switchHotbar_returns_iff_witness :
  (0 <= 6 <= 8)
  /\ exists w' : world,
      switchHotbar 1 6 inGame = Some w'
      /\ hotbarIndex (st w') = 6
      /\ hotbarSlots w' = [false; false; false; false; false; false; true; false; false].
Proof.
  assert (0 <= 6 <= 8) as Hi by lia.
  split; [exact Hi|].
  destruct (switchHotbar_returns_iff 6 inGame Hi) as (_ & R).
  assert (currentScreen (st inGame) <> "game" \/ 5 <= 6) as Hc by (right; lia).
  destruct (R Hc 0%nat) as (w' & E & I & _).
  exists w'. split; [exact E|]. split; [exact I|].
  vm_compute in E. injection E as <-. reflexivity.
Defined.

(** X8.  In the game screen [switchBiome] does not return for any of the
    five biomes: it calls [switchHotbar] with the biome's index, which
    calls [switchBiome] again.  Outside the game screen it returns at once
    and changes nothing, so no call of [switchBiome] with a biome of the
    hotbar returns having changed the biome. *)
Theorem switchBiome_never_switches (fuel : nat) (biome : string) (w : world) :
  In biome biomes ->
  (currentScreen (st w) = "game" -> switchBiome fuel biome w = None)
  /\ (currentScreen (st w) <> "game" -> switchBiome fuel biome w = Some w)
  /\ (forall w' : world, switchBiome fuel biome w = Some w' -> w' = w).
Proof.
  intros Hb.
  assert (currentScreen (st w) = "game" -> switchBiome fuel biome w = None) as Hg.
  { intros Hg. unfold switchBiome, switchBiome_with. rewrite Hg.
    cbn [String.eqb Ascii.eqb Bool.eqb negb].
    rewrite Hotbar.switchHotbar_biome_slot_in_game;
      [reflexivity | exact Hg | now apply indexOf_biomes]. }
  assert (currentScreen (st w) <> "game" -> switchBiome fuel biome w = Some w) as Hn.
  { intros Hn. unfold switchBiome, switchBiome_with.
    destruct (String.eqb_spec (currentScreen (st w)) "game"); [contradiction|reflexivity]. }
  split; [exact Hg|]. split; [exact Hn|].
  intros w' E. destruct (String.eqb_spec (currentScreen (st w)) "game") as [G|G].
  - rewrite (Hg G) in E. discriminate.
  - rewrite (Hn G) in E. now injection E.
Qed.

Lemma switchBiome_never_switches_witness :
  In "cave" biomes
  /\ switchBiome 1000 "cave" inGame = None
  /\ switchBiome 1000 "cave" initialWorld = Some initialWorld.
Proof.
  assert (In "cave" biomes) as Hb by (cbn; auto).
  split; [exact Hb|].
  destruct (switchBiome_never_switches 1000 "cave" inGame Hb) as (G & _).
  destruct (switchBiome_never_switches 1000 "cave" initialWorld Hb) as (_ & N & _).
  split; [apply G; reflexivity | apply N; discriminate].
Defined.

Lemma wheelTarget_range (deltaY : Q) (i : Z) : 0 <= wheelTarget deltaY i <= 8.
Proof.
  unfold wheelTarget.
  pose proof (Z.mod_pos_bound (i + (if JS.ltb 0 deltaY then 1 else -1)) 9). lia.
Qed.

(** X9.  The wheel stays on the hotbar.  With [hotbarIndex] from 0 to 8 the
    index [handleWheel] computes is the next or the previous slot around
    the nine slots, so the range guard of [switchHotbar] never stops it,
    and a turn back undoes a turn forward.  Outside the game screen the
    wheel does nothing; in the game screen the call does not return when
    the target is a biome slot, and selects the target otherwise. *)
Theorem handleWheel_wraps (deltaY : Q) (w : world) :
  0 <= hotbarIndex (st w) <= 8 ->
  let target := wheelTarget deltaY (hotbarIndex (st w)) in
  0 <= target <= 8
  /\ (~ (deltaY == 0)%Q -> wheelTarget (- deltaY) target = hotbarIndex (st w))
  /\ (currentScreen (st w) <> "game" ->
      forall fuel : nat, handleWheel fuel deltaY w = Some w)
  /\ (currentScreen (st w) = "game" ->
      (forall fuel : nat, handleWheel fuel deltaY w = switchHotbar fuel target w)
      /\ (target < 5 -> forall fuel : nat, handleWheel fuel deltaY w = None)
      /\ (5 <= target ->
          forall fuel : nat, handleWheel (S fuel) deltaY w = Some (selected target w))).
Proof.
  intros Hi target.
  assert (forall fuel : nat,
             currentScreen (st w) = "game" ->
             handleWheel fuel deltaY w = switchHotbar fuel target w) as Hw.
  { intros fuel Hg. unfold handleWheel. rewrite Hg.
    cbn [String.eqb Ascii.eqb Bool.eqb negb]. f_equal.
    unfold target, wheelTarget. rewrite Z.rem_mod_nonneg by (destruct (JS.ltb 0 deltaY); lia).
    rewrite <- (Z.mod_add (hotbarIndex (st w) + (if JS.ltb 0 deltaY then 1 else -1)) 1 9)
      by lia.
    f_equal; lia. }
  split; [apply wheelTarget_range|]. split; [|split].
  - intros Hz. unfold target, wheelTarget.
    destruct (Physics.ltb_spec 0 deltaY) as [Hp|Hp];
      destruct (Physics.ltb_spec 0 (- deltaY)) as [Hq|Hq]; try lra.
    + rewrite Zplus_mod_idemp_l.
      replace (hotbarIndex (st w) + 1 + -1) with (hotbarIndex (st w)) by lia.
      apply Z.mod_small. lia.
    + rewrite Zplus_mod_idemp_l.
      replace (hotbarIndex (st w) + -1 + 1) with (hotbarIndex (st w)) by lia.
      apply Z.mod_small. lia.
  - intros Hn fuel. unfold handleWheel.
    destruct (String.eqb_spec (currentScreen (st w)) "game"); [contradiction|reflexivity].
  - intros Hg. split; [intros fuel; now apply Hw|]. split.
    + intros Hlt fuel. rewrite Hw by exact Hg.
      apply Hotbar.switchHotbar_biome_slot_in_game; [exact Hg|].
      pose proof (wheelTarget_range deltaY (hotbarIndex (st w))). fold target in H. lia.
    + intros Hge fuel. rewrite Hw by exact Hg.
      apply switchHotbar_selects; [apply wheelTarget_range | now right].
Qed.

Lemma handleWheel_wraps_witness :
  (0 <= hotbarIndex (st inGame) <= 8)
  /\ wheelTarget 1 (hotbarIndex (st inGame)) = 7
  /\ handleWheel 1 1%Q inGame = Some (selected 7 inGame).
Proof.
  assert (0 <= hotbarIndex (st inGame) <= 8) as Hi by (cbn; lia).
  split; [exact Hi|]. split; [reflexivity|].
  destruct (handleWheel_wraps 1%Q inGame Hi) as (_ & _ & _ & G).
  destruct (G eq_refl) as (_ & _ & S).
  assert (5 <= wheelTarget 1 (hotbarIndex (st inGame))) as Hge
      by (vm_compute; congruence).
  exact (S Hge 0%nat).
Defined.

End Navigation.

(** ** What a reload brings back *)

Module Reloading.
Import Engine.
Import Ledger.
Import Reload.
Import Slots.

Lemma threshold_next (l : Z) : 2 <= l -> 150 <= threshold l.
Proof.
  intros Hl. replace l with (1 + 1 + Z.of_nat (Z.to_nat (l - 2))) by lia.
  rewrite Levels.threshold_add by lia.
  change (threshold (1 + 1)) with 150. apply Levels.iter_positive. lia.
Qed.

(** X10.  A reload after a save, field by field.  With a writable storage
    and level, volume and effects volume not zero, the state after a save
    and a reload of the page has the saved XP, level, achievements, volumes
    and theme; the screen, the biome, the health, the hotbar index and the
    threshold are the constructor's.  The threshold is not part of the
    save: a game in step on level 2 or more is out of step after the
    reload, with 100 XP to the next level. *)
Theorem reload_after_save (w : world) :
  storageWritable w = true ->
  level (st w) <> 0 ->
  ~ (volume (st w) == 0)%Q ->
  ~ (sfxVolume (st w) == 0)%Q ->
  st (reload (save w))
  = mkState "title" "forest" 10 10 (xp (st w)) (level (st w)) 100
            (unlockedAchievements (st w)) 0
            (volume (st w)) (sfxVolume (st w)) (darkTheme (st w))
  /\ (inStep (st w) -> 2 <= level (st w) -> ~ inStep (st (reload (save w)))).
Proof.
  intros Hw Hl Hv Hs.
  destruct (Saving.save_reload_kept w Hw) as (Kx & Ku & Kd & Kl & Kv & Ks).
  cbv zeta in Kx, Ku, Kd, Kl, Kv, Ks.
  assert (st (reload (save w))
          = mkState "title" "forest" 10 10 (xp (st w)) (level (st w)) 100
                    (unlockedAchievements (st w)) 0
                    (volume (st w)) (sfxVolume (st w)) (darkTheme (st w))) as E.
  { rewrite <- Kx, <- Ku, <- Kd, <- (Kl Hl), <- (Kv Hv), <- (Ks Hs).
    unfold reload, save, load. rewrite Hw. reflexivity. }
  split; [exact E|].
  intros _ H2 (_ & Ht & _). rewrite E in Ht. cbn [xpToNext level] in Ht.
  pose proof (threshold_next (level (st w)) H2). lia.
Qed.

Lemma reload_after_save_witness :
  (storageWritable levelTwo = true
   /\ level (st levelTwo) <> 0
   /\ ~ (volume (st levelTwo) == 0)%Q
   /\ ~ (sfxVolume (st levelTwo) == 0)%Q)
  /\ inStep (st levelTwo)
  /\ xp (st (reload (save levelTwo))) = 40
  /\ xpToNext (st (reload (save levelTwo))) = 100
  /\ ~ inStep (st (reload (save levelTwo))).
Proof.
  assert (storageWritable levelTwo = true) as Hw by reflexivity.
  assert (level (st levelTwo) <> 0) as Hl by (cbn; lia).
  assert (~ (volume (st levelTwo) == 0)%Q) as Hv by (intros H; discriminate H).
  assert (~ (sfxVolume (st levelTwo) == 0)%Q) as Hs by (intros H; discriminate H).
  assert (inStep (st levelTwo)) as Hi
      by (unfold inStep; repeat split; vm_compute; congruence).
  split; [auto|]. split; [exact Hi|].
  destruct (reload_after_save levelTwo Hw Hl Hv Hs) as (E & N).
  split; [now rewrite E|]. split; [now rewrite E|].
  apply N; [exact Hi | cbn; lia].
Defined.

(** X11.  [load] never mutes and never yields level 0.  Whatever record the
    storage holds, after [load] the volume and the effects volume are not
    zero and the level is not zero: a stored zero, like a missing field, is
    replaced by the default. *)
Theorem load_never_mutes (d : saveData) (w : world) :
  let w' := load (with_localStorage (item d) w) in
  ~ (volume (st w') == 0)%Q
  /\ ~ (sfxVolume (st w') == 0)%Q
  /\ level (st w') <> 0.
Proof.
  cbv zeta. unfold load. cbn [localStorage with_localStorage emit st with_st restore
                              volume sfxVolume level].
  repeat split.
  - unfold JS.orQ, JS.truthyQ. destruct (sd_volume d) as [q|]; [|intros H; discriminate H].
    destruct (Qeq_bool q 0) eqn:E; cbn [negb]; [intros H; discriminate H|].
    intros H. apply Qeq_bool_iff in H. congruence.
  - unfold JS.orQ, JS.truthyQ. destruct (sd_sfxVolume d) as [q|]; [|intros H; discriminate H].
    destruct (Qeq_bool q 0) eqn:E; cbn [negb]; [intros H; discriminate H|].
    intros H. apply Qeq_bool_iff in H. congruence.
  - unfold JS.orZ, JS.truthyZ. destruct (sd_level d) as [n|]; [|lia].
    destruct (Z.eqb_spec n 0); cbn [negb]; lia.
Qed.

End Reloading.

(** ** The hearts row: [updateHealth] *)

Module Health.
Import Engine.
Import Hearts.

(** The loop from counter [i] visits [i], [i + 1], .. up to the last
    counter below half of [maxHealth]. *)
Lemma heartsFrom_map (health maxHealth : Z) (fuel : nat) :
  forall i : Z,
    0 <= i ->
    (Z.to_nat ((maxHealth + 1) / 2 - i) <= fuel)%nat ->
    heartsFrom fuel health maxHealth i
    = Some (map (fun j => heartAt health (i + Z.of_nat j))
                (seq 0 (Z.to_nat ((maxHealth + 1) / 2 - i)))).
Proof.
  induction fuel as [|fuel IH]; intros i Hi Hf.
  - cbn [heartsFrom]. destruct (Z.ltb_spec (2 * i) maxHealth) as [Hlt|Hge].
    + assert (i < (maxHealth + 1) / 2) by (Z.div_mod_to_equations; lia). lia.
    + assert ((maxHealth + 1) / 2 <= i) by (Z.div_mod_to_equations; lia).
      now replace (Z.to_nat ((maxHealth + 1) / 2 - i)) with 0%nat by lia.
  - cbn [heartsFrom]. destruct (Z.ltb_spec (2 * i) maxHealth) as [Hlt|Hge].
    + assert (i < (maxHealth + 1) / 2) by (Z.div_mod_to_equations; lia).
      rewrite IH by lia.
      replace (Z.to_nat ((maxHealth + 1) / 2 - i))
        with (S (Z.to_nat ((maxHealth + 1) / 2 - (i + 1)))) by lia.
      cbn [seq map]. rewrite Z.add_0_r. do 2 f_equal.
      rewrite <- seq_shift, map_map. apply map_ext. intros j. f_equal. lia.
    + assert ((maxHealth + 1) / 2 <= i) by (Z.div_mod_to_equations; lia).
      now replace (Z.to_nat ((maxHealth + 1) / 2 - i)) with 0%nat by lia.
Qed.

Lemma map_seq_const {A} (f : nat -> A) (v : A) (s k : nat) :
  (forall j, (s <= j < s + k)%nat -> f j = v) ->
  map f (seq s k) = repeat v k.
Proof.
  revert s. induction k as [|k IH]; intros s H; [reflexivity|].
  cbn [seq map repeat]. rewrite (H s) by lia. f_equal.
  apply IH. intros j Hj. apply H. lia.
Qed.

Lemma shownHealth_app (l1 l2 : list heart) :
  shownHealth (l1 ++ l2) = shownHealth l1 + shownHealth l2.
Proof.
  induction l1 as [|h l1 IH]; cbn [app shownHealth fold_right]; [reflexivity|].
  fold (shownHealth (l1 ++ l2)). fold (shownHealth l1). lia.
Qed.

Lemma shownHealth_repeat (h : heart) (n : nat) :
  shownHealth (repeat h n) = worth h * Z.of_nat n.
Proof.
  induction n as [|n IH]; cbn [repeat shownHealth fold_right]; [lia|].
  fold (shownHealth (repeat h n)). lia.
Qed.

(** X12.  The hearts row shows the health.  For a health from 0 to
    [maxHealth], [updateHealth] returns a row of one heart per two points
    of [maxHealth], rounded up: full hearts first, one for every two points
    of health, then a half heart if the health is odd, then empty hearts;
    read back, the row is worth exactly the health, and the text beside it
    is health/maxHealth. *)
Theorem updateHealth_shows_health (fuel : nat) (s : state) :
  0 <= health s <= maxHealth s ->
  (Z.to_nat (maxHealth s) <= fuel)%nat ->
  exists row : list heart,
    updateHealth fuel s
    = Some (row, pretty (health s) +:+ "/" +:+ pretty (maxHealth s))
    /\ row = repeat heartFull (Z.to_nat (health s / 2))
             ++ repeat heartHalf (Z.to_nat (health s mod 2))
             ++ repeat heartEmpty (Z.to_nat ((maxHealth s + 1) / 2 - (health s + 1) / 2))
    /\ Z.of_nat (length row) = (maxHealth s + 1) / 2
    /\ shownHealth row = health s.
Proof.
  intros Hh Hf.
  set (n := Z.to_nat ((maxHealth s + 1) / 2)).
  set (a := Z.to_nat (health s / 2)).
  set (b := Z.to_nat (health s mod 2)).
  set (c := Z.to_nat ((maxHealth s + 1) / 2 - (health s + 1) / 2)).
  assert (0 <= health s mod 2 < 2 /\ health s = 2 * (health s / 2) + health s mod 2)
    as (Hmb & Hdm) by (Z.div_mod_to_equations; lia).
  assert (0 <= (maxHealth s + 1) / 2 <= maxHealth s) as Hn0
      by (Z.div_mod_to_equations; lia).
  assert ((health s + 1) / 2 = health s / 2 + health s mod 2) as Hup
      by (Z.div_mod_to_equations; lia).
  assert ((health s + 1) / 2 <= (maxHealth s + 1) / 2) as Hle
      by (Z.div_mod_to_equations; lia).
  assert (n = (a + (b + c))%nat) as Hn by (unfold n, a, b, c; lia).
  assert (Z.to_nat ((maxHealth s + 1) / 2 - 0) <= fuel)%nat as Hfuel by lia.
  eexists. unfold updateHealth.
  rewrite (heartsFrom_map (health s) (maxHealth s) fuel 0 ltac:(lia) Hfuel).
  split; [reflexivity|].
  rewrite Z.sub_0_r. fold n.
  assert (map (fun j => heartAt (health s) (0 + Z.of_nat j)) (seq 0 n)
          = repeat heartFull a ++ repeat heartHalf b ++ repeat heartEmpty c) as Hrow.
  { rewrite Hn, !seq_app, !map_app. cbn [Nat.add].
    f_equal; [|f_equal]; apply map_seq_const; intros j Hj; unfold heartAt.
    - destruct (Z.leb_spec ((0 + Z.of_nat j + 1) * 2) (health s)); [reflexivity|].
      unfold a in Hj. lia.
    - destruct (Z.leb_spec ((0 + Z.of_nat j + 1) * 2) (health s));
        [unfold a, b in Hj; lia|].
      destruct (Z.leb_spec ((0 + Z.of_nat j) * 2 + 1) (health s)); [reflexivity|].
      unfold a, b in Hj. lia.
    - destruct (Z.leb_spec ((0 + Z.of_nat j + 1) * 2) (health s));
        [unfold a, b in Hj; lia|].
      destruct (Z.leb_spec ((0 + Z.of_nat j) * 2 + 1) (health s)); [|reflexivity].
      unfold a, b in Hj. lia. }
  rewrite Hrow. split; [reflexivity|]. split.
  - rewrite !length_app, !repeat_length. unfold a, b, c. lia.
  - rewrite !shownHealth_app, !shownHealth_repeat. cbn [worth]. unfold a, b. lia.
Qed.

Lemma updateHealth_shows_health_witness :
  (0 <= health hurt <= maxHealth hurt /\ (Z.to_nat (maxHealth hurt) <= 10)%nat)
  /\ updateHealth 10 hurt
     = Some ([heartFull; heartFull; heartFull; heartHalf; heartEmpty], "7/10").
Proof.
  assert (0 <= health hurt <= maxHealth hurt) as Hh by (cbn; lia).
  assert (Z.to_nat (maxHealth hurt) <= 10)%nat as Hf by (cbn; lia).
  split; [auto|].
  destruct (updateHealth_shows_health 10 hurt Hh Hf) as (row & E & R & _).
  rewrite E, R. reflexivity.
Defined.

End Health.

(** ** The engine's sound manager *)

Module Sound.
Import Engine.
Import SoundManager.
Import Audio.

Lemma loadAll_cons (ok : string -> bool) (n u : string) (r : list (string * string))
      (m : t) :
  loadAll ok ((n, u) :: r) m = loadAll ok r (loadSound (ok n) n u m).
Proof. reflexivity. Qed.

Lemma loadAll_fields (ok : string -> bool) (l : list (string * string)) :
  forall m : t,
    audioContext (loadAll ok l m) = audioContext m
    /\ masterVolume (loadAll ok l m) = masterVolume m
    /\ sfxVolume (loadAll ok l m) = sfxVolume m
    /\ initialized (loadAll ok l m) = initialized m.
Proof.
  induction l as [|[n u] r IH]; intros m; [auto|].
  rewrite loadAll_cons.
  destruct (IH (loadSound (ok n) n u m)) as (-> & -> & -> & ->).
  unfold loadSound. destruct (ok n); auto.
Qed.

Lemma loadAll_other (ok : string -> bool) (l : list (string * string)) (name : string) :
  forall m : t,
    ~ In name (map fst l) ->
    sounds (loadAll ok l m) !! name = sounds m !! name.
Proof.
  induction l as [|[n u] r IH]; intros m Hn; [reflexivity|].
  rewrite loadAll_cons. cbn [fst map In] in Hn.
  rewrite IH by tauto. unfold loadSound. destruct (ok n); [|reflexivity].
  cbn [sounds]. apply lookup_insert_ne. tauto.
Qed.

Lemma loadAll_loaded (ok : string -> bool) (l : list (string * string))
      (name url : string) :
  forall m : t,
    List.NoDup (map fst l) ->
    In (name, url) l ->
    sounds (loadAll ok l m) !! name
    = if ok name then Some (audioBuffer url) else sounds m !! name.
Proof.
  induction l as [|[n u] r IH]; intros m Hd Hin; [destruct Hin|].
  cbn [map fst] in Hd. inversion Hd as [|? ? Hnr Hdr]; subst.
  rewrite loadAll_cons.
  destruct Hin as [E|Hin].
  - injection E as -> ->. rewrite (loadAll_other ok r name) by exact Hnr.
    unfold loadSound. destruct (ok name); [|reflexivity].
    cbn [sounds]. apply lookup_insert_eq.
  - rewrite IH by assumption. destruct (ok name); [reflexivity|].
    assert (n <> name) as Hne.
    { intros ->. apply Hnr. change name with (fst (name, url)). now apply in_map. }
    unfold loadSound. destruct (ok n); [|reflexivity].
    cbn [sounds]. now apply lookup_insert_ne.
Qed.

Lemma soundFiles_NoDup : List.NoDup (map fst soundFiles).
Proof.
  cbn [soundFiles map fst].
  repeat (apply List.NoDup_cons; [cbn [In]; intuition discriminate|]).
  apply List.NoDup_nil.
Qed.

(** X13.  [play] once [init] has returned.  On a sound manager whose map is
    still empty, [init] ends with [initialized] set, whether an audio
    context could be made or not, so [play] never reaches the oscillator
    fallback again.  With a context, a name of the sound table starts its
    buffer at gain [masterVolume * sfxVolume] if its file loaded and is
    silent if not, and any other name is silent.  Without a context every
    name but "fallback" is silent: the fallback set up by the [catch] plays
    nothing. *)
Theorem play_after_init (available : bool) (ok : string -> bool) (m : t) :
  sounds m = ∅ ->
  let m' := init available ok m in
  initialized m' = true
  /\ (forall (name : string) (f : Z) (g : Q), play name m' <> beeped f g)
  /\ (available = true ->
      (forall name url : string,
          In (name, url) soundFiles ->
          play name m'
          = if ok name then started url (masterVolume m * sfxVolume m)%Q else silent)
      /\ (forall name : string,
             ~ In name (map fst soundFiles) -> play name m' = silent))
  /\ (available = false ->
      forall name : string, name <> "fallback" -> play name m' = silent).
Proof.
  intros He m'.
  assert (initialized m' = true) as Hi by (unfold m', init; now destruct available).
  split; [exact Hi|]. split; [|split].
  - intros name f g. unfold play. rewrite Hi. cbn [negb].
    destruct (sounds m' !! name) as [[u|]|]; try discriminate;
      destruct (audioContext m'); discriminate.
  - intros ->. unfold m', init. fold (loadAll ok soundFiles
                                              (mk true (sounds m) (masterVolume m)
                                                  (sfxVolume m) (initialized m))).
    set (m0 := mk true (sounds m) (masterVolume m) (sfxVolume m) (initialized m)).
    destruct (loadAll_fields ok soundFiles m0) as (Fa & Fm & Fs & _).
    split.
    + intros name url Hin. unfold play. cbn [initialized negb sounds audioContext
                                             masterVolume sfxVolume].
      rewrite (loadAll_loaded ok soundFiles name url m0 soundFiles_NoDup Hin).
      rewrite Fa, Fm, Fs. cbn [m0 sounds audioContext masterVolume sfxVolume].
      rewrite He, lookup_empty. now destruct (ok name).
    + intros name Hn. unfold play. cbn [initialized negb sounds].
      rewrite (loadAll_other ok soundFiles name m0 Hn). cbn [m0 sounds].
      now rewrite He, lookup_empty.
  - intros -> name Hn. unfold m', init, setupFallbackSounds, play.
    cbn [initialized negb sounds]. rewrite lookup_insert_ne by congruence.
    now rewrite He, lookup_empty.
Qed.

Lemma play_after_init_witness :
  sounds new = ∅
  /\ play "hover" (init true (fun _ => true) new)
     = started "assets/hover.wav" ((5 # 10) * (7 # 10))%Q
  /\ play "hover" (init false (fun _ => true) new) = silent.
Proof.
  assert (sounds new = ∅) as He by reflexivity.
  split; [exact He|].
  destruct (play_after_init true (fun _ => true) new He) as (_ & _ & A & _).
  destruct (play_after_init false (fun _ => true) new He) as (_ & _ & _ & F).
  split.
  - destruct (A eq_refl) as (L & _).
    apply (L "hover" "assets/hover.wav"). cbn. auto 10.
  - apply (F eq_refl). discriminate.
Defined.

Lemma applySetting_state (es : list setting) :
  forall (w : world) (m : t),
    let w' := fst (fold_left applySetting es (w, m)) in
    volume (st w') = from_option (fun v => (v / 100)%Q) (volume (st w)) (lastMaster es)
    /\ Engine.sfxVolume (st w')
       = from_option (fun v => (v / 100)%Q) (Engine.sfxVolume (st w)) (lastSfx es)
    /\ darkTheme (st w') = from_option negb (darkTheme (st w)) (lastTheme es)
    /\ game (st w') = game (st w)
    /\ log w' = log w.
Proof.
  induction es as [|e r IH]; intros w m; cbn [fold_left].
  - cbn. auto.
  - cbn [lastMaster lastSfx lastTheme].
    destruct e as [v|v|c]; cbn [applySetting];
      match goal with
      | |- context [fold_left applySetting r (?w1, ?m1)] =>
          destruct (IH w1 m1) as (Iv & Is & Id & Ig & Il)
      end;
      cbv zeta; rewrite Iv, Is, Id, Ig, Il;
      destruct (lastMaster r), (lastSfx r), (lastTheme r); repeat split.
Qed.

Lemma applySetting_manager (es : list setting) :
  forall (w : world) (m : t),
    snd (fold_left applySetting es (w, m))
    = mk (audioContext m) (sounds m)
         (from_option (fun v => (v / 100)%Q) (masterVolume m) (lastMaster es))
         (sfxVolume m) (initialized m).
Proof.
  induction es as [|e r IH]; intros w m; cbn [fold_left].
  - now destruct m.
  - cbn [lastMaster].
    destruct e as [v|v|c]; cbn [applySetting]; rewrite IH;
      cbn [setVolume audioContext sounds masterVolume sfxVolume initialized
           with_st st set_volume volume];
      now destruct (lastMaster r).
Qed.

Lemma lastMaster_withoutSfx (es : list setting) :
  lastMaster (withoutSfx es) = lastMaster es.
Proof.
  unfold withoutSfx. induction es as [|e r IH]; [reflexivity|].
  destruct e as [v|v|c]; cbn [List.filter isSfx negb lastMaster]; rewrite ?IH;
    now destruct (lastMaster r).
Qed.

(** X14.  The effects slider does not reach the sound manager.  After any
    series of settings events the state holds, as [volume], [sfxVolume] and
    [darkTheme], a hundredth of the last value of the master slider, a
    hundredth of the last value of the effects slider and the negation of
    the last value of the theme toggle, each as it was if its control was
    not used, and nothing else of the state has changed.  The sound manager
    has the state's volume as master volume once the master slider was
    moved, and is otherwise as it was: its effects volume is never written.
    It is the manager the same series leaves when every move of the effects
    slider is taken out, so the gain of a sound, [masterVolume * sfxVolume]
    of the manager, does not depend on the effects slider, while the
    state's [sfxVolume] follows it. *)
Theorem sfx_slider_is_not_heard (es : list setting) (w : world) (m : t) :
  let w' := fst (fold_left applySetting es (w, m)) in
  let m' := snd (fold_left applySetting es (w, m)) in
  volume (st w') = from_option (fun v => (v / 100)%Q) (volume (st w)) (lastMaster es)
  /\ Engine.sfxVolume (st w')
     = from_option (fun v => (v / 100)%Q) (Engine.sfxVolume (st w)) (lastSfx es)
  /\ darkTheme (st w') = from_option negb (darkTheme (st w)) (lastTheme es)
  /\ game (st w') = game (st w)
  /\ m' = mk (audioContext m) (sounds m)
            (from_option (fun v => (v / 100)%Q) (masterVolume m) (lastMaster es))
            (sfxVolume m) (initialized m)
  /\ (is_Some (lastMaster es) -> masterVolume m' = volume (st w'))
  /\ m' = snd (fold_left applySetting (withoutSfx es) (w, m))
  /\ (forall name : string,
         play name m' = play name (snd (fold_left applySetting (withoutSfx es) (w, m)))).
Proof.
  cbv zeta.
  destruct (applySetting_state es w m) as (Hv & Hs & Hd & Hg & _).
  pose proof (applySetting_manager es w m) as Hm.
  assert (snd (fold_left applySetting es (w, m))
          = snd (fold_left applySetting (withoutSfx es) (w, m))) as He
      by (now rewrite Hm, applySetting_manager, lastMaster_withoutSfx).
  split; [exact Hv|]. split; [exact Hs|]. split; [exact Hd|]. split; [exact Hg|].
  split; [exact Hm|]. split; [|split; [exact He | intros name; now rewrite <- He]].
  intros [v Hl]. rewrite Hm, Hv, Hl. reflexivity.
Qed.

End Sound.

(** ** The toast queue empties *)

Module Draining.
Import Engine.
Import ToastLog.
Import Backlog.

Lemma processToastQueue_Drained (w : world) : Drained (processToastQueue w).
Proof.
  unfold Drained, processToastQueue.
  destruct (isShowingToast w) eqn:E; [congruence|].
  destruct (toastQueue w) eqn:Q; [auto|]. cbn. discriminate.
Qed.

Lemma handle_Drained (w w' : world) (e : event) :
  Drained w -> handle w e = Some w' -> Drained w'.
Proof.
  intros D H. destruct e as [t d|d|k]; cbn [handle] in H.
  - injection H as <-. apply processToastQueue_Drained.
  - destruct (0 <=? d); [|discriminate H]. injection H as <-. exact D.
  - destruct (nth_error (timers w) k) as [tm|]; [|discriminate H].
    destruct (ready tm w); [|discriminate H]. injection H as <-.
    destruct (cb tm) as [n|n|n]; cbn [runCallback].
    + exact D.
    + exact D.
    + cbn [with_timers toastContainer].
      destruct (isChild n (toastContainer w));
        [apply processToastQueue_Drained | exact D].
Qed.

Lemma run_Drained (es : list event) :
  forall w w' : world, Drained w -> run w es = Some w' -> Drained w'.
Proof.
  induction es as [|e es IH]; intros w w' D H; cbn [run] in H.
  - now injection H as <-.
  - destruct (handle w e) as [w1|] eqn:E; [|discriminate H].
    eapply IH; [|exact H]. eapply handle_Drained; eassumption.
Qed.

Lemma run_app (es1 es2 : list event) :
  forall w w1 : world,
    run w es1 = Some w1 -> run w (es1 ++ es2) = run w1 es2.
Proof.
  induction es1 as [|e es1 IH]; intros w w1 H; cbn [run app] in *.
  - now injection H as <-.
  - destruct (handle w e) as [v|]; [|discriminate H]. now apply IH.
Qed.

(** Waiting for the pending closure and running it leaves less to do. *)
Lemma tick_backlog (w : world) :
  Inv w ->
  timers w <> [] ->
  exists w1 : world,
    run w (tick w) = Some w1 /\ (backlog w1 < backlog w)%nat.
Proof.
  intros [Hph _ _ _ _] Hne.
  destruct Hph as [(_ & _ & Ht & _) | (Hb & t & tm & Hc & Ht & _ & _)];
    [contradiction|].
  unfold tick, backlog. rewrite Ht. cbn [run handle].
  destruct (Z.leb_spec 0 (Z.max 0 (due tm - clock w))) as [_|?]; [|lia].
  cbn [with_clock timers clock]. rewrite Ht. cbn [nth_error].
  match goal with
  | |- context [ready ?a ?b] => assert (ready a b = true) as ->
  end.
  { unfold ready. destruct (cb tm); [reflexivity | |];
      apply Z.leb_le; unfold with_clock; cbn [clock]; lia. }
  cbn [remove_nth]. eexists. split; [reflexivity|].
  destruct tm as [d c]. cbn [cb] in *.
  destruct c as [n|n|n]; cbn [target classWhilePending] in Hc;
    cbn [runCallback rank].
  - cbn. lia.
  - cbn. lia.
  - cbn [with_timers with_clock toastContainer]. rewrite Hc.
    rewrite Toasts.isChild_single, Toasts.removeChild_single.
    unfold processToastQueue. cbn [with_isShowingToast isShowingToast emit
                                     with_toastContainer toastQueue].
    cbn. destruct (toastQueue w) as [|q qs] eqn:Q; cbn; rewrite ?Q; cbn; lia.
Qed.

Lemma tick_requests_nothing (w : world) : requested (tick w) = [].
Proof. unfold tick. now destruct (timers w). Qed.

Lemma drain (n : nat) :
  forall w : world,
    (backlog w <= n)%nat ->
    Inv w ->
    Drained w ->
    exists (es : list event) (w' : world),
      requested es = []
      /\ run w es = Some w'
      /\ toastQueue w' = [] /\ toastContainer w' = [] /\ timers w' = []
      /\ isShowingToast w' = false.
Proof.
  induction n as [|n IH]; intros w Hn I D.
  - exists [], w. split; [reflexivity|]. split; [reflexivity|].
    destruct I as [Hph _ _ _ _].
    destruct Hph as [(Hs & Hc & Ht & _) | (_ & t & tm & _ & Ht & _)].
    + auto.
    + unfold backlog in Hn. rewrite Ht in Hn. destruct (cb tm); cbn [rank] in Hn; lia.
  - destruct (timers w) as [|tm r] eqn:Ht.
    + apply IH; [|exact I|exact D]. unfold backlog. rewrite Ht. lia.
    + destruct (tick_backlog w I) as (w1 & R1 & B1); [rewrite Ht; discriminate|].
      destruct (IH w1) as (es & w' & Q & R & Hq & Hc & Htm & Hs);
        [lia | eapply Toasts.run_Inv; eassumption | eapply run_Drained; eassumption |].
      exists (tick w ++ es), w'.
      split; [now rewrite Toasts.requested_app, tick_requests_nothing, Q|].
      split; [now rewrite (run_app _ _ _ _ R1)|]. auto.
Qed.

(** X15.  Every toast asked for is shown in the end.  From any world the
    engine can reach by [showToast] calls, passing time and due callbacks,
    there is a way on, made only of waiting and of due callbacks, to a
    world where the queue, the container and the timer list are empty; by
    then the toasts shown are exactly the toasts asked for, in call order. *)
Theorem toast_queue_drains (es : list event) (w : world) :
  run initialWorld es = Some w ->
  exists (es' : list event) (w' : world),
    requested es' = []
    /\ run w es' = Some w'
    /\ toastQueue w' = []
    /\ toastContainer w' = []
    /\ timers w' = []
    /\ isShowingToast w' = false
    /\ displayed (log w') = requested es.
Proof.
  intros H.
  assert (Inv w) as I by (eapply Toasts.run_Inv; [apply Toasts.Inv_initial | exact H]).
  assert (Drained w) as D by (eapply run_Drained; [|exact H]; intros _; reflexivity).
  destruct (drain (backlog w) w (Nat.le_refl _) I D) as (es' & w' & Q & R & Hq & Hc & Ht & Hs).
  exists es', w'. repeat (split; [assumption|]).
  pose proof (Toasts.run_order es initialWorld w H) as O1.
  pose proof (Toasts.run_order es' w w' R) as O2.
  unfold queued in O2 at 1. rewrite Hq, Q, O1 in O2.
  cbn [map] in O2. rewrite !app_nil_r in O2. exact O2.
Qed.

Lemma toast_queue_drains_witness :
  run initialWorld burst = Some afterBurst
  /\ exists (es' : list event) (w' : world),
      run afterBurst es' = Some w'
      /\ toastQueue w' = []
      /\ displayed (log w')
         = [("Level Up!", "Reached level 2"); ("Welcome!", "hello");
            ("Block Broken!", "fact")].
Proof.
  assert (run initialWorld burst = Some afterBurst) as H by reflexivity.
  split; [exact H|].
  destruct (toast_queue_drains burst afterBurst H) as (es' & w' & _ & R & Q & _ & _ & _ & O).
  exists es', w'. split; [exact R|]. split; [exact Q | exact O].
Defined.

End Draining.

(** ** The engine's skills course: [updateParkour] *)

Module Course.
Import Engine.
Import CourseSamples.

Lemma completeParkour_player (fuel : nat) (w w' : world) (p p' : parkour) :
  completeParkour fuel (w, p) = Some (w', p') ->
  playerX p' = playerX p /\ playerY p' = playerY p /\ isJumping p' = isJumping p
  /\ velocityY p' = velocityY p /\ onGround p' = onGround p /\ keys p' = keys p
  /\ parkourCompleted p' = true.
Proof.
  unfold completeParkour. destruct (parkourCompleted p) eqn:C.
  - intros E. injection E as <- <-. auto 10.
  - destruct (addXP fuel 50 w) as [w1|]; [|discriminate].
    destruct (unlockAchievement fuel _ _ w1) as [w2|]; [|discriminate].
    intros E. injection E as <- <-. cbn. auto 10.
Qed.

(** What the platform loop keeps: the horizontal position, the keys, the
    jumping flag; a player on the ground has no vertical velocity; a
    completed course stays completed. *)
Lemma forEachPlatform_keeps (fuel : nat) (pls : list platform) :
  forall (w w' : world) (p p' : parkour),
    forEachPlatform fuel (w, p) pls = Some (w', p') ->
    playerX p' = playerX p /\ keys p' = keys p /\ isJumping p' = isJumping p
    /\ ((onGround p = true -> velocityY p == 0)%Q ->
        (onGround p' = true -> velocityY p' == 0)%Q)
    /\ (parkourCompleted p = true -> parkourCompleted p' = true).
Proof.
  induction pls as [|pl r IH]; intros w w' p p' H; cbn [forEachPlatform] in H.
  - injection H as <- <-. auto.
  - destruct (collide fuel (w, p) pl) as [[w1 p1]|] eqn:E; [|discriminate H].
    destruct (IH _ _ _ _ H) as (Hx & Hk & Hj & Hv & Hc).
    unfold collide in E. destruct (overlaps p pl).
    + destruct (isEnd pl).
      * destruct (completeParkour_player _ _ _ _ _ E) as (Px & _ & Pj & Pv & Pg & Pk & Pc).
        cbn [playerX isJumping velocityY onGround keys] in Px, Pj, Pv, Pg, Pk.
        rewrite Hx, Hk, Hj, Px, Pk, Pj. repeat split.
        -- intros _. apply Hv. intros _. rewrite Pv. reflexivity.
        -- intros _. apply Hc. exact Pc.
      * injection E as <- <-.
        cbn [playerX isJumping velocityY onGround keys parkourCompleted] in *.
        repeat split; try assumption. intros _. apply Hv. intros _. reflexivity.
    + injection E as <- <-. repeat split; assumption.
Qed.

(** X16.  The player stays on the course.  Whenever a frame of
    [updateParkour] returns, [playerX] is between 0 and 470 and [playerY]
    is at most 150, [isJumping] is set exactly when the player is not on
    the ground, a player on the ground has no vertical velocity, the keys
    are as they were, and a completed course is still completed. *)
Theorem updateParkour_bounds (fuel : nat) (pls : list platform)
        (w w' : world) (p p' : parkour) :
  updateParkour fuel pls (w, p) = Some (w', p') ->
  (0 <= playerX p' /\ playerX p' <= 470)%Q
  /\ (playerY p' <= 150)%Q
  /\ isJumping p' = negb (onGround p')
  /\ (onGround p' = true -> velocityY p' == 0)%Q
  /\ keys p' = keys p
  /\ (parkourCompleted p = true -> parkourCompleted p' = true).
Proof.
  unfold updateParkour.
  match goal with
  | |- context [forEachPlatform fuel (w, ?q) pls] => set (p0 := q)
  end.
  destruct (forEachPlatform fuel (w, p0) pls) as [[w1 p1]|] eqn:E; [|discriminate].
  destruct (forEachPlatform_keeps _ _ _ _ _ _ E) as (_ & Hk & _ & Hv & Hc).
  cbn [p0 keys onGround parkourCompleted] in Hk, Hv, Hc.
  intros H. injection H as <- <-.
  cbn [playerX playerY isJumping onGround velocityY keys parkourCompleted].
  split; [split|].
  - apply Q.le_max_l.
  - apply Q.max_lub; [discriminate | apply Q.le_min_r].
  - destruct (Physics.leb_spec 150 (playerY p1)) as [Hy|Hy];
      cbn [playerX playerY isJumping onGround velocityY keys parkourCompleted].
    + split; [apply Qle_refl|]. split; [reflexivity|]. split; [reflexivity|].
      split; [exact Hk | exact Hc].
    + split; [now apply Qlt_le_weak|]. split; [reflexivity|].
      split; [apply Hv; discriminate|]. split; [exact Hk | exact Hc].
Qed.

Lemma updateParkour_bounds_witness :
  updateParkour 0 course (initialWorld, falling)
  = Some (initialWorld,
          mkParkour 470%Q 150%Q false 0%Q true (<[ "d" := true ]> ∅) false)
  /\ (0 <= 470 /\ 470 <= 470)%Q.
Proof.
  assert (updateParkour 0 course (initialWorld, falling)
          = Some (initialWorld,
                  mkParkour 470%Q 150%Q false 0%Q true (<[ "d" := true ]> ∅) false)) as E
      by (vm_compute; reflexivity).
  split; [exact E|].
  exact (proj1 (updateParkour_bounds 0 course initialWorld initialWorld falling _ E)).
Defined.

End Course.

(** ** The toast stack of the closure script over time *)

Module Stack.
Import Closure.
Import StackView.

Lemma Tidy_ext (w w' : world) :
  toastWrap w' = toastWrap w ->
  removals w' = removals w ->
  nextNode w' = nextNode w ->
  Tidy w -> Tidy w'.
Proof.
  unfold Tidy, visible, pending, ToastLog.stacked. now intros -> -> ->.
Qed.

Lemma prependToast_Tidy (t m : string) (d : Q) (g : bool) (wrap : list toastNode)
      (w : world) :
  toastWrap w = Some wrap -> Tidy w -> Tidy (prependToast t m d g wrap w).
Proof.
  unfold Tidy, visible, pending, ToastLog.stacked. intros -> (Hv & Hd & Hf).
  cbn [prependToast toastWrap removals nextNode map tn_id].
  rewrite map_app, rev_app_distr. cbn [map rev app target].
  split; [now rewrite Hv|]. split.
  - apply List.NoDup_app; [exact Hd | repeat constructor; intros [] |].
    intros a Ha [<-|[]]. rewrite List.Forall_forall in Hf. specialize (Hf _ Ha). lia.
  - apply Forall_app. split.
    + eapply Forall_impl; [exact Hf|]. cbn. intros; lia.
    + repeat constructor.
Qed.

Lemma emit_Tidy (e : effect) (w : world) : Tidy w -> Tidy (emit e w).
Proof. apply Tidy_ext; reflexivity. Qed.

Lemma createToast_Tidy (t m : string) (d : option Q) (w : world) :
  Tidy w -> Tidy (createToast t m d w).
Proof.
  intros H. unfold createToast. destruct (toastWrap w) as [wrap|] eqn:E; [|exact H].
  unfold SoundManager_play. apply emit_Tidy. now apply prependToast_Tidy.
Qed.

Lemma inlineToast_Tidy (t m : string) (w : world) : Tidy w -> Tidy (inlineToast t m w).
Proof.
  intros H. unfold inlineToast. destruct (toastWrap w) as [wrap|] eqn:E; [|exact H].
  now apply prependToast_Tidy.
Qed.

Lemma toastOrNothing_Tidy (t m : string) (d : option Q) (w : world) :
  Tidy w -> Tidy (toastOrNothing t m d w).
Proof.
  intros H. unfold toastOrNothing. cbn [emit createToastInstalled].
  destruct (createToastInstalled w);
    [apply createToast_Tidy|]; now apply emit_Tidy.
Qed.

Lemma toastOrInline_Tidy (t m : string) (d : option Q) (w : world) :
  Tidy w -> Tidy (toastOrInline t m d w).
Proof.
  intros H. unfold toastOrInline. cbn [emit createToastInstalled].
  destruct (createToastInstalled w);
    [apply createToast_Tidy | apply inlineToast_Tidy]; now apply emit_Tidy.
Qed.

Lemma awardAchievement_Tidy (i t m : string) (w : world) :
  Tidy w -> Tidy (awardAchievement i t m w).
Proof.
  intros H. unfold awardAchievement.
  destruct (bool_decide (i ∈ achievements (st w))); [exact H|].
  unfold SoundManager_play. do 2 apply emit_Tidy. apply toastOrInline_Tidy.
  eapply Tidy_ext; [| | |exact H]; reflexivity.
Qed.

(** In a list without duplicates, filtering out the element at a position
    removes that position. *)
Lemma filter_remove_nth (l : list nat) :
  forall (k n : nat),
    List.NoDup l ->
    nth_error l k = Some n ->
    List.filter (fun x => negb (Nat.eqb x n)) l = Engine.remove_nth k l.
Proof.
  induction l as [|a l IH]; intros k n Hd Hk; [destruct k; discriminate|].
  inversion Hd as [|? ? Ha Hl]; subst.
  destruct k as [|k]; cbn [nth_error Engine.remove_nth List.filter] in *.
  - injection Hk as ->. rewrite Nat.eqb_refl. cbn [negb].
    apply forallb_filter_id. apply forallb_forall. intros x Hx.
    destruct (Nat.eqb_spec x n) as [->|]; [contradiction|reflexivity].
  - destruct (Nat.eqb_spec a n) as [->|].
    + apply nth_error_In in Hk. contradiction.
    + cbn [negb]. f_equal. now apply IH.
Qed.

Lemma map_filter_id (n : nat) (wrap : list toastNode) :
  map tn_id (List.filter (fun t => negb (Nat.eqb (tn_id t) n)) wrap)
  = List.filter (fun x => negb (Nat.eqb x n)) (map tn_id wrap).
Proof.
  induction wrap as [|a wrap IH]; [reflexivity|].
  cbn [List.filter map]. destruct (Nat.eqb (tn_id a) n); cbn [negb map]; now rewrite IH.
Qed.

Lemma expire_Tidy (k : nat) (r : removal) (w : world) :
  nth_error (removals w) k = Some r ->
  Tidy w ->
  Tidy (removeNode (target r) (with_removals (Engine.remove_nth k (removals w)) w)).
Proof.
  unfold Tidy, visible, pending, ToastLog.stacked. intros Hk (Hv & Hd & Hf).
  cbn [removeNode with_removals toastWrap removals nextNode].
  assert (nth_error (map target (removals w)) k = Some (target r)) as Hk'
      by (rewrite nth_error_map, Hk; reflexivity).
  pose proof (filter_remove_nth _ _ _ Hd Hk') as Hfil.
  assert (map target (Engine.remove_nth k (removals w))
          = Engine.remove_nth k (map target (removals w))) as Hmap.
  { clear. revert k. induction (removals w) as [|a l IH]; intros k; [now destruct k|].
    destruct k; cbn [Engine.remove_nth map]; [reflexivity | now rewrite IH]. }
  rewrite Hmap, <- Hfil. split; [|split].
  - rewrite <- filter_rev, <- Hv.
    destruct (toastWrap w) as [wrap|]; cbn [option_map]; [apply map_filter_id | reflexivity].
  - now apply List.NoDup_filter.
  - apply List.Forall_forall. intros x Hx. apply List.filter_In in Hx.
    rewrite List.Forall_forall in Hf. apply Hf, Hx.
Qed.

Lemma toastHandle_Tidy (w w' : world) (e : toastEvent) :
  Tidy w -> toastHandle w e = Some w' -> Tidy w'.
Proof.
  intros H E. destruct e as [t m d|t m|i t m|t m d|d|k]; cbn [toastHandle] in E.
  - injection E as <-. now apply createToast_Tidy.
  - injection E as <-. now apply toastOrInline_Tidy.
  - injection E as <-. now apply awardAchievement_Tidy.
  - injection E as <-. now apply toastOrNothing_Tidy.
  - destruct (JS.leb 0 d); [|discriminate E]. injection E as <-.
    eapply Tidy_ext; [| | |exact H]; reflexivity.
  - destruct (nth_error (removals w) k) as [r|] eqn:Ek; [|discriminate E].
    destruct (expirable r w); [|discriminate E]. injection E as <-.
    now apply expire_Tidy.
Qed.

(** X17.  No toast of the stack leaks, and none is removed twice.  On a
    page where every toast on screen has exactly one pending [remove()] and
    every pending [remove()] is for a toast on screen, this stays so
    through every call that creates a toast ([createToast], [window.toast],
    [awardAchievement], a call through [createToast || no-op]), through
    passing time and through every [remove()] that runs: the toasts on
    screen, newest first, are the nodes of the pending removals, oldest
    first; there are as many of the one as of the other; and the stack is
    empty exactly when no removal is pending. *)
Theorem toast_stack_is_tidy (es : list toastEvent) :
  forall w w' : world,
    Tidy w ->
    toastRun w es = Some w' ->
    Tidy w'
    /\ length (ToastLog.stacked w') = length (removals w')
    /\ (removals w' = [] <-> ToastLog.stacked w' = []).
Proof.
  assert (forall v : world,
             Tidy v ->
             length (ToastLog.stacked v) = length (removals v)
             /\ (removals v = [] <-> ToastLog.stacked v = [])) as Hcount.
  { intros v (Hv & _). unfold visible, pending in Hv.
    assert (length (ToastLog.stacked v) = length (removals v)) as Hl.
    { rewrite <- (length_map tn_id), Hv, length_rev. apply length_map. }
    split; [exact Hl|].
    split; intros E; rewrite E in Hl; cbn [length] in Hl.
    - now apply length_zero_iff_nil.
    - symmetry in Hl. now apply length_zero_iff_nil. }
  induction es as [|e es IH]; intros w w' H E; cbn [toastRun] in E.
  - injection E as <-. split; [exact H | now apply Hcount].
  - destruct (toastHandle w e) as [w1|] eqn:E1; [|discriminate E].
    apply (IH w1 w'); [|exact E]. eapply toastHandle_Tidy; eassumption.
Qed.

Lemma toast_stack_is_tidy_witness :
  Tidy ToastLog.page
  /\ exists w' : world,
      toastRun ToastLog.page twoCreated = Some w'
      /\ ToastLog.stacked w' = [mkToastNode 1 "Fact" "second"]
      /\ length (removals w') = 1%nat.
Proof.
  assert (Tidy ToastLog.page) as H by (repeat split; constructor).
  split; [exact H|].
  assert (exists w', toastRun ToastLog.page twoCreated = Some w'
                     /\ ToastLog.stacked w' = [mkToastNode 1 "Fact" "second"])
    as (w' & E & S) by (eexists; split; vm_compute; reflexivity).
  exists w'. split; [exact E|]. split; [exact S|].
  destruct (toast_stack_is_tidy twoCreated ToastLog.page w' H E) as (_ & L & _).
  rewrite <- L, S. reflexivity.
Defined.

End Stack.

(** ** Runs of the closure's parkour *)

Module Runs.
Import Closure.
Import Tick.
Import Field.

(** X18.  The body never leaves the arena.  In an arena at least 46 pixels
    wide, a body of width 20 that is inside the arena stays inside it, with
    its width, through every series of frames, key events and [destroy()]
    calls. *)
Theorem run_in_arena (ar : arena) (es : list event) :
  forall (v : world) (i : instance),
    46 <= clientWidth ar ->
    (w (body i) == 20)%Q ->
    inside ar (body i) ->
    inside ar (body (snd (run ar (v, i) es)))
    /\ (w (body (snd (run ar (v, i) es))) == 20)%Q.
Proof.
  induction es as [|e es IH]; intros v i Hc Hw Hin.
  - split; assumption.
  - rewrite Physics.run_cons.
    destruct e as [now|k|k|]; cbn [handle].
    + destruct (frameRequested i); [|now apply IH].
      destruct (Physics.step_in_arena ar now v i Hc Hw) as (H1 & H2 & H3 & H4).
      destruct (step ar now (v, i)) as [v1 i1] eqn:E. cbn [snd] in *.
      apply IH; [exact Hc | exact H4 | repeat split; assumption].
    + destruct (listening i); now apply IH.
    + destruct (listening i); now apply IH.
    + now apply IH.
Qed.

Lemma run_in_arena_witness :
  (46 <= clientWidth arena700
   /\ (w (body started) == 20)%Q
   /\ inside arena700 (body started))
  /\ inside arena700 (body (snd (run arena700 (site, started) stroll))).
Proof.
  assert (46 <= clientWidth arena700) as Hc by (cbn; lia).
  assert (w (body started) == 20)%Q as Hw by reflexivity.
  assert (inside arena700 (body started)) as Hin
      by (unfold inside; repeat split; vm_compute; congruence).
  split; [auto|].
  exact (proj1 (run_in_arena arena700 stroll site started Hc Hw Hin)).
Defined.
















Lemma achievements_awardAchievement (id t m : string) (v : world) :
  achievements (st (awardAchievement id t m v)) = achievements (st v) ∪ {[ id ]}.
Proof.
  unfold awardAchievement, SoundManager_play.
  destruct (decide (id ∈ achievements (st v))) as [Hin|Hn].
  - rewrite bool_decide_true by exact Hin. symmetry. now apply Achievements.union_known.
  - rewrite bool_decide_false by exact Hn.
    cbn [emit st]. now rewrite Physics.st_toastOrInline.
Qed.

Lemma step_score (ar : arena) (now : Q) (v : world) (i : instance) :
  if won ar (body (snd (step ar now (v, i))))
  then rewarded v (fst (step ar now (v, i)))
  else unchanged v (fst (step ar now (v, i))).
Proof.
  rewrite Physics.step_world. cbv zeta.
  match goal with
  | |- context [emit (drawn ?a ?b) ?u] =>
      assert (st (emit (drawn a b) u) = st v) as Hst
  end.
  { cbn [emit st]. destruct (fell _ _), (jumps _ _);
      unfold SoundManager_play; cbn [emit st];
      rewrite ?Physics.st_toastOrNothing; reflexivity. }
  destruct (won ar _).
  - unfold rewarded. rewrite (proj1 (Physics.celebrate_st _)).
    unfold celebrate. rewrite achievements_awardAchievement.
    cbn [emit st with_st achievements SoundManager_play].
    rewrite Physics.st_toastOrNothing.
    split; cbn [emit st] in *; rewrite ?Hst; reflexivity.
  - unfold unchanged. now rewrite Hst.
Qed.

Lemma run_idle_score (ar : arena) (es : list event) :
  forall (v : world) (i : instance),
    frameRequested i = false -> unchanged v (fst (run ar (v, i) es)).
Proof.
  induction es as [|e es IH]; intros v i Hf; [now split|].
  rewrite Physics.run_cons. destruct e as [now|k|k|]; cbn [handle]; rewrite ?Hf.
  - now apply IH.
  - destruct (listening i); [exact (IH (keyHandler true k v) i Hf) | now apply IH].
  - destruct (listening i); [exact (IH (keyHandler false k v) i Hf) | now apply IH].
  - exact (IH v (destroy i) Hf).
Qed.

Lemma run_score (ar : arena) (es : list event) :
  forall (v : world) (i : instance),
    unchanged v (fst (run ar (v, i) es)) \/ rewarded v (fst (run ar (v, i) es)).
Proof.
  induction es as [|e es IH]; intros v i; [left; now split|].
  rewrite Physics.run_cons. destruct e as [now|k|k|]; cbn [handle].
  - destruct (frameRequested i); [|apply IH].
    pose proof (step_score ar now v i) as Hs.
    destruct (Physics.step_running ar now v i) as (Hr & Hq & _).
    destruct (step ar now (v, i)) as [v1 i1] eqn:Es. cbn [fst snd] in Hs, Hr, Hq.
    destruct (won ar (body i1)).
    + rewrite Hr in Hq. destruct (run_idle_score ar es v1 i1 Hq) as (Ux & Ua).
      destruct Hs as (Rx & Ra). right. split; congruence.
    + destruct Hs as (Ux & Ua).
      destruct (IH v1 i1) as [(Vx & Va)|(Vx & Va)]; [left|right]; split; congruence.
  - destruct (listening i); [exact (IH (keyHandler true k v) i) | apply IH].
  - destruct (listening i); [exact (IH (keyHandler false k v) i) | apply IH].
  - apply IH.
Qed.

(** X21.  The score of the closure script.  Whatever frames, key events and
    [destroy()] calls an instance sees, it raises the XP at most once and
    by at most 15: XP that was at most 100 never goes down and never passes
    100, and the only achievement the run can add is "parkour-complete";
    none is lost. *)
Theorem xp_is_capped (ar : arena) (es : list event) (v : world) (i : instance) :
  xp (st v) <= 100 ->
  let v' := fst (run ar (v, i) es) in
  xp (st v) <= xp (st v') <= 100
  /\ xp (st v') <= xp (st v) + 15
  /\ achievements (st v) ⊆ achievements (st v')
  /\ achievements (st v') ⊆ achievements (st v) ∪ {[ "parkour-complete" ]}.
Proof.
  intros Hx v'. unfold v'.
  destruct (run_score ar es v i) as [(Ux & Ua)|(Rx & Ra)].
  - rewrite Ux, Ua. split; [lia|]. split; [lia|].
    split; [reflexivity | apply union_subseteq_l].
  - rewrite Rx, Ra. split; [lia|]. split; [lia|].
    split; [apply union_subseteq_l | reflexivity].
Qed.

Lemma xp_is_capped_witness :
  xp (st almostThere) <= 100
  /\ xp (st (fst (run arena700 (almostThere, finishing) [Frame 336%Q; Frame 352%Q]))) = 100.
Proof.
  assert (xp (st almostThere) <= 100) as Hx by (cbn; lia).
  split; [exact Hx|].
  destruct (xp_is_capped arena700 [Frame 336%Q; Frame 352%Q] almostThere finishing Hx)
    as ((_ & Hle) & _).
  assert (100 <= xp (st (fst (run arena700 (almostThere, finishing)
                                  [Frame 336%Q; Frame 352%Q])))) as Hge
      by (vm_compute; congruence).
  lia.
Defined.

(** X22.  An achievement of the closure script is awarded once.  After
    [awardAchievement] the id is in the set and nothing else was added; a
    second call with the same id, whatever its title and message, changes
    nothing.  The first call announces the title once and, when the page
    has a toast stack, puts exactly one toast on top of it, whether
    [createToast] is installed or not. *)
Theorem awardAchievement_once (id t m : string) (v : world) :
  let v' := awardAchievement id t m v in
  achievements (st v') = achievements (st v) ∪ {[ id ]}
  /\ (forall t' m' : string, awardAchievement id t' m' v' = v')
  /\ (id ∈ achievements (st v) -> v' = v)
  /\ (id ∉ achievements (st v) ->
      notifications t v' = S (notifications t v)
      /\ forall wrap : list toastNode,
          toastWrap v = Some wrap ->
          toastWrap v' = Some (mkToastNode (nextNode v) t m :: wrap)).
Proof.
  cbv zeta. split; [apply achievements_awardAchievement|]. split; [|split].
  - intros t' m'. unfold awardAchievement at 1.
    rewrite bool_decide_true; [reflexivity|].
    rewrite achievements_awardAchievement.
    apply elem_of_union_r, elem_of_singleton. reflexivity.
  - intros Hin. unfold awardAchievement. now rewrite bool_decide_true.
  - intros Hn. split.
    + unfold notifications.
      change (length (List.filter (isNotified t) (log ?u))) with (count (isNotified t) u).
      rewrite Physics.count_awardAchievement by reflexivity.
      rewrite bool_decide_false by exact Hn.
      cbn [isNotified]. rewrite String.eqb_refl. lia.
    + intros wrap Hw. unfold awardAchievement. rewrite bool_decide_false by exact Hn.
      unfold SoundManager_play, toastOrInline, createToast, inlineToast.
      cbn [emit with_st toastWrap createToastInstalled hasG].
      rewrite Hw. destruct (createToastInstalled v); reflexivity.
Qed.

Lemma jumpStrength_fold_collide (pls : list platform) :
  forall p : player, jumpStrength (fold_left collide pls p) = jumpStrength p.
Proof.
  induction pls as [|pl pls IH]; intros p; [reflexivity|].
  cbn [fold_left]. rewrite IH. unfold collide. now destruct (lands p pl).
Qed.

Lemma jumpStrength_steer (ks : gmap string bool) (p : player) :
  jumpStrength (steer ks p) = jumpStrength p.
Proof. unfold steer. destruct (left ks), (right ks); reflexivity. Qed.

Lemma jumpStrength_advance (ar : arena) (now : Q) (v : world) (i : instance) :
  jumpStrength (snd (advance ar now (v, i))) = jumpStrength (body i).
Proof.
  unfold advance, jump.
  destruct (up (keys (st v)) && onGround _); cbn [snd];
    unfold arenaBounds, collisionPass;
    repeat match goal with
           | |- context [if ?b then _ else _] => destruct b
           end;
    cbn [jumpStrength set_x]; rewrite jumpStrength_fold_collide;
    unfold move, pull; cbn [jumpStrength set_onGround set_x set_y set_vy];
    apply jumpStrength_steer.
Qed.

Lemma jumpStrength_step (ar : arena) (now : Q) (v : world) (i : instance) :
  jumpStrength (body (snd (step ar now (v, i)))) = jumpStrength (body i).
Proof.
  rewrite Physics.step_body, <- (jumpStrength_advance ar now v i).
  destruct (advance ar now (v, i)) as [v1 p1].
  rewrite Physics.fallReset_snd. cbn [snd]. now destruct (fell ar p1).
Qed.

(** The body of a tick that starts a jump. *)
Lemma advance_jump (ar : arena) (now : Q) (v : world) (i : instance) :
  up (keys (st v)) = true ->
  onGround (body i) = true ->
  (0 < jumpStrength (body i))%Q ->
  let p := snd (advance ar now (v, i)) in
  onGround p = false
  /\ vy p = (- jumpStrength (body i))%Q
  /\ y p = (y (body i) + - jumpStrength (body i) * dtOf now (last i))%Q.
Proof.
  intros Hu Hg Hj. cbv zeta. unfold advance, jump.
  assert (onGround (pull (dtOf now (last i)) (steer (keys (st v)) (body i))) = true) as Hg'
      by (unfold pull; cbn [onGround set_vy]; now rewrite Physics.onGround_steer).
  rewrite Hu, Hg'. cbn [andb snd]. unfold collisionPass.
  assert (jumpStrength (pull (dtOf now (last i)) (steer (keys (st v)) (body i)))
          = jumpStrength (body i)) as Hjs
      by (unfold pull; cbn [jumpStrength set_vy]; apply jumpStrength_steer).
  assert (y (pull (dtOf now (last i)) (steer (keys (st v)) (body i))) = y (body i)) as Hy
      by (unfold pull, steer; destruct (left (keys (st v))), (right (keys (st v)));
          reflexivity).
  rewrite Physics.fold_collide_rising
    by (unfold move; cbn [vy set_onGround set_x set_y set_vy]; rewrite Hjs; lra).
  unfold arenaBounds, move.
  repeat match goal with
         | |- context [if ?b then _ else _] => destruct b
         end;
    cbn [onGround vy y set_onGround set_x set_y set_vy]; rewrite Hjs, Hy; auto.
Qed.

(** X23.  A jump needs the ground.  A tick that finds the jump key held and
    the body on the ground, not below the arena's floor, leaves the body
    off the ground with the upward velocity [jumpStrength], higher by
    [jumpStrength * dt], and plays one "click"; a tick that finds the body
    off the ground, or no jump key held, plays no "click". *)
Theorem jump_needs_ground (ar : arena) (now : Q) (v : world) (i : instance) :
  (last i <= now)%Q ->
  (0 < jumpStrength (body i))%Q ->
  (y (body i) <= inject_Z (clientHeight ar))%Q ->
  let v' := fst (step ar now (v, i)) in
  let p' := body (snd (step ar now (v, i))) in
  (up (keys (st v)) = true -> onGround (body i) = true ->
   onGround p' = false
   /\ vy p' = (- jumpStrength (body i))%Q
   /\ y p' = (y (body i) + - jumpStrength (body i) * dtOf now (last i))%Q
   /\ sounds "click" v' = S (sounds "click" v))
  /\ (up (keys (st v)) = false \/ onGround (body i) = false ->
      sounds "click" v' = sounds "click" v).
Proof.
  intros Hl Hj Hy. cbv zeta. split.
  - intros Hu Hg.
    destruct (advance_jump ar now v i Hu Hg Hj) as (Ag & Av & Ay). cbv zeta in Ag, Av, Ay.
    destruct (Physics.dtOf_bounds now (last i) Hl) as (Hd0 & _).
    assert (fell ar (snd (advance ar now (v, i))) = false) as Hfell.
    { unfold fell. apply Physics.ltb_false. rewrite Ay. nra. }
    assert (jumps v i = true) as Hjumps by (unfold jumps; now rewrite Hu, Hg).
    rewrite Physics.step_body.
    destruct (advance ar now (v, i)) as [v1 p1] eqn:E. cbn [snd] in *.
    rewrite Physics.fallReset_snd, Hfell.
    split; [exact Ag|]. split; [exact Av|]. split; [exact Ay|].
    unfold sounds.
    change (length (List.filter (isSound "click") (log ?u)))
      with (count (isSound "click") u).
    rewrite Physics.step_world. cbv zeta. rewrite E. cbn [snd].
    rewrite Hfell, Hjumps.
    destruct (won ar _); unfold celebrate, SoundManager_play;
      repeat first [ rewrite Physics.count_awardAchievement by reflexivity
                   | rewrite Physics.count_emit
                   | rewrite Physics.count_with_st
                   | rewrite Physics.count_toastOrNothing by reflexivity ];
      cbn [isSound String.eqb Ascii.eqb Bool.eqb];
      repeat match goal with
             | |- context [bool_decide ?P] => destruct (bool_decide P)
             end; lia.
  - intros Hno.
    assert (jumps v i = false) as Hjumps.
    { unfold jumps. destruct Hno as [-> | ->]; [reflexivity | apply andb_false_r]. }
    unfold sounds.
    change (length (List.filter (isSound "click") (log ?u)))
      with (count (isSound "click") u).
    rewrite Physics.step_world. cbv zeta. rewrite Hjumps.
    destruct (fell ar _), (won ar _); unfold celebrate, SoundManager_play;
      repeat first [ rewrite Physics.count_awardAchievement by reflexivity
                   | rewrite Physics.count_emit
                   | rewrite Physics.count_with_st
                   | rewrite Physics.count_toastOrNothing by reflexivity ];
      cbn [isSound isNotified String.eqb Ascii.eqb Bool.eqb];
      repeat match goal with
             | |- context [bool_decide ?P] => destruct (bool_decide P)
             end; lia.
Qed.

Lemma jump_needs_ground_witness :
  ((last (snd landed) <= 32)%Q
   /\ (0 < jumpStrength (body (snd landed)))%Q
   /\ (y (body (snd landed)) <= inject_Z (clientHeight arena700))%Q)
  /\ onGround (body (snd (step arena700 32%Q (fst landed, snd landed)))) = false
  /\ sounds "click" (fst (step arena700 32%Q (fst landed, snd landed))) = 1%nat.
Proof.
  assert (last (snd landed) <= 32)%Q as Hl by (vm_compute; congruence).
  assert (0 < jumpStrength (body (snd landed)))%Q as Hj by reflexivity.
  assert (y (body (snd landed)) <= inject_Z (clientHeight arena700))%Q as Hy
      by (vm_compute; congruence).
  split; [auto|].
  destruct (jump_needs_ground arena700 32%Q (fst landed) (snd landed) Hl Hj Hy) as (J & _).
  destruct (J eq_refl eq_refl) as (G & _ & _ & S).
  split; [exact G | exact S].
Defined.

(** X24.  A long pause counts as 32 milliseconds.  When 32 ms or more have
    passed since the last tick, the tick moves the body exactly as a tick
    32 ms after the last one would: [dt] is 32 / 16.666 however long the
    pause was. *)
Theorem long_pause_is_one_step (ar : arena) (now : Q) (v : world) (i : instance) :
  (32 <= now - last i)%Q ->
  dtOf now (last i) = (32 / (16666 # 1000))%Q
  /\ advance ar now (v, i) = advance ar (last i + 32)%Q (v, i)
  /\ body (snd (step ar now (v, i))) = body (snd (step ar (last i + 32)%Q (v, i))).
Proof.
  intros Hp.
  assert (forall d : Q, (32 <= d)%Q -> Qmin 32 d = 32%Q) as Hmin.
  { intros d Hd. unfold Qmin, GenericMinMax.gmin.
    destruct (32 ?= d)%Q eqn:C; try reflexivity.
    apply Qgt_alt in C. lra. }
  assert (dtOf now (last i) = (32 / (16666 # 1000))%Q) as D1
      by (unfold dtOf; now rewrite Hmin).
  assert (dtOf (last i + 32) (last i) = (32 / (16666 # 1000))%Q) as D2
      by (unfold dtOf; rewrite Hmin; [reflexivity | lra]).
  assert (advance ar now (v, i) = advance ar (last i + 32)%Q (v, i)) as A
      by (unfold advance; now rewrite D1, D2).
  split; [exact D1|]. split; [exact A|].
  rewrite !Physics.step_body. now rewrite A.
Qed.

Lemma long_pause_is_one_step_witness :
  (32 <= 5000 - last started)%Q
  /\ body (snd (step arena700 5000%Q (site, started)))
     = body (snd (step arena700 (last started + 32)%Q (site, started))).
Proof.
  assert (32 <= 5000 - last started)%Q as Hp by (vm_compute; congruence).
  split; [exact Hp|].
  exact (proj2 (proj2 (long_pause_is_one_step arena700 5000%Q site started Hp))).
Defined.

(** X25.  A fall does not repeat itself.  If the fall check of a tick
    fires, the fall check of the next tick does not: the body was put back
    48 pixels above the floor with no vertical velocity, and one tick of
    gravity cannot take it below the floor.  Over the two ticks the fall is
    announced exactly once. *)
Theorem falls_do_not_loop (ar : arena) (now1 now2 : Q) (v : world) (i : instance) :
  fell ar (snd (advance ar now1 (v, i))) = true ->
  (now1 <= now2)%Q ->
  (0 <= jumpStrength (body i))%Q ->
  let s1 := step ar now1 (v, i) in
  fell ar (snd (advance ar now2 s1)) = false
  /\ notifications "Parkour" (fst (step ar now2 s1)) = S (notifications "Parkour" v).
Proof.
  intros Hf Ht Hj. cbv zeta.
  pose proof (Physics.step_fall_notices ar now1 v i) as N1. rewrite Hf in N1.
  pose proof (jumpStrength_step ar now1 v i) as J1.
  pose proof (Physics.step_body ar now1 v i) as B1.
  assert (last (snd (step ar now1 (v, i))) = now1) as L1
      by (rewrite (Physics.step_parts ar now1 v i); reflexivity).
  destruct (advance ar now1 (v, i)) as [v0 p0] eqn:E. cbn [snd] in Hf.
  rewrite Physics.fallReset_snd, Hf in B1.
  destruct (step ar now1 (v, i)) as [v1 i1] eqn:Es. cbn [fst snd] in *.
  assert (fell ar (snd (advance ar now2 (v1, i1))) = false) as F2.
  { apply Physics.no_second_reset.
    - rewrite L1. exact Ht.
    - rewrite B1. cbn [y set_vy set_y]. apply Qle_refl.
    - rewrite B1. reflexivity.
    - rewrite J1. exact Hj. }
  split; [exact F2|].
  rewrite Physics.step_fall_notices, F2, N1. lia.
Qed.

Lemma falls_do_not_loop_witness :
  (fell arena700 (snd (advance arena700 336%Q (holdingD, tumbling))) = true
   /\ (336 <= 352)%Q
   /\ (0 <= jumpStrength (body tumbling))%Q)
  /\ notifications "Parkour"
       (fst (step arena700 352%Q (step arena700 336%Q (holdingD, tumbling))))
     = 1%nat.
Proof.
  assert (fell arena700 (snd (advance arena700 336%Q (holdingD, tumbling))) = true) as Hf
      by (vm_compute; reflexivity).
  assert (336 <= 352)%Q as Ht by (vm_compute; congruence).
  assert (0 <= jumpStrength (body tumbling))%Q as Hj by (vm_compute; congruence).
  split; [auto|].
  exact (proj2 (falls_do_not_loop arena700 336%Q 352%Q holdingD tumbling Hf Ht Hj)).
Defined.

End Runs.

(** ** The closure script's sound manager *)

Module Mute.
Import Closure.
Import SoundManager.

(** X26.  Mute is honoured only once the sounds are loaded.  Once [init]
    has succeeded, [play] with the sound switched off starts nothing, and
    [play] never changes the manager.  Before that, a [play] initialises
    the manager and, if a context could be made and the file of a name of
    the sound table loaded, starts that sound whether the sound is switched
    on or off; if no context can be made, it starts nothing and leaves the
    manager as it was, so the next [play] tries again. *)
Theorem mute_needs_init (available : bool) (ok : string -> bool) (name : string) (m : t) :
  (inited m = true ->
   play available ok false name m = (m, false)
   /\ forall soundOn : bool, fst (play available ok soundOn name m) = m)
  /\ (inited m = false -> available = true -> In name SOUND_FILES -> ok name = true ->
      forall soundOn : bool,
        snd (play available ok soundOn name m) = true
        /\ inited (fst (play available ok soundOn name m)) = true)
  /\ (inited m = false -> available = false -> ctx m = false ->
      forall soundOn : bool, play available ok soundOn name m = (m, false)).
Proof.
  split; [|split].
  - intros Hi. unfold play. rewrite Hi. cbn [negb]. split; [reflexivity|].
    intros []; reflexivity.
  - intros Hi -> Hin Hok soundOn. unfold play, init. rewrite Hi.
    cbn [negb fst snd ctx inited buffers].
    split; [|reflexivity]. rewrite andb_true_r. apply bool_decide_eq_true.
    apply elem_of_union_r, elem_of_list_to_set, list_elem_of_In, List.filter_In. auto.
  - intros Hi -> Hc soundOn. unfold play, init. rewrite Hi. cbn [negb]. rewrite Hc.
    now rewrite andb_false_r.
Qed.

(** X27.  [setVolume] clamps.  Whatever number it is given, the master
    volume afterwards is between 0 and 1; it is the number itself when that
    is between 0 and 1, 0 for a smaller and 1 for a larger one; setting the
    volume to the result again changes nothing more, and the buffers and
    flags are untouched. *)
Theorem setVolume_clamps (v : Q) (m : t) :
  (0 <= masterVol (setVolume v m) /\ masterVol (setVolume v m) <= 1)%Q
  /\ ((0 <= v /\ v <= 1)%Q -> (masterVol (setVolume v m) == v)%Q)
  /\ ((v <= 0)%Q -> (masterVol (setVolume v m) == 0)%Q)
  /\ ((1 <= v)%Q -> (masterVol (setVolume v m) == 1)%Q)
  /\ (masterVol (setVolume (masterVol (setVolume v m)) m) == masterVol (setVolume v m))%Q
  /\ buffers (setVolume v m) = buffers m
  /\ inited (setVolume v m) = inited m
  /\ ctx (setVolume v m) = ctx m.
Proof.
  unfold setVolume. cbn [masterVol buffers inited ctx].
  assert (forall u : Q, (0 <= Qmax 0 (Qmin 1 u) /\ Qmax 0 (Qmin 1 u) <= 1)%Q
                         /\ ((0 <= u /\ u <= 1)%Q -> (Qmax 0 (Qmin 1 u) == u)%Q)
                         /\ ((u <= 0)%Q -> (Qmax 0 (Qmin 1 u) == 0)%Q)
                         /\ ((1 <= u)%Q -> (Qmax 0 (Qmin 1 u) == 1)%Q)) as H.
  { intros u.
    destruct (Q.max_spec 0 (Qmin 1 u)) as [(L1 & E1)|(L1 & E1)];
      destruct (Q.min_spec 1 u) as [(L2 & E2)|(L2 & E2)];
      rewrite E2 in *; repeat split; intros; lra. }
  destruct (H v) as (B & I & Z & O).
  split; [exact B|]. split; [exact I|]. split; [exact Z|]. split; [exact O|].
  split; [|auto]. apply (H (Qmax 0 (Qmin 1 v))). exact B.
Qed.

End Mute.

(** ** The closure script's block game *)

Module Blocks.
Import Closure.
Import Tick.
Import BlockCount.

Lemma brokenCount_insert (l : list block) :
  forall (i : nat) (bl nb : block),
    l !! i = Some bl ->
    (length (List.filter broken (<[ i := nb ]> l)) + (if broken bl then 1 else 0)
     = length (List.filter broken l) + (if broken nb then 1 else 0))%nat.
Proof.
  induction l as [|a l IH]; intros i bl nb Hi; [destruct i; discriminate|].
  destruct i as [|i]; cbn [lookup list_lookup] in Hi.
  - injection Hi as ->. cbn [insert list_insert List.filter].
    destruct (broken bl), (broken nb); cbn [length]; lia.
  - cbn [insert list_insert List.filter].
    specialize (IH i bl nb Hi).
    destruct (broken a); cbn [length]; [|exact IH].
    cbn [Nat.add]. f_equal. exact IH.
Qed.

(** One event keeps the account: every broken block has played its
    sound once, and has shown its fact once or still waits to. *)
Lemma blockHandle_account (v : world) (b : board) (e : blockEvent) :
  onBoard b ->
  let r := blockHandle (v, b) e in
  onBoard (snd r)
  /\ length (blocks (snd r)) = length (blocks b)
  /\ (notifications "Fact" (fst r) + length (waiting (snd r)) + brokenCount b
      = notifications "Fact" v + length (waiting b) + brokenCount (snd r))%nat
  /\ (sounds "block" (fst r) + brokenCount b
      = sounds "block" v + brokenCount (snd r))%nat.
Proof.
  intros Hb. cbv zeta. destruct e as [i|]; cbn [blockHandle].
  - unfold clickBlock. destruct (blocks b !! i) as [bl|] eqn:Ei;
      [|cbn [fst snd]; repeat split; auto].
    destruct (broken bl) eqn:Eb; [cbn [fst snd]; repeat split; auto|].
    cbn [fst snd blocks waiting]. unfold onBoard, brokenCount. cbn [blocks waiting].
    pose proof (brokenCount_insert _ i bl (mkBlock (fact bl) true (revealed bl)) Ei) as Hc.
    rewrite Eb in Hc. cbn [broken] in Hc.
    rewrite length_insert, length_app.
    unfold SoundManager_play, notifications, sounds.
    change (length (List.filter ?f (log ?u))) with (count f u).
    rewrite !Physics.count_emit.
    cbn [isNotified isSound String.eqb Ascii.eqb Bool.eqb length].
    split; [|repeat split; lia].
    apply Forall_app. split; [exact Hb|].
    repeat constructor. now apply lookup_lt_Some in Ei.
  - unfold revealBlock. destruct (waiting b) as [|i r] eqn:Ew;
      [cbn [fst snd]; rewrite ?Ew; repeat split; auto|].
    pose proof Hb as Hb'. unfold onBoard in Hb'. rewrite Ew in Hb'.
    inversion Hb' as [|? ? Hi Hr]; subst.
    destruct (lookup_lt_is_Some_2 _ _ Hi) as (bl & Ei). rewrite Ei.
    cbn [fst snd blocks waiting]. unfold onBoard, brokenCount. cbn [blocks waiting].
    pose proof (brokenCount_insert _ i bl (mkBlock (fact bl) (broken bl) true) Ei) as Hc.
    cbn [broken] in Hc.
    rewrite length_insert.
    unfold notifications, sounds.
    change (length (List.filter ?f (log ?u))) with (count f u).
    rewrite !Physics.count_awardAchievement by reflexivity.
    rewrite !Physics.count_toastOrNothing by reflexivity.
    cbn [isNotified isSound String.eqb Ascii.eqb Bool.eqb length].
    split; [|split; [reflexivity|]].
    + exact Hr.
    + destruct (bool_decide _), (broken bl); split; lia.
Qed.

(** X28.  A block is broken once.  On a board as [setupBlockGame] makes it,
    through every series of clicks and of handlers resuming after their
    wait, the board keeps its blocks; every broken block has played the
    "block" sound exactly once and has asked for its "Fact" toast exactly
    once or is still waiting to; so no more facts are asked for than the
    board has blocks.  A second click on a block changes nothing. *)
Theorem blocks_break_once (facts : list string) (es : list blockEvent) (v : world) :
  let r := blockRun (v, setupBlockGame facts) es in
  length (blocks (snd r)) = length facts
  /\ (notifications "Fact" (fst r) + length (waiting (snd r))
      = notifications "Fact" v + brokenCount (snd r))%nat
  /\ (sounds "block" (fst r) = sounds "block" v + brokenCount (snd r))%nat
  /\ (brokenCount (snd r) <= length facts)%nat
  /\ (forall i : nat, clickBlock i (clickBlock i r) = clickBlock i r).
Proof.
  cbv zeta.
  assert (forall (es : list blockEvent) (v0 : world) (b0 : board),
             onBoard b0 ->
             let r := blockRun (v0, b0) es in
             onBoard (snd r)
             /\ length (blocks (snd r)) = length (blocks b0)
             /\ (notifications "Fact" (fst r) + length (waiting (snd r)) + brokenCount b0
                 = notifications "Fact" v0 + length (waiting b0) + brokenCount (snd r))%nat
             /\ (sounds "block" (fst r) + brokenCount b0
                 = sounds "block" v0 + brokenCount (snd r))%nat) as Hrun.
  { clear. induction es as [|e es IH]; intros v0 b0 Hb; cbv zeta.
    - cbn [blockRun fold_left fst snd]. auto.
    - unfold blockRun. cbn [fold_left]. fold (blockRun (blockHandle (v0, b0) e) es).
      destruct (blockHandle_account v0 b0 e Hb) as (H1 & H2 & H3 & H4).
      destruct (blockHandle (v0, b0) e) as [v1 b1]. cbn [fst snd] in H1, H2, H3, H4.
      destruct (IH v1 b1 H1) as (I1 & I2 & I3 & I4).
      split; [exact I1|]. split; [congruence|]. split; lia. }
  assert (onBoard (setupBlockGame facts)) as H0 by constructor.
  destruct (Hrun es v (setupBlockGame facts) H0) as (_ & Hl & Hn & Hs).
  assert (brokenCount (setupBlockGame facts) = 0%nat) as Hz.
  { clear. unfold brokenCount, setupBlockGame. cbn [blocks].
    induction facts as [|f fs IH]; [reflexivity | exact IH]. }
  rewrite Hz in Hn, Hs. cbn [setupBlockGame blocks waiting length] in Hl, Hn.
  rewrite length_map in Hl.
  split; [exact Hl|]. split; [lia|]. split; [lia|]. split.
  - rewrite <- Hl. apply List.filter_length_le.
  - intros i. destruct (blockRun (v, setupBlockGame facts) es) as [v1 b1].
    unfold clickBlock at 2 3. destruct (blocks b1 !! i) as [bl|] eqn:Ei.
    + destruct (broken bl) eqn:Eb.
      * unfold clickBlock. now rewrite Ei, Eb.
      * unfold clickBlock. cbn [blocks].
        rewrite list_lookup_insert_eq by (now apply lookup_lt_Some in Ei).
        reflexivity.
    + unfold clickBlock. now rewrite Ei.
Qed.

End Blocks.
